(** * updates: the version resolution engine of [updates.js]

    A shallow embedding of the resolution logic of [updates.js]
    ([findVersion], [findNewVersion], [updateRange], [updatePackageJson],
    [get] and the loop of [main]) together with a model of the parts of the
    [semver] package the code calls, and the properties of the
    specification stated over them.

    Texts are lists of single-byte characters; the line terminators a
    regular expression's [.] refuses are therefore line feed and carriage
    return. *)

From Stdlib Require Import Ascii String List NArith ZArith Bool Lia.
Import ListNotations.

Local Open Scope char_scope.

(** ** Texts and character classes *)

Definition text := list ascii.

Definition str (s : string) : text := list_ascii_of_string s.

Definition code (c : ascii) : N := N_of_ascii c.

(** [[0-9]] *)
Definition is_digit (c : ascii) : bool :=
  ((48 <=? code c) && (code c <=? 57))%N.

(** [[a-zA-Z]] *)
Definition is_letter (c : ascii) : bool :=
  (((65 <=? code c) && (code c <=? 90)) || ((97 <=? code c) && (code c <=? 122)))%N.

(** [[0-9A-Za-z-]] *)
Definition is_idchar (c : ascii) : bool :=
  is_digit c || is_letter c || Ascii.eqb c "-".

(** White space removed by [String.prototype.trim]. *)
Definition is_space (c : ascii) : bool :=
  (((9 <=? code c) && (code c <=? 13)) || (code c =? 32) || (code c =? 160))%N.

(** The characters [.] does not match. *)
Definition is_line_terminator (c : ascii) : bool :=
  ((code c =? 10) || (code c =? 13))%N.

Fixpoint text_eqb (a b : text) : bool :=
  match a, b with
  | [], [] => true
  | x :: a', y :: b' => Ascii.eqb x y && text_eqb a' b'
  | _, _ => false
  end.

(** The longest prefix whose characters satisfy [p], and the rest. *)
Fixpoint span (p : ascii -> bool) (l : text) : text * text :=
  match l with
  | [] => ([], [])
  | c :: l' =>
      if p c then let (a, b) := span p l' in (c :: a, b) else ([], l)
  end.

(** [String.prototype.split] on a one-character separator. *)
Fixpoint split_on (sep : ascii) (l : text) : list text :=
  match l with
  | [] => [[]]
  | c :: l' =>
      if Ascii.eqb c sep then [] :: split_on sep l'
      else match split_on sep l' with
           | [] => [[c]]
           | p :: ps => (c :: p) :: ps
           end
  end.

(** [Array.prototype.join] on a one-character separator. *)
Fixpoint join (sep : ascii) (ps : list text) : text :=
  match ps with
  | [] => []
  | [p] => p
  | p :: ps' => p ++ sep :: join sep ps'
  end.

(** The text before the first [sep], and the text after it when there is one. *)
Fixpoint cut (sep : ascii) (l : text) : text * option text :=
  match l with
  | [] => ([], None)
  | c :: l' =>
      if Ascii.eqb c sep then ([], Some l')
      else let (a, b) := cut sep l' in (c :: a, b)
  end.

Fixpoint drop_while (p : ascii -> bool) (l : text) : text :=
  match l with
  | [] => []
  | c :: l' => if p c then drop_while p l' else l
  end.

Definition trim (l : text) : text :=
  rev (drop_while is_space (rev (drop_while is_space l))).

(** ** Decimal numbers *)

Definition digit_val (c : ascii) : N := (code c - 48)%N.

Definition digit_char (n : N) : ascii := ascii_of_N (48 + n).

(** The value of a run of digits, most significant first. *)
Definition num_of_digits (l : text) : N :=
  fold_left (fun acc c => (10 * acc + digit_val c)%N) l 0%N.

Fixpoint digits_fuel (fuel : nat) (n : N) : text :=
  match fuel with
  | O => []
  | S f =>
      if (n <? 10)%N then [digit_char n]
      else digits_fuel f (n / 10)%N ++ [digit_char (n mod 10)%N]
  end.

(** [String(n)] for a non-negative integer. *)
Definition to_digits (n : N) : text :=
  digits_fuel (S (N.to_nat (N.log2 n))) n.

(** [0|[1-9]\d*]: a run of digits without a leading zero. *)
Definition is_numeric_identifier (l : text) : bool :=
  match l with
  | [] => false
  | [c] => is_digit c
  | c :: _ => forallb is_digit l && negb (Ascii.eqb c "0")
  end.

(** ** Exceptions

    A JavaScript call either returns a value or throws ([TypeError] is the
    only exception the modelled code raises). *)

Inductive result (A : Type) : Type :=
| Ok (a : A)
| Throw.

Arguments Ok {A} a.
Arguments Throw {A}.

Definition bind {A B : Type} (r : result A) (k : A -> result B) : result B :=
  match r with
  | Ok a => k a
  | Throw => Throw
  end.

Notation "x <- r ;; k" := (bind r (fun x => k))
  (at level 61, r at next level, right associativity).

(** A value that must not be [null]: reading a property of [null] throws. *)
Definition non_null {A : Type} (o : option A) : result A :=
  match o with
  | Some a => Ok a
  | None => Throw
  end.

(** ** The [semver] package

    The functions of the package that [updates.js] calls, after the
    package's sources: [parse] and [valid] (strict mode), the [version] text
    of a parsed version, [compare] with [gt], [lt], [gte], the release type
    of [diff] as computed before the package's 7.5.2 rewrite, and [coerce].
    Build metadata is checked by [parse] and dropped, as no function here
    reads it.  A prerelease identifier made of digits only is kept as an
    exact number whatever its size. *)

Module Semver.

Inductive identifier : Type :=
| Num (n : N)
| Alnum (s : text).

Record SemVer : Type := mkSemVer {
  major : N;
  minor : N;
  patch : N;
  prerelease : list identifier
}.

Inductive ReleaseType : Type :=
| Major | Premajor | Minor | Preminor | Patch | Prepatch | Prerelease.

Definition MAX_LENGTH : nat := 256.
Definition MAX_SAFE_INTEGER : N := 9007199254740991.
Definition MAX_SAFE_COMPONENT_LENGTH : nat := 16.

Definition ReleaseType_eqb (a b : ReleaseType) : bool :=
  match a, b with
  | Major, Major | Premajor, Premajor | Minor, Minor | Preminor, Preminor
  | Patch, Patch | Prepatch, Prepatch | Prerelease, Prerelease => true
  | _, _ => false
  end.

(** [Array.prototype.includes] on a list of release types. *)
Definition includes (l : list ReleaseType) (x : ReleaseType) : bool :=
  existsb (ReleaseType_eqb x) l.

(** *** Parsing *)

(** A component of the main version: [0|[1-9]\d*], at most
    [MAX_SAFE_INTEGER]. *)
Definition parse_numeric (l : text) : option N :=
  if is_numeric_identifier l then
    let n := num_of_digits l in
    if (n <=? MAX_SAFE_INTEGER)%N then Some n else None
  else None.

(** A prerelease identifier: [0|[1-9]\d*|\d*[a-zA-Z-][a-zA-Z0-9-]*]. *)
Definition parse_identifier (l : text) : option identifier :=
  match l with
  | [] => None
  | _ =>
      if forallb is_digit l then
        if is_numeric_identifier l then Some (Num (num_of_digits l)) else None
      else if forallb is_idchar l then Some (Alnum l)
      else None
  end.

Fixpoint parse_identifiers (ps : list text) : option (list identifier) :=
  match ps with
  | [] => Some []
  | p :: ps' =>
      match parse_identifier p, parse_identifiers ps' with
      | Some i, Some is' => Some (i :: is')
      | _, _ => None
      end
  end.

Definition parse_prerelease (pre : option text) : option (list identifier) :=
  match pre with
  | None => Some []
  | Some p => parse_identifiers (split_on "." p)
  end.

(** Build metadata: [[0-9A-Za-z-]+(\.[0-9A-Za-z-]+)*]. *)
Definition valid_build (build : option text) : bool :=
  match build with
  | None => true
  | Some b =>
      forallb (fun p => negb (Nat.eqb (length p) 0) && forallb is_idchar p)
              (split_on "." b)
  end.

(** The optional [v] that may precede a version. *)
Definition strip_v (t : text) : text :=
  match t with
  | c :: t' => if Ascii.eqb c "v" then t' else t
  | [] => t
  end.

(** [semver.parse(version)] for a text: [None] is [null]. *)
Definition parse (version : text) : option SemVer :=
  if (MAX_LENGTH <? length version)%nat then None
  else
    let t := trim version in
    let t := strip_v t in
    let (mp, build) := cut "+" t in
    let (m, pre) := cut "-" mp in
    if valid_build build then
      match split_on "." m with
      | [a; b; c] =>
          match parse_numeric a, parse_numeric b, parse_numeric c,
                parse_prerelease pre with
          | Some ma, Some mi, Some pa, Some ids => Some (mkSemVer ma mi pa ids)
          | _, _, _, _ => None
          end
      | _ => None
      end
    else None.

(** *** Printing: the [version] property *)

Definition format_identifier (i : identifier) : text :=
  match i with
  | Num n => to_digits n
  | Alnum s => s
  end.

Definition main_version (v : SemVer) : text :=
  to_digits (major v) ++ "." :: to_digits (minor v) ++ "." :: to_digits (patch v).

Definition version (v : SemVer) : text :=
  main_version v
  ++ match prerelease v with
     | [] => []
     | ids => "-" :: join "." (map format_identifier ids)
     end.

(** [semver.valid(version)] *)
Definition valid (v : text) : option text :=
  option_map version (parse v).

(** *** Comparison *)

Fixpoint text_compare (a b : text) : comparison :=
  match a, b with
  | [], [] => Eq
  | [], _ :: _ => Lt
  | _ :: _, [] => Gt
  | x :: a', y :: b' =>
      match N.compare (code x) (code y) with
      | Eq => text_compare a' b'
      | c => c
      end
  end.

Definition compareIdentifiers (a b : identifier) : comparison :=
  match a, b with
  | Num x, Num y => N.compare x y
  | Num _, Alnum _ => Lt
  | Alnum _, Num _ => Gt
  | Alnum x, Alnum y => text_compare x y
  end.

Definition compareMain (a b : SemVer) : comparison :=
  match N.compare (major a) (major b) with
  | Eq => match N.compare (minor a) (minor b) with
          | Eq => N.compare (patch a) (patch b)
          | c => c
          end
  | c => c
  end.

Fixpoint comparePreLoop (a b : list identifier) : comparison :=
  match a, b with
  | [], [] => Eq
  | _ :: _, [] => Gt
  | [], _ :: _ => Lt
  | x :: a', y :: b' =>
      match compareIdentifiers x y with
      | Eq => comparePreLoop a' b'
      | c => c
      end
  end.

Definition comparePre (a b : SemVer) : comparison :=
  match prerelease a, prerelease b with
  | _ :: _, [] => Lt
  | [], _ :: _ => Gt
  | [], [] => Eq
  | pa, pb => comparePreLoop pa pb
  end.

Definition compare (a b : SemVer) : comparison :=
  match compareMain a b with
  | Eq => comparePre a b
  | c => c
  end.

Definition is_gt (c : comparison) : bool := match c with Gt => true | _ => false end.
Definition is_lt (c : comparison) : bool := match c with Lt => true | _ => false end.
Definition is_eq (c : comparison) : bool := match c with Eq => true | _ => false end.

(** [semver.diff] on two parsed versions; [None] is a falsy result. *)
Definition diffParsed (v1 v2 : SemVer) : option ReleaseType :=
  if is_eq (compare v1 v2) then None
  else
    let hasPre := match prerelease v1, prerelease v2 with
                  | [], [] => false
                  | _, _ => true
                  end in
    if negb (major v1 =? major v2)%N then Some (if hasPre then Premajor else Major)
    else if negb (minor v1 =? minor v2)%N then Some (if hasPre then Preminor else Minor)
    else if negb (patch v1 =? patch v2)%N then Some (if hasPre then Prepatch else Patch)
    else if hasPre then Some Prerelease else None.

(** The constructor [new SemVer(version)]: throws on [null] and on a text
    that is not a version. *)
Definition construct (version : option text) : result SemVer :=
  match version with
  | None => Throw
  | Some t => non_null (parse t)
  end.

Definition diff (version1 version2 : option text) : result (option ReleaseType) :=
  v1 <- construct version1 ;;
  v2 <- construct version2 ;;
  Ok (diffParsed v1 v2).

Definition gt (a b : option text) : result bool :=
  x <- construct a ;; y <- construct b ;; Ok (is_gt (compare x y)).

Definition lt (a b : option text) : result bool :=
  x <- construct a ;; y <- construct b ;; Ok (is_lt (compare x y)).

Definition gte (a b : option text) : result bool :=
  x <- construct a ;; y <- construct b ;; Ok (negb (is_lt (compare x y))).

(** *** Coercion

    [semver.coerce(version)] searches the text, left to right, for
    [(^|[^\d])(\d{1,16})(?:\.(\d{1,16}))?(?:\.(\d{1,16}))?(?:$|[^\d])]
    and parses the numbers found, a missing one being [0]. *)

(** [\.(\d{1,16})] followed by the end or by a character that is no digit:
    the digits and the rest. *)
Definition coerce_group (l : text) : option (text * text) :=
  match l with
  | c :: l' =>
      if Ascii.eqb c "." then
        let (ds, rest) := span is_digit l' in
        if (1 <=? length ds)%nat && (length ds <=? MAX_SAFE_COMPONENT_LENGTH)%nat
        then Some (ds, rest) else None
      else None
  | [] => None
  end.

(** The two optional groups: the digits of the minor and of the patch
    number, [0] for a group that is missing. *)
Definition coerce_groups (rest : text) : text * text :=
  match coerce_group rest with
  | Some (mi, rest2) =>
      match coerce_group rest2 with
      | Some (pa, _) => (mi, pa)
      | None => (mi, ["0"])
      end
  | None => (["0"], ["0"])
  end.

(** The first run of at most sixteen digits, with what the optional groups
    add. *)
Fixpoint coerce_match (prev_digit : bool) (l : text) : option (text * (text * text)) :=
  match l with
  | [] => None
  | c :: l' =>
      if is_digit c then
        if prev_digit then coerce_match true l'
        else
          let (ds, rest) := span is_digit l in
          if (length ds <=? MAX_SAFE_COMPONENT_LENGTH)%nat
          then Some (ds, coerce_groups rest)
          else coerce_match true l'
      else coerce_match false l'
  end.

Definition coerce (version : text) : option SemVer :=
  match coerce_match false version with
  | Some (ma, (mi, pa)) => parse (ma ++ "." :: mi ++ "." :: pa)
  | None => None
  end.

End Semver.

(** ** Regular expressions of [updates.js]

    A pattern is modelled by a function giving the length of its match at
    the head of a text; none of the patterns looks behind, so a match at a
    position depends on the text from that position only. *)

Section Replace.

Variable matcher : text -> option nat.
Variable replacement : text.

(** [String.prototype.replace] with a global pattern: scan left to right,
    put [replacement] for every match and resume after it.  [skip] counts
    the characters of the current match still to be passed over.  The
    patterns of [updates.js] have no empty match. *)
Fixpoint replace_from (skip : nat) (l : text) : text :=
  match l with
  | [] => []
  | c :: l' =>
      match skip with
      | S k => replace_from k l'
      | O =>
          match matcher l with
          | Some (S k) => replacement ++ replace_from k l'
          | Some O => replacement ++ c :: replace_from 0 l'
          | None => c :: replace_from 0 l'
          end
      end
  end.

Definition replace_all (l : text) : text := replace_from 0 l.

(** [RegExp.prototype.test]: is there a match at some position? *)
Fixpoint regexp_test (l : text) : bool :=
  match matcher l with
  | Some _ => true
  | None => match l with
            | [] => false
            | _ :: l' => regexp_test l'
            end
  end.

End Replace.

(** [[0-9]+] at the head of a text: the number of digits and the rest. *)
Definition match_digits (l : text) : option (nat * text) :=
  let (ds, rest) := span is_digit l in
  match ds with
  | [] => None
  | _ => Some (length ds, rest)
  end.

(** [[0-9]+\.[0-9]+\.[0-9]+] at the head of a text. *)
Definition match_triple (l : text) : option (nat * text) :=
  match match_digits l with
  | Some (n1, "." :: r1) =>
      match match_digits r1 with
      | Some (n2, "." :: r2) =>
          match match_digits r2 with
          | Some (n3, r3) => Some (n1 + 1 + n2 + 1 + n3, r3)
          | None => None
          end
      | _ => None
      end
  | _ => None
  end.

(** [-.+] at the head of a text: a hyphen and the rest of the line, which
    must have a character. *)
Definition match_suffix (l : text) : option nat :=
  match l with
  | "-" :: c :: l' =>
      if is_line_terminator c then None
      else Some (2 + length (fst (span (fun x => negb (is_line_terminator x)) l')))
  | _ => None
  end.

(** [/[0-9]+\.[0-9]+\.[0-9]+(-.+)?/], the pattern of [updateRange] *)
Definition versionRe (l : text) : option nat :=
  match match_triple l with
  | Some (n, rest) =>
      match match_suffix rest with
      | Some k => Some (n + k)
      | None => Some n
      end
  | None => None
  end.

(** [/[0-9]+\.[0-9]+\.[0-9]+-.+/], the pattern of [isRangePrerelease] *)
Definition prereleaseRe (l : text) : option nat :=
  match match_triple l with
  | Some (n, rest) =>
      match match_suffix rest with
      | Some k => Some (n + k)
      | None => None
      end
  | None => None
  end.

(** The patterns [updatePackageJson] builds: characters, and characters
    under [+]. *)
Inductive atom : Type :=
| Char (c : ascii)
| Plus (c : ascii).

(** [new RegExp(source)] for a source made of characters, escaped
    characters and [+] quantifiers. *)
Fixpoint regexp_of (source : text) : list atom :=
  match source with
  | [] => []
  | c :: rest =>
      if Ascii.eqb c "\" then
        match rest with
        | c' :: rest' =>
            match rest' with
            | q :: rest'' =>
                if Ascii.eqb q "+" then Plus c' :: regexp_of rest''
                else Char c' :: regexp_of rest'
            | [] => [Char c']
            end
        | [] => [Char c]
        end
      else
        match rest with
        | q :: rest' =>
            if Ascii.eqb q "+" then Plus c :: regexp_of rest'
            else Char c :: regexp_of rest
        | [] => [Char c]
        end
  end.

(** The match of a pattern at the head of a text; [+] is greedy and gives
    characters back when the rest of the pattern needs them. *)
Fixpoint match_atoms (p : list atom) (l : text) : option nat :=
  match p with
  | [] => Some O
  | Char c :: p' =>
      match l with
      | x :: l' => if Ascii.eqb x c then option_map S (match_atoms p' l') else None
      | [] => None
      end
  | Plus c :: p' =>
      (fix more (l : text) : option nat :=
         match l with
         | x :: l' =>
             if Ascii.eqb x c then
               match more l' with
               | Some n => Some (S n)
               | None => option_map S (match_atoms p' l')
               end
             else None
         | [] => None
         end) l
  end.

(** ** [updates.js]: data *)

(** The result of [parseMixedArg]: [true], [false] or a list of package
    names. *)
Inductive mixedArg : Type :=
| Flag (b : bool)
| Names (l : list text).

(** [typeof arg === "boolean" ? arg : arg.includes(name)] and
    [arg === true || Array.isArray(arg) && arg.includes(name)], which agree
    on every result of [parseMixedArg]. *)
Definition applies (arg : mixedArg) (name : text) : bool :=
  match arg with
  | Flag b => b
  | Names l => existsb (text_eqb name) l
  end.

(** The registry's answer for one package, as far as the code reads it:
    [data.name], the keys of [data.versions] in the order of [Object.keys],
    [data.time] when the registry has it, with the time in milliseconds of
    every entry that [new Date] reads as a date, [data["dist-tags"].latest]
    and [data.error]. *)
Record data : Type := mkData {
  name : text;
  versions : list text;
  time : option (list (text * Z));
  latest : option text;
  error : option text
}.

(** The options [main] hands to [findNewVersion]. *)
Record opts : Type := mkOpts {
  usePre : bool;
  useRel : bool;
  useGreatest : bool;
  semvers : list Semver.ReleaseType;
  range : text
}.

(** An entry of [deps]: the old range and, once resolved, the new one.  The
    fields [info] and [age], which [main] fills for the report only, are
    left out. *)
Record dep : Type := mkDep {
  old : text;
  new : option text
}.

(** The keys of [deps] are a dependency type and a name joined by a NUL
    character; they are kept as pairs. *)
Definition key : Type := (text * text)%type.

Definition key_eqb (a b : key) : bool :=
  text_eqb (fst a) (fst b) && text_eqb (snd a) (snd b).

(** An object with keys in insertion order. *)
Definition deps : Type := list (key * dep).

Fixpoint lookup (k : key) (d : deps) : option dep :=
  match d with
  | [] => None
  | (k', v) :: d' => if key_eqb k k' then Some v else lookup k d'
  end.

(** [delete deps[key]] *)
Fixpoint delete (k : key) (d : deps) : deps :=
  match d with
  | [] => []
  | (k', v) :: d' => if key_eqb k k' then delete k d' else (k', v) :: delete k d'
  end.

(** [deps[key].new = newRange] on an entry that exists *)
Fixpoint set_new (k : key) (newRange : text) (d : deps) : deps :=
  match d with
  | [] => []
  | (k', v) :: d' =>
      if key_eqb k k' then (k', mkDep (old v) (Some newRange)) :: d'
      else (k', v) :: set_new k newRange d'
  end.

(** [String(v)] for a text or [null], and a text or [undefined] inside a
    template. *)
Definition string_of_null (v : option text) : text :=
  match v with Some t => t | None => str "null" end.


(** ** [updates.js]: functions *)

(** [esc]: a backslash before every character of [[|\\{}()[\]^$+*?.-]] *)
Definition is_special (c : ascii) : bool :=
  existsb (Ascii.eqb c) (str "|\{}()[]^$+*?.-").

Fixpoint esc (s : text) : text :=
  match s with
  | [] => []
  | c :: s' => if is_special c then "\" :: c :: esc s' else c :: esc s'
  end.

(** The double quote. *)
Definition dquote : ascii := ascii_of_nat 34.

(** The source of the pattern, the pattern and the replacement of
    [updatePackageJson] for one entry of [deps].  Names and ranges are taken
    without [$]: the replacement is put as it stands. *)
Definition dep_source (nm oldRange : text) : text :=
  dquote :: esc nm ++ dquote :: ":" :: " " :: "+" :: dquote :: esc oldRange ++ [dquote].

Definition dep_pattern (nm oldRange : text) : list atom :=
  regexp_of (dep_source nm oldRange).




(** [updateRange]: [version] is a version text, [*] or [null]; none holds a
    [$], so the replacement is put as it stands. *)
Definition updateRange (range : text) (version : option text) : text :=
  replace_all versionRe (string_of_null version) range.

Definition isVersionPrerelease (version : option text) : bool :=
  match version with
  | None => false
  | Some t =>
      match Semver.parse t with
      | None => false
      | Some parsed => negb (Nat.eqb (length (Semver.prerelease parsed)) 0)
      end
  end.

Definition isRangePrerelease (range : text) : bool :=
  regexp_test prereleaseRe range.

(** [semver.coerce(range).version], or [null] when reading [version] of
    [null] throws. *)
Definition rangeToVersion (range : text) : option text :=
  match Semver.coerce range with
  | Some v => Some (Semver.version v)
  | None => None
  end.

(** [new Date(data.time[version]).getTime()]: [None] is [NaN]. *)
Fixpoint time_of (t : list (text * Z)) (version : text) : option Z :=
  match t with
  | [] => None
  | (k, d) :: t' => if text_eqb version k then Some d else time_of t' version
  end.

(** The array [semvers] of [findVersion] once the prerelease types are
    pushed. *)
Definition accepted (semvers : list Semver.ReleaseType) (usePre : bool)
  : list Semver.ReleaseType :=
  if usePre then
    let s1 := semvers ++ [Semver.Prerelease] in
    let s2 := if Semver.includes s1 Semver.Patch then s1 ++ [Semver.Prepatch] else s1 in
    let s3 := if Semver.includes s2 Semver.Minor then s2 ++ [Semver.Preminor] else s2 in
    if Semver.includes s3 Semver.Major then s3 ++ [Semver.Premajor] else s3
  else semvers.

(** One round of the loop of [findVersion] on the pair of [tempVersion] and
    [tempDate]. *)
Definition findVersion_step (d : data) (o : opts) (usePre : bool)
    (semvers : list Semver.ReleaseType) (st : option text * Z) (version : text)
  : result (option text * Z) :=
  let (tempVersion, tempDate) := st in
  parsed <- non_null (Semver.parse version) ;;
  if negb (Nat.eqb (length (Semver.prerelease parsed)) 0)
     && (negb usePre || useRel o)
  then Ok st
  else
    diff <- Semver.diff tempVersion (Some (Semver.version parsed)) ;;
    match diff with
    | None => Ok st
    | Some c =>
        if negb (Semver.includes semvers c) then Ok st
        else
          match useGreatest o, time d with
          | false, Some t =>
              match time_of t version with
              | Some date =>
                  if (0 <=? date)%Z && (tempDate <? date)%Z
                  then Ok (Some (Semver.version parsed), date)
                  else Ok st
              | None => Ok st
              end
          | _, _ =>
              coerced <- non_null (Semver.coerce (Semver.version parsed)) ;;
              ge <- Semver.gte (Some (Semver.version coerced)) tempVersion ;;
              if ge then Ok (Some (Semver.version parsed), tempDate) else Ok st
          end
    end.

Fixpoint findVersion_loop (d : data) (o : opts) (usePre : bool)
    (semvers : list Semver.ReleaseType) (versions : list text)
    (st : option text * Z) : result (option text * Z) :=
  match versions with
  | [] => Ok st
  | version :: rest =>
      st' <- findVersion_step d o usePre semvers st version ;;
      findVersion_loop d o usePre semvers rest st'
  end.

(** [x || null] for a text or [null] *)
Definition or_null (x : option text) : option text :=
  match x with
  | Some [] => None
  | _ => x
  end.

Definition findVersion (d : data) (versions : list text) (o : opts)
  : result (option text) :=
  let tempVersion := rangeToVersion (range o) in
  let tempDate := 0%Z in
  let usePre := isRangePrerelease (range o) || usePre o in
  let semvers := accepted (semvers o) usePre in
  st <- findVersion_loop d o usePre semvers versions (tempVersion, tempDate) ;;
  Ok (or_null (fst st)).

(** [diff] with a leading [pre] removed: [None] stands for the text [release], which
    is no release type. *)
Definition strip_pre (c : Semver.ReleaseType) : option Semver.ReleaseType :=
  match c with
  | Semver.Premajor => Some Semver.Major
  | Semver.Preminor => Some Semver.Minor
  | Semver.Prepatch => Some Semver.Patch
  | Semver.Prerelease => None
  | c => Some c
  end.

Definition includes_stripped (l : list Semver.ReleaseType) (c : Semver.ReleaseType) : bool :=
  match strip_pre c with
  | Some c' => Semver.includes l c'
  | None => false
  end.

Definition is_some {A : Type} (o : option A) : bool :=
  match o with Some _ => true | None => false end.

(** [findNewVersion]; the global [allowDowngrade] is a parameter.  [None]
    is [null]. *)
Definition findNewVersion (allowDowngrade : mixedArg) (d : data) (o : opts)
  : result (option text) :=
  if text_eqb (range o) (str "*") then Ok (Some (str "*"))
  else
    let versions := filter (fun v => is_some (Semver.valid v)) (versions d) in
    version <- findVersion d versions o ;;
    if useGreatest o then Ok version
    else
      let latestTag := latest d in
      coerced <- non_null (Semver.coerce (range o)) ;;
      let oldVersion := Semver.version coerced in
      let oldIsPre := isRangePrerelease (range o) in
      let newIsPre := isVersionPrerelease version in
      let latestIsPre := isVersionPrerelease latestTag in
      isGreater <- Semver.gt version (Some oldVersion) ;;
      (* update to new prerelease *)
      if (negb (useRel o) && usePre o) || (oldIsPre && newIsPre) then Ok version
      (* downgrade from prerelease to release on --release-only *)
      else if useRel o && negb isGreater && oldIsPre && negb newIsPre then Ok version
      (* update from prerelease to release *)
      else if oldIsPre && negb newIsPre && isGreater then Ok version
      (* do not downgrade from prerelease to release *)
      else if oldIsPre && negb newIsPre && negb isGreater then Ok None
      else
        (* check if latestTag is allowed by semvers *)
        diff <- Semver.diff (Some oldVersion) latestTag ;;
        if match diff with
           | Some c => negb (Semver.ReleaseType_eqb c Semver.Prerelease)
                       && negb (includes_stripped (semvers o) c)
           | None => false
           end
        then Ok version
        (* prevent upgrading to prerelease with --release-only *)
        else if useRel o && isVersionPrerelease latestTag then Ok version
        else
          (* prevent downgrade to older version except with --allow-downgrade *)
          isLower <- Semver.lt latestTag (Some oldVersion) ;;
          if isLower && negb latestIsPre then
            if applies allowDowngrade (name d) then Ok latestTag else Ok None
          (* in all other cases, return latest dist-tag *)
          else Ok latestTag.

(** ** [updates.js]: fetching and the loop of [main] *)

(** What [fetch] settles to: a response, of which the code reads [ok],
    [status && statusText] and the body, or a rejection. *)
Record response : Type := mkResponse {
  ok : bool;
  status : bool;
  json : data
}.

Inductive fetched : Type :=
| Resolves (res : response)
| Rejects.

(** The command line, after [parseMixedArg]. *)
Record flags : Type := mkFlags {
  greatest : mixedArg;
  prerelease : mixedArg;
  release : mixedArg;
  patch : mixedArg;
  minor : mixedArg;
  allowDowngrade : mixedArg
}.

Definition defaultRegistry : text := str "https://registry.npmjs.org".

(** [!v] for a text or [null] *)
Definition falsy (v : option text) : bool :=
  match v with
  | None | Some [] => true
  | Some _ => false
  end.


(** The array [semvers] that [main] builds for a package. *)
Definition policy_semvers (args : flags) (nm : text) : list Semver.ReleaseType :=
  if applies (patch args) nm then [Semver.Patch]
  else if applies (minor args) nm then [Semver.Patch; Semver.Minor]
  else [Semver.Patch; Semver.Minor; Semver.Major].

Section Run.

(** The network and the registry configuration: what [fetchFromRegistry]
    settles to for a package name and a registry, and the registry
    [getAuthAndRegistry] selects for a package name. *)
Variable fetchFromRegistry : text -> text -> fetched.
Variable getAuthAndRegistry : text -> text -> text.
Variable args : flags.

(** [get]: [Ok None] is a promise fulfilled with [undefined]. *)
Definition get (nm type originalRegistry : text)
  : result (option (data * text * text)) :=
  let registry := getAuthAndRegistry nm originalRegistry in
  let retry :=
    (* retry on default registry if custom registry fails *)
    if negb (text_eqb registry defaultRegistry) then
      match fetchFromRegistry nm defaultRegistry with
      | Rejects => Throw
      | Resolves res =>
          if ok res then Ok (Some (json res, type, registry))
          else if status res then Throw
          else Ok None
      end
    else Ok None in
  match fetchFromRegistry nm registry with
  | Rejects =>
      if text_eqb registry defaultRegistry then Throw else retry
  | Resolves res =>
      if ok res then Ok (Some (json res, type, registry))
      else if status res && text_eqb registry defaultRegistry then Throw
      else retry
  end.

(** The body of the loop of [main] over [dati]. *)
Definition main_step (d : deps) (entry : option (data * text * text))
  : result deps :=
  match entry with
  | None => Throw
  | Some (dt, type, _registry) =>
      if negb (falsy (error dt)) then Throw
      else
        let useGreatest := applies (greatest args) (name dt) in
        let usePre := applies (prerelease args) (name dt) in
        let useRel := applies (release args) (name dt) in
        let semvers := policy_semvers args (name dt) in
        let k := (type, name dt) in
        e <- non_null (lookup k d) ;;
        let oldRange := old e in
        newVersion <- findNewVersion (allowDowngrade args) dt
                        (mkOpts usePre useRel useGreatest semvers oldRange) ;;
        let newRange := updateRange oldRange newVersion in
        if falsy newVersion || text_eqb oldRange newRange
        then Ok (delete k d)
        else Ok (set_new k newRange d)
  end.

Fixpoint main_loop (dati : list (option (data * text * text))) (d : deps)
  : result deps :=
  match dati with
  | [] => Ok d
  | entry :: rest => d' <- main_step d entry ;; main_loop rest d'
  end.


End Run.

(** * Vocabulary of the properties *)

(** [l] has no character [sep]. *)
Definition lacks (sep : ascii) (l : text) : Prop :=
  Forall (fun c => Ascii.eqb c sep = false) l.

Ltac ascii_cases c :=
  destruct c as [[] [] [] [] [] [] [] []]; vm_compute; intros;
  try reflexivity; try discriminate.

(** The identifiers and versions that [Semver.parse] returns. *)
Definition wf_identifier (i : Semver.identifier) : Prop :=
  match i with
  | Semver.Num _ => True
  | Semver.Alnum s => forallb is_idchar s = true /\ forallb is_digit s = false
  end.

Definition wf (v : Semver.SemVer) : Prop :=
  (Semver.major v <= Semver.MAX_SAFE_INTEGER)%N
  /\ (Semver.minor v <= Semver.MAX_SAFE_INTEGER)%N
  /\ (Semver.patch v <= Semver.MAX_SAFE_INTEGER)%N
  /\ Forall wf_identifier (Semver.prerelease v)
  /\ (length (Semver.version v) <= Semver.MAX_LENGTH)%nat.

(** The version without its prerelease identifiers. *)
Definition release_of (v : Semver.SemVer) : Semver.SemVer :=
  Semver.mkSemVer (Semver.major v) (Semver.minor v) (Semver.patch v) [].

(** The characters of a printed version: identifier characters and dots. *)
Definition version_char (c : ascii) : bool := is_idchar c || Ascii.eqb c ".".

(** A text that starts with no digit: what may follow a run of digits. *)
Definition stops_digits (r : text) : Prop :=
  match r with [] => True | c :: _ => is_digit c = false end.

(** ** The loop of [findVersion] on parsed versions

    [findVersion] keeps its candidate as the text of a version and parses
    it again at every use.  The same loop on the parsed candidate is what
    the properties are proved on, once the two are shown to agree. *)

Definition has_prerelease (v : Semver.SemVer) : bool :=
  negb (Nat.eqb (length (Semver.prerelease v)) 0).

Definition step_parsed (d : data) (o : opts) (usePre : bool)
    (semvers : list Semver.ReleaseType) (st : Semver.SemVer * Z)
    (version : text) (parsed : Semver.SemVer) : Semver.SemVer * Z :=
  let (temp, tempDate) := st in
  if has_prerelease parsed && (negb usePre || useRel o) then st
  else
    match Semver.diffParsed temp parsed with
    | None => st
    | Some c =>
        if negb (Semver.includes semvers c) then st
        else
          match useGreatest o, time d with
          | false, Some t =>
              match time_of t version with
              | Some date =>
                  if (0 <=? date)%Z && (tempDate <? date)%Z
                  then (parsed, date) else st
              | None => st
              end
          | _, _ =>
              if negb (Semver.is_lt (Semver.compare (release_of parsed) temp))
              then (parsed, tempDate) else st
          end
    end.

Fixpoint loop_parsed (d : data) (o : opts) (usePre : bool)
    (semvers : list Semver.ReleaseType) (versions : list text)
    (st : Semver.SemVer * Z) : Semver.SemVer * Z :=
  match versions with
  | [] => st
  | version :: rest =>
      match Semver.parse version with
      | Some parsed =>
          loop_parsed d o usePre semvers rest
            (step_parsed d o usePre semvers st version parsed)
      | None => st
      end
  end.

(** The candidate of [findVersion] for a range that coerces to [base]. *)
Definition candidate (d : data) (o : opts) (versions : list text)
    (base : Semver.SemVer) : Semver.SemVer :=
  let usePre := isRangePrerelease (range o) || usePre o in
  fst (loop_parsed d o usePre (accepted (semvers o) usePre) versions (base, 0%Z)).

(** The texts that are versions. *)
Definition parses (version : text) : Prop := Semver.parse version <> None.

(** The state of the loop of [findVersion] that stands for a parsed state. *)
Definition repr (st : Semver.SemVer * Z) : option text * Z :=
  (Some (Semver.version (fst st)), snd st).

(** ** Diff classes and ceilings *)

(** The arrays [semvers] that [main] builds. *)
Definition ceilings : list (list Semver.ReleaseType) :=
  [[Semver.Patch]; [Semver.Patch; Semver.Minor];
   [Semver.Patch; Semver.Minor; Semver.Major]].

(** Two versions agree on the numbers above the ceiling. *)
Definition within (semvers : list Semver.ReleaseType) (a b : Semver.SemVer) : bool :=
  (Semver.includes semvers Semver.Major || (Semver.major a =? Semver.major b)%N)
  && (Semver.includes semvers Semver.Minor || (Semver.minor a =? Semver.minor b)%N).

(** The diff class from [a] to [b] is one of the accepted classes. *)
Definition class_accepted (semvers : list Semver.ReleaseType) (usePre : bool)
    (a b : Semver.SemVer) : bool :=
  match Semver.diffParsed a b with
  | Some c => Semver.includes (accepted semvers usePre) c
  | None => false
  end.

(** What the loop of [findVersion] keeps true of its candidate. *)
Definition candidate_inv (semvers : list Semver.ReleaseType) (usePre : bool)
    (base temp : Semver.SemVer) : Prop :=
  within semvers base temp = true
  /\ (usePre = false -> has_prerelease temp = false).

(** The set of accepted diff classes of [findVersion] for given options,
    and the diff class from the coerced range to a version. *)
Definition accepted_set (o : opts) : list Semver.ReleaseType :=
  accepted (semvers o) (isRangePrerelease (range o) || usePre o).

Definition diff_class (o : opts) (v : text) : result (option Semver.ReleaseType) :=
  Semver.diff (rangeToVersion (range o)) (Some v).

(** Case analysis on the condition of a conditional of the goal, or of a
    hypothesis. *)
Ltac case_if :=
  match goal with
  | |- context [if ?b then _ else _] => destruct b eqn:?
  end.

Ltac case_if_in H :=
  match type of H with
  | context [if ?b then _ else _] => destruct b eqn:?
  end.

(** ** The reconciliation of [findNewVersion] on parsed versions

    What [findNewVersion] does, outside greatest mode, once the range is
    coerced to [base] and [findVersion] has returned the candidate. *)
Definition reconcile (allowDowngrade : mixedArg) (d : data) (o : opts)
    (base cand : Semver.SemVer) : result (option text) :=
  let version := Some (Semver.version cand) in
  let oldIsPre := isRangePrerelease (range o) in
  let newIsPre := has_prerelease cand in
  let isGreater := Semver.is_gt (Semver.compare cand base) in
  if (negb (useRel o) && usePre o) || (oldIsPre && newIsPre) then Ok version
  else if useRel o && negb isGreater && oldIsPre && negb newIsPre then Ok version
  else if oldIsPre && negb newIsPre && isGreater then Ok version
  else if oldIsPre && negb newIsPre && negb isGreater then Ok None
  else
    match latest d with
    | None => Throw
    | Some tag =>
        match Semver.parse tag with
        | None => Throw
        | Some tv =>
            if match Semver.diffParsed base tv with
               | Some c => negb (Semver.ReleaseType_eqb c Semver.Prerelease)
                           && negb (includes_stripped (semvers o) c)
               | None => false
               end
            then Ok version
            else if useRel o && has_prerelease tv then Ok version
            else if Semver.is_lt (Semver.compare tv base) && negb (has_prerelease tv)
                 then if applies allowDowngrade (name d) then Ok (Some tag) else Ok None
            else Ok (Some tag)
        end
    end.

(** The versions [findNewVersion] scans. *)
Definition valid_versions (d : data) : list text :=
  filter (fun v => is_some (Semver.valid v)) (versions d).

(** ** Statements about the class of a result *)

(** The class from the coerced range to [v] is one of the accepted set. *)
Definition class_in_accepted_set (o : opts) (v : text) : Prop :=
  exists c, diff_class o v = Ok (Some c)
            /\ Semver.includes (accepted_set o) c = true.

(** The class from the coerced range to [v] is none, or one of the
    accepted set. *)
Definition class_none_or_accepted (o : opts) (v : text) : Prop :=
  exists r, diff_class o v = Ok r
            /\ match r with
               | None => True
               | Some c => Semver.includes (accepted_set o) c = true
               end.

(** The class from the coerced range to the dist-tag [v] is none, bare
    [prerelease], or within the ceiling once its [pre] is dropped. *)
Definition tag_class_allowed (o : opts) (v : text) : Prop :=
  exists r, diff_class o v = Ok r
            /\ match r with
               | None => True
               | Some c => c = Semver.Prerelease
                           \/ includes_stripped (semvers o) c = true
               end.

(** Inputs of the examples. *)
Definition all_classes : list Semver.ReleaseType :=
  [Semver.Patch; Semver.Minor; Semver.Major].

Definition up_to_date : data :=
  mkData (str "pkg") [str "1.0.0"] None (Some (str "1.0.0")) None.

Definition greatest_opts (r : string) : opts :=
  mkOpts false false true all_classes (str r).

Definition default_opts (r : string) : opts :=
  mkOpts false false false all_classes (str r).

(** [svgstore] as the registry of the tests describes it: the prerelease
    [3.0.0-2] is tagged [latest], the newest release is [2.0.3]. *)
Definition svgstore : data :=
  mkData (str "svgstore") [str "2.0.3"; str "3.0.0-2"]
    (Some [(str "2.0.3", 1000%Z); (str "3.0.0-2", 2000%Z)])
    (Some (str "3.0.0-2")) None.

(** A package whose [latest] tag is the older of two prereleases. *)
Definition prerelease_track : data :=
  mkData (str "pkg") [str "1.0.0-beta"; str "1.0.0-rc"]
    (Some [(str "1.0.0-beta", 2000%Z); (str "1.0.0-rc", 1000%Z)])
    (Some (str "1.0.0-rc")) None.


(** ** Greatest mode *)

(** [opts.useGreatest || !("time" in data)] *)
Definition greatest_mode (d : data) (o : opts) : bool :=
  useGreatest o || negb (is_some (time d)).

(** A catalog version qualifies for a base: it passes the prerelease filter
    of [findVersion] and its diff class from the base is accepted. *)
Definition qualifies (o : opts) (base v : Semver.SemVer) : bool :=
  let usePre := isRangePrerelease (range o) || usePre o in
  negb (has_prerelease v && (negb usePre || useRel o))
  && class_accepted (semvers o) usePre base v.

(** [a] is not above [b] by major, minor and patch numbers. *)
Definition main_le (a b : Semver.SemVer) : Prop :=
  Semver.is_gt (Semver.compareMain a b) = false.

(** [a] is not above [b] in the order of [semver.compare]. *)
Definition version_le (a b : Semver.SemVer) : Prop :=
  Semver.is_gt (Semver.compare a b) = false.

(** What the loop of [findVersion] keeps true in greatest mode, of the
    versions [seen] so far and the candidate [temp]. *)
Definition greatest_inv (o : opts) (base : Semver.SemVer) (seen : list text)
    (temp : Semver.SemVer) : Prop :=
  let usePre := isRangePrerelease (range o) || usePre o in
  candidate_inv (semvers o) usePre base temp
  /\ main_le base temp
  /\ (temp = base
      \/ exists x, In x seen /\ Semver.parse x = Some temp
                   /\ has_prerelease temp && (negb usePre || useRel o) = false)
  /\ (forall x v, In x seen -> Semver.parse x = Some v ->
        qualifies o base v = true -> main_le v temp).

(** A package with a release and a prerelease of the same numbers, the
    prerelease listed last. *)
Definition release_then_prerelease : data :=
  mkData (str "pkg") [str "1.0.1"; str "1.0.1-beta"] None (Some (str "1.0.1")) None.

Definition three_releases : data :=
  mkData (str "pkg") [str "1.0.1"; str "1.2.0"; str "1.1.0"] None
    (Some (str "1.2.0")) None.

(** ** Replacement *)

(** No match of the pattern begins inside [pre] when [rest] follows it. *)
Definition no_earlier_match (matcher : text -> option nat) (pre rest : text) : Prop :=
  forall p1 p2, pre = p1 ++ p2 -> p2 <> [] -> matcher (p2 ++ rest) = None.

(** Three runs of digits joined by dots. *)
Definition triple (d1 d2 d3 : text) : text := d1 ++ "." :: d2 ++ "." :: d3.

Definition digits (l : text) : Prop := l <> [] /\ forallb is_digit l = true.

(** A text that does not start with a hyphen and one more character of the
    same line: no prerelease suffix for [updateRange]. *)
Definition no_suffix (l : text) : Prop := match_suffix l = None.

(** The end of a line: the end of the text or a line terminator. *)
Definition line_end (l : text) : Prop :=
  match l with [] => True | c :: _ => is_line_terminator c = true end.


(** An occurrence of a dependency in the manifest: the quoted name, a
    colon, [n] spaces and the quoted range. *)
Definition occurrence (nm oldRange : text) (n : nat) : text :=
  (dquote :: nm ++ [dquote; ":"]) ++ repeat " " n ++ (dquote :: oldRange ++ [dquote]).







(** A source whose head is not the quantifier [+]. *)
Definition not_quantified (l : text) : Prop :=
  match l with [] => True | c :: _ => Ascii.eqb c "+" = false end.

(** ** Fetch failures *)




(** A network on which the fetch for [a] is rejected and the one for [b] is
    answered; the registry is the one given. *)
Definition b_data : data :=
  mkData (str "b") [str "1.0.0"; str "1.2.0"]
    (Some [(str "1.0.0", 1000%Z); (str "1.2.0", 2000%Z)])
    (Some (str "1.2.0")) None.




(** A custom registry that is down, while the default registry answers. *)
Definition custom_registry : text := str "https://npm.example.org".

Definition custom_down (nm registry : text) : fetched :=
  if text_eqb registry defaultRegistry
  then Resolves (mkResponse true true b_data)
  else Rejects.

(** ** Resolving twice *)




(** [html-webpack-plugin] as the tests describe it: [3.2.0] is the newest
    release, the prereleases of [4.0.0] were published after it. *)
Definition html_webpack_plugin : data :=
  mkData (str "html-webpack-plugin")
    [str "3.2.0"; str "4.0.0-alpha.2"; str "4.0.0-beta.11"]
    (Some [(str "3.2.0", 1000%Z); (str "4.0.0-alpha.2", 2000%Z);
           (str "4.0.0-beta.11", 3000%Z)])
    (Some (str "3.2.0")) None.

(** [gulp-sourcemaps]: a patch and later minor releases of [2.0.0]. *)
Definition gulp_sourcemaps : data :=
  mkData (str "gulp-sourcemaps") [str "2.0.0"; str "2.0.1"; str "2.6.5"]
    (Some [(str "2.0.0", 1000%Z); (str "2.0.1", 2000%Z); (str "2.6.5", 3000%Z)])
    (Some (str "2.6.5")) None.


(** * Further functions of [updates.js] *)

(** ** The options of the command line *)

(** An option as [minimist] gives it: a text, an array of texts when the
    option is given more than once, or something else ([undefined] when it
    is not given). *)
Inductive argValue : Type :=
| ArgText (s : text)
| ArgArray (l : list text)
| ArgOther.

(** [String.prototype.includes] for one character *)
Definition has_char (c : ascii) (s : text) : bool := existsb (Ascii.eqb c) s.

Definition parseMixedArg (arg : argValue) : mixedArg :=
  match arg with
  | ArgText [] => Flag true
  | ArgText s => Names (if has_char "," s then split_on "," s else [s])
  | ArgArray l => Names l
  | ArgOther => Flag false
  end.

(** ** Registries *)

(** [String.prototype.startsWith] and [endsWith] *)
Definition startsWith (p s : text) : bool := text_eqb (firstn (length p) s) p.

Definition endsWith (p s : text) : bool :=
  text_eqb (skipn (length s - length p) s) p.

(** The function that [normalizeRegistryUrl] memoizes.  [memoize] keeps
    the results by argument in an object and returns what the object holds
    when that is truthy; for a function without effects the result is the
    function's, the names of the properties of [Object.prototype] apart. *)
Definition normalizeRegistryUrl (url : text) : text :=
  if endsWith (str "/") url then firstn (length url - 1) url else url.

(** [\w], [[\w-.]], [[a-z0-9]] and, under the flag [i], [[a-z0-9]] *)
Definition is_word (c : ascii) : bool :=
  is_digit c || is_letter c || Ascii.eqb c "_".

Definition is_name_char (c : ascii) : bool :=
  is_word c || Ascii.eqb c "-" || Ascii.eqb c ".".

Definition is_lower_alnum (c : ascii) : bool :=
  is_digit c || ((97 <=? code c) && (code c <=? 122))%N.

Definition is_alnum (c : ascii) : bool := is_digit c || is_letter c.

(** [/@[a-z0-9][\w-.]+/], the pattern of the scope, at the head of a
    text *)
Definition scopeRe (l : text) : option nat :=
  match l with
  | a :: c :: l1 =>
      if Ascii.eqb a "@" && is_lower_alnum c then
        match fst (span is_name_char l1) with
        | [] => None
        | run => Some (2 + length run)
        end
      else None
  | _ => None
  end.

(** [/@[a-z0-9][\w-.]+\/[a-z0-9][\w-.]*/gi], the pattern of a scoped name,
    at the head of a text.  A slash is no character of the first run, so
    the run is taken whole. *)
Definition scopedRe (l : text) : option nat :=
  match l with
  | a :: c :: l1 =>
      if Ascii.eqb a "@" && is_alnum c then
        let (run, rest) := span is_name_char l1 in
        match run, rest with
        | _ :: _, s :: c2 :: rest2 =>
            if Ascii.eqb s "/" && is_alnum c2
            then Some (2 + length run + 2 + length (fst (span is_name_char rest2)))
            else None
        | _, _ => None
        end
      else None
  | _ => None
  end.

(** [/\//g] *)
Definition slashRe (l : text) : option nat :=
  match l with
  | c :: _ => if Ascii.eqb c "/" then Some 1 else None
  | [] => None
  end.

(** [RegExp.prototype.exec] without the flag [g]: the text of the first
    match. *)
Fixpoint exec (matcher : text -> option nat) (l : text) : option text :=
  match matcher l with
  | Some k => Some (firstn k l)
  | None => match l with
            | [] => None
            | _ :: l' => exec matcher l'
            end
  end.

(** [fetchFromRegistry]: the name as the request has it, and the address
    of the request. *)
Definition fetchFromRegistry_name (nm : text) : text :=
  (* on scoped packages replace "/" with "%2f" *)
  if regexp_test scopedRe nm then replace_all slashRe (str "%2f") nm else nm.

Definition fetchFromRegistry_url (nm registry : text) : text :=
  registry ++ "/" :: fetchFromRegistry_name nm.

(** What [registry-auth-token] returns when it finds something: of the
    object, the code reads [token] for its truth and [type]. *)
Record auth : Type := mkAuth {
  token : option text;
  auth_type : text
}.

(** [newAuth && newAuth.token] *)
Definition has_token (a : option auth) : bool :=
  match a with
  | Some a' => negb (falsy (token a'))
  | None => false
  end.

Section Registry.

(** The configuration of npm: the token [registry-auth-token] finds for a
    registry, if any, or the exception it throws, and the registry
    [registry-url] gives for a scope ([None] is [undefined]). *)
Variable registryAuthToken : text -> result (option auth).
Variable registryUrl : option text -> text.

(** [getAuthAndRegistry]: [Ok None] is [undefined], the value of a call
    that ends without [return]. *)
Definition getAuthAndRegistry (nm registry : text)
  : result (option (option auth * text)) :=
  if negb (startsWith (str "@") nm) then
    a <- registryAuthToken registry ;; Ok (Some (a, registry))
  else
    let scope := exec scopeRe nm in
    let url := normalizeRegistryUrl (registryUrl scope) in
    if negb (text_eqb url registry) then
      match registryAuthToken url with
      | Ok newAuth =>
          if has_token newAuth then Ok (Some (newAuth, url)) else Ok None
      | Throw =>
          a <- registryAuthToken registry ;; Ok (Some (a, registry))
      end
    else
      a <- registryAuthToken registry ;; Ok (Some (a, registry)).

End Registry.

(** ** The manifest file *)

Section Files.

(** The file system: [path.join], [path.dirname], and whether
    [fs.accessSync] returns for a path. *)
Variable join_path : text -> text -> text.
Variable dirname : text -> text.
Variable accessSync : text -> bool.

(** [findSync].  Where the file is not found and the search is not over,
    the code calls [find], a name that nothing declares: the call throws a
    [ReferenceError]. *)
Definition findSync (filename dir : text) (stopDir : option text)
  : result (option text) :=
  let path := join_path dir filename in
  if accessSync path then Ok (Some path)
  else
    let parent := dirname dir in
    let stop := match stopDir with
                | Some s => negb (falsy stopDir) && text_eqb path s
                | None => false
                end in
    if stop || text_eqb parent dir then Ok None else Throw.

End Files.

(** ** The table of the results *)

(** [/^[0-9a-zA-Z-.]+$/] *)
Definition versionPartRe (s : text) : bool :=
  match s with
  | [] => false
  | _ => forallb version_char s
  end.

Section Highlight.

(** [chalk[added ? "green" : "red"]]: what it puts around a text is left
    open. *)
Variable color : text -> text.

(** The loop of [highlightDiff] on the parts of [a] from the index [i] on
    and the parts of [b] from the same index on, which are none when [b]
    has fewer parts. *)
Fixpoint highlightDiff_loop (aParts bParts : list text) (res : text) : text :=
  match aParts with
  | [] => res
  | a :: aRest =>
      let same := match bParts with
                  | b :: _ => text_eqb a b
                  | [] => false
                  end in
      if negb same then
        if versionPartRe a then res ++ color (join "." aParts)
        else res ++ flat_map (fun char => if versionPartRe [char] then color [char]
                                          else [char]) a
                 ++ color ("." :: join "." aRest)
      else highlightDiff_loop aRest (tl bParts) (res ++ a ++ ["."])
  end.

Definition highlightDiff (a b : text) : text :=
  highlightDiff_loop (split_on "." a) (split_on "." b) [].

End Highlight.

(** ** Dependencies given by an address *)

(** A letter of [A-Z] as the letter of [a-z], other characters as they
    are: how a pattern under the flag [i] compares characters. *)
Definition lower (c : ascii) : ascii :=
  if ((65 <=? code c) && (code c <=? 90))%N then ascii_of_N (code c + 32) else c.

(** [[0-9a-f]] under the flag [i] *)
Definition is_hex (c : ascii) : bool :=
  is_digit c || ((97 <=? code (lower c)) && (code (lower c) <=? 102))%N.

(** [hashRe], [/^[0-9a-f]+$/i] *)
Definition hashRe (s : text) : bool :=
  match s with
  | [] => false
  | _ => forallb is_hex s
  end.

(** [github\.com[:/]] at the head of a text, under the flag [i]: the
    rest. *)
Definition match_host (l : text) : option text :=
  if text_eqb (map lower (firstn 10 l)) (str "github.com") then
    match skipn 10 l with
    | c :: rest => if Ascii.eqb c ":" || Ascii.eqb c "/" then Some rest else None
    | [] => None
    end
  else None.

(** [.*?@] and the host: the shortest text without line terminator that an
    [@] and the host follow. *)
Fixpoint match_user_host (l : text) : option text :=
  match l with
  | [] => None
  | c :: l' =>
      match (if Ascii.eqb c "@" then match_host l' else None) with
      | Some rest => Some rest
      | None => if is_line_terminator c then None else match_user_host l'
      end
  end.

(** [(.*?@)?(github\.com[:/])]: the group is tried first. *)
Definition match_after_scheme (l : text) : option text :=
  match match_user_host l with
  | Some rest => Some rest
  | None => match_host l
  end.

(** [stripRe], [/^.*?:\/\/(.*?@)?(github\.com[:/])/i], at the head of a
    text: what follows the match. *)
Fixpoint stripRe (l : text) : option text :=
  match l with
  | [] => None
  | c :: l' =>
      match (if startsWith (str "://") l then match_after_scheme (skipn 3 l)
             else None) with
      | Some rest => Some rest
      | None => if is_line_terminator c then None else stripRe l'
      end
  end.

(** [dep.old.replace(stripRe, "")] *)
Definition strip (old : text) : text :=
  match stripRe old with
  | Some rest => rest
  | None => old
  end.

(** [v?[0-9]+\.[0-9]+\.[0-9]+] under the flag [i], for a whole text *)
Definition is_version_ref (l : text) : bool :=
  let l' := match l with
            | c :: r => if Ascii.eqb (lower c) "v" then r else l
            | [] => l
            end in
  match match_triple l' with
  | Some (_, []) => true
  | _ => false
  end.

(** [([0-9a-f]+|v?[0-9]+\.[0-9]+\.[0-9]+)$] for a whole text *)
Definition is_ref (l : text) : bool := hashRe l || is_version_ref l.

(** [.*?([0-9a-f]+|v?[0-9]+\.[0-9]+\.[0-9]+)$]: the reference after the
    shortest text without line terminator that leaves one. *)
Fixpoint match_ref (l : text) : option text :=
  if is_ref l then Some l
  else match l with
       | [] => None
       | c :: l' => if is_line_terminator c then None else match_ref l'
       end.

(** [([^/#]+)] and the rest of [partsRe]: the group takes [len] characters,
    or fewer when the rest does not match. *)
Fixpoint match_repo (len : nat) (l : text) : option (text * text) :=
  match len with
  | O => None
  | S n =>
      match match_ref (skipn len l) with
      | Some ref => Some (firstn len l, ref)
      | None => match_repo n l
      end
  end.

(** [partsRe],
    [/^([^/]+)\/([^/#]+)?.*?([0-9a-f]+|v?[0-9]+\.[0-9]+\.[0-9]+)$/i]:
    the three groups, the second being [undefined] when the match leaves
    it out. *)
Definition partsRe (s : text) : option (text * option text * text) :=
  let (user, r) := span (fun c => negb (Ascii.eqb c "/")) s in
  match user, r with
  | _ :: _, _ :: r1 =>
      let run := fst (span (fun c => negb (Ascii.eqb c "/") && negb (Ascii.eqb c "#"))
                        r1) in
      match match_repo (length run) r1 with
      | Some (repo, ref) => Some (user, Some repo, ref)
      | None =>
          match match_ref r1 with
          | Some ref => Some (user, None, ref)
          | None => None
          end
      end
  | _, _ => None
  end.

(** [String.prototype.replace] with a text as the pattern: the first
    occurrence is replaced. *)
Fixpoint replace_first (pattern replacement s : text) : text :=
  if startsWith pattern s then replacement ++ skipn (length pattern) s
  else match s with
       | [] => []
       | c :: s' => c :: replace_first pattern replacement s'
       end.

(** [s.replace(/^p/, "")] for a pattern [p] of plain characters *)
Definition strip_prefix (p s : text) : text :=
  if startsWith p s then skipn (length p) s else s.

(** [semver.neq] *)
Definition semver_neq (a b : option text) : result bool :=
  x <- Semver.construct a ;; y <- Semver.construct b ;;
  Ok (negb (Semver.is_eq (Semver.compare x y))).

(** What [checkUrlDep] returns when there is an update, without the key,
    which it hands on, and the date, which the report alone reads. *)
Record urlUpdate : Type := mkUrlUpdate {
  newRange : text;
  user : text;
  repo : text;
  oldRef : text;
  newRef : text
}.

(** One round of the loop over the tags in greatest mode, on the pair of
    [greatestTag] and [greatestTagBare]. *)
Definition greatestTag_step (st : text * text) (tag : text) : result (text * text) :=
  let (greatestTag, greatestTagBare) := st in
  let tagBare := strip_prefix (str "v") tag in
  if negb (is_some (Semver.valid tagBare)) then Ok st
  else if falsy (Some greatestTag) then Ok (tag, tagBare)
  else
    greater <- Semver.gt (Some tagBare) (Some greatestTagBare) ;;
    if greater then Ok (tag, tagBare) else Ok st.

Fixpoint greatestTag_loop (tags : list text) (st : text * text)
  : result (text * text) :=
  match tags with
  | [] => Ok st
  | tag :: rest => st' <- greatestTag_step st tag ;; greatestTag_loop rest st'
  end.

(** [tags[tags.length - 1]]: [None] is [undefined]. *)
Definition last_tag (tags : list text) : option text :=
  match rev tags with
  | t :: _ => Some t
  | [] => None
  end.

Section Github.

(** What GitHub answers for the commits and for the tags of the repository
    of a user: a rejection, a response that is not [ok] ([None]), or the
    [sha] of every commit ([None] where the field is missing) and the [ref]
    of every tag. *)
Variable commits : text -> text -> result (option (list (option text))).
Variable tags : text -> text -> result (option (list text)).

(** [checkUrlDep] for the old range of a dependency: [Ok None] is
    [undefined].  No [sha] holds a [$], so the replacement is put as it
    stands. *)
Definition checkUrlDep (useGreatest : bool) (old : text)
  : result (option urlUpdate) :=
  let stripped := strip old in
  match partsRe stripped with
  | Some (user, Some repo, oldRef) =>
      if hashRe oldRef then
        res <- commits user repo ;;
        match res with
        | None => Ok None
        | Some data =>
            first <- non_null (hd_error data) ;;
            match first with
            | Some (c :: sha) =>
                let newRef := firstn (length oldRef) (c :: sha) in
                if negb (text_eqb oldRef newRef) then
                  let newRange := replace_first oldRef newRef old in
                  Ok (Some (mkUrlUpdate newRange user repo oldRef newRef))
                else Ok None
            | _ => Ok None
            end
        end
      else
        res <- tags user repo ;;
        match res with
        | None => Ok None
        | Some data =>
            let tags := map (strip_prefix (str "refs/tags/")) data in
            let oldRefBare := strip_prefix (str "v") oldRef in
            if negb (is_some (Semver.valid oldRefBare)) then Ok None
            else if negb useGreatest then
              lastTag <- non_null (last_tag tags) ;;
              let lastTagBare := strip_prefix (str "v") lastTag in
              if negb (is_some (Semver.valid lastTagBare)) then Ok None
              else
                differs <- semver_neq (Some oldRefBare) (Some lastTagBare) ;;
                if differs
                then Ok (Some (mkUrlUpdate lastTag user repo oldRef lastTag))
                else Ok None
            else
              st <- greatestTag_loop tags (oldRef, oldRefBare) ;;
              differs <- semver_neq (Some oldRefBare) (Some (snd st)) ;;
              if differs
              then Ok (Some (mkUrlUpdate (fst st) user repo oldRef (fst st)))
              else Ok None
        end
  | _ => Ok None
  end.

End Github.

(** ** The end of a run *)



(** The loop of [main] on the object [deps] itself: the entries when the
    loop ends, and whether it ends by an exception, which leaves the
    entries as the rounds before it made them. *)
Fixpoint main_loop_deps (args : flags) (dati : list (option (data * text * text)))
    (d : deps) : deps * bool :=
  match dati with
  | [] => (d, false)
  | entry :: rest =>
      match main_step args d entry with
      | Ok d' => main_loop_deps args rest d'
      | Throw => (d, true)
      end
  end.


(** ** Memoized functions *)

(** The names of the properties that an object literal inherits: for such
    an argument [cache[arg]] is a function or an object before anything is
    kept, and that is what the memoized function returns. *)
Definition inherited : list text :=
  [str "constructor"; str "__defineGetter__"; str "__defineSetter__";
   str "hasOwnProperty"; str "__lookupGetter__"; str "__lookupSetter__";
   str "isPrototypeOf"; str "propertyIsEnumerable"; str "toString"; str "valueOf";
   str "__proto__"; str "toLocaleString"].

Section Memoize.

(** The values of the function, the ones that are truthy, the second
    arguments, and the function that is memoized, which may throw. *)
Variable V : Type.
Variable truthy : V -> bool.
Variable A2 : Type.
Variable fn : text -> A2 -> result V.

(** What the memoized function returns: a value of the function or a
    property that the cache inherits. *)
Inductive memoized : Type :=
| Value (v : V)
| Inherited (name : text).

(** The own properties of [cache], the latest first. *)
Definition cache : Type := list (text * V).

Fixpoint cached (arg : text) (c : cache) : option V :=
  match c with
  | [] => None
  | (k, v) :: c' => if text_eqb arg k then Some v else cached arg c'
  end.

(** A call of the function that [memoize] returns, on the cache of the
    closure: [cache[arg] || (cache[arg] = fn(arg, arg2))]. *)
Definition memoize (c : cache) (arg : text) (arg2 : A2) : result (memoized * cache) :=
  if existsb (text_eqb arg) inherited then Ok (Inherited arg, c)
  else
    match cached arg c with
    | Some v =>
        if truthy v then Ok (Value v, c)
        else v' <- fn arg arg2 ;; Ok (Value v', (arg, v') :: c)
    | None => v' <- fn arg arg2 ;; Ok (Value v', (arg, v') :: c)
    end.

End Memoize.

Arguments Value {V} v.
Arguments Inherited {V} name.
(** * Further vocabulary *)

(** ** Latest mode of [findVersion] *)

(** What the loop of [findVersion] keeps true, when it goes by the dates
    [t] of publication, of the versions [seen] so far and of its state: the
    candidate is the coerced range at date [0], or a version seen whose
    date is the state's; no qualifying version seen has a later date. *)
Definition latest_inv (o : opts) (base : Semver.SemVer) (t : list (text * Z))
    (seen : list text) (st : Semver.SemVer * Z) : Prop :=
  let usePre := isRangePrerelease (range o) || usePre o in
  candidate_inv (semvers o) usePre base (fst st)
  /\ ((fst st = base /\ snd st = 0%Z)
      \/ ((0 < snd st)%Z
          /\ exists y, In y seen /\ Semver.parse y = Some (fst st)
                       /\ time_of t y = Some (snd st)
                       /\ (fst st = base \/ qualifies o base (fst st) = true)))
  /\ (forall x v dx, In x seen -> Semver.parse x = Some v ->
        qualifies o base v = true -> time_of t x = Some dx -> (dx <= snd st)%Z).

(** A version given by its numbers and identifiers is well formed. *)
Ltac wf_prerelease :=
  unfold wf; repeat split;
  try (vm_compute; discriminate);
  try (apply Nat.leb_le; vm_compute; reflexivity);
  repeat constructor.

(** ** The entries of [deps] *)


(** ** The table of the results *)

(** The first of the parts of [a] that is not the part of [b] at the same
    index, with the parts of [a] after it. *)
Fixpoint first_diff (aParts bParts : list text) : option (text * list text) :=
  match aParts with
  | [] => None
  | a :: aRest =>
      match bParts with
      | b :: bRest => if text_eqb a b then first_diff aRest bRest else Some (a, aRest)
      | [] => Some (a, aRest)
      end
  end.

(** A text as [highlightDiff] shows it without colours: as it is, or with a
    dot after it when none of its parts differs, or the last one only and
    that one holds a character that no version has or is empty. *)
Definition shown (a : text) (diff : option (text * list text)) : text :=
  match diff with
  | Some (p, rest) =>
      if versionPartRe p || negb (Nat.eqb (length rest) 0) then a else a ++ ["."]
  | None => a ++ ["."]
  end.

(** ** Dependencies given by an address *)

(** What the loop over the tags keeps true in greatest mode, of the tags
    [seen] so far and the pair of [greatestTag] and [greatestTagBare]: the
    tag is the old reference, or a tag seen above the version [ov] of the
    old reference; no tag seen is above it. *)
Definition greatestTag_inv (ref : text) (ov : Semver.SemVer) (seen : list text)
    (st : text * text) : Prop :=
  fst st <> [] /\ snd st = strip_prefix (str "v") (fst st)
  /\ exists gv, Semver.parse (snd st) = Some gv
       /\ ((fst st = ref /\ gv = ov)
           \/ (In (fst st) seen /\ Semver.compare gv ov = Gt))
       /\ forall t v, In t seen -> Semver.parse (strip_prefix (str "v") t) = Some v ->
            Semver.is_gt (Semver.compare v gv) = false.

(** The tags of a repository as GitHub lists them, for the examples. *)
Definition three_tags (usr rp : text) : result (option (list text)) :=
  Ok (Some [str "refs/tags/v1.0.0"; str "refs/tags/v1.2.0"; str "refs/tags/v1.1.0"]).

Definition no_commits (usr rp : text) : result (option (list (option text))) :=
  Ok None.

(** ** Memoized functions *)

(** A cache that holds, for a second argument, nothing but values of the
    function. *)
Definition coherent {V A2 : Type} (fn : text -> A2 -> result V) (arg2 : A2)
    (c : cache V) : Prop :=
  forall k v, cached V k c = Some v -> fn k arg2 = Ok v.

(** * Properties *)

(** ** Decimal numbers *)

Lemma digit_char_val (n : N) : (n < 10)%N -> digit_val (digit_char n) = n.
Proof.
  intros H. unfold digit_val, digit_char, code.
  rewrite N_ascii_embedding by lia. lia.
Qed.

Lemma digit_char_is_digit (n : N) : (n < 10)%N -> is_digit (digit_char n) = true.
Proof.
  intros H. unfold is_digit, digit_char, code.
  rewrite N_ascii_embedding by lia.
  apply andb_true_intro; split; apply N.leb_le; lia.
Qed.

Lemma is_digit_val (c : ascii) : is_digit c = true -> (digit_val c < 10)%N.
Proof.
  unfold is_digit, digit_val. intros H.
  apply andb_prop in H as [H1 H2].
  apply N.leb_le in H1, H2. lia.
Qed.

Lemma num_of_digits_snoc (l : text) (c : ascii) :
  num_of_digits (l ++ [c]) = (10 * num_of_digits l + digit_val c)%N.
Proof.
  unfold num_of_digits. rewrite fold_left_app. reflexivity.
Qed.

Lemma numeric_identifier_intro (c : ascii) (l : text) :
  forallb is_digit (c :: l) = true ->
  (l <> [] -> Ascii.eqb c "0" = false) ->
  is_numeric_identifier (c :: l) = true.
Proof.
  intros Hd Hz. destruct l as [| c' l'].
  - simpl in *. now rewrite andb_true_r in Hd.
  - unfold is_numeric_identifier. rewrite Hd, Hz by discriminate. reflexivity.
Qed.

Lemma numeric_identifier_digits (l : text) :
  is_numeric_identifier l = true -> forallb is_digit l = true /\ l <> [].
Proof.
  destruct l as [| c [| c' l']]; simpl; intros H; try discriminate.
  - rewrite H. split; [reflexivity | discriminate].
  - apply andb_prop in H as [H _]. split; [exact H | discriminate].
Qed.

Lemma forallb_snoc {A : Type} (p : A -> bool) (l : list A) (x : A) :
  forallb p (l ++ [x]) = forallb p l && p x.
Proof.
  rewrite forallb_app. simpl. now rewrite andb_true_r.
Qed.

Lemma digits_fuel_S (f : nat) (n : N) :
  digits_fuel (S f) n =
  if (n <? 10)%N then [digit_char n]
  else digits_fuel f (n / 10)%N ++ [digit_char (n mod 10)%N].
Proof. reflexivity. Qed.

Lemma digits_fuel_spec (f : nat) :
  forall n : N, (n < 2 ^ N.of_nat (S f))%N ->
    num_of_digits (digits_fuel (S f) n) = n
    /\ forallb is_digit (digits_fuel (S f) n) = true
    /\ (exists c l, digits_fuel (S f) n = c :: l
                    /\ (n <> 0%N -> Ascii.eqb c "0" = false)
                    /\ (l <> [] -> n <> 0%N)).
Proof.
  induction f as [| f IH]; intros n Hn; rewrite digits_fuel_S;
    destruct (N.ltb_spec n 10) as [Hlt | Hge].
  1, 3: repeat split;
    [ unfold num_of_digits; simpl; now rewrite digit_char_val
    | simpl; now rewrite digit_char_is_digit
    | exists (digit_char n), []; repeat split; try congruence;
      intros Hnz; apply Ascii.eqb_neq; intros E;
      apply (f_equal digit_val) in E; rewrite digit_char_val in E by assumption;
      vm_compute in E; congruence ].
  - simpl in Hn. lia.
  - assert (Hdiv : (n / 10 < 2 ^ N.of_nat (S f))%N).
    { rewrite (Nat2N.inj_succ (S f)), N.pow_succ_r' in Hn.
      apply N.Div0.div_lt_upper_bound. lia. }
    destruct (IH _ Hdiv) as (Hnum & Hdig & c & l & Hl & Hz & _).
    assert (Hmod : (n mod 10 < 10)%N) by (apply N.mod_lt; lia).
    assert (Hq : (n / 10 <> 0)%N).
    { intros E. pose proof (N.div_mod n 10 ltac:(lia)). lia. }
    repeat split.
    + rewrite num_of_digits_snoc, Hnum, digit_char_val by assumption.
      pose proof (N.div_mod n 10 ltac:(lia)). lia.
    + rewrite forallb_snoc, Hdig, digit_char_is_digit by assumption. reflexivity.
    + exists c, (l ++ [digit_char (n mod 10)]). rewrite Hl. repeat split.
      * intros _. now apply Hz.
      * intros _. lia.
Qed.

Lemma to_digits_spec (n : N) :
  num_of_digits (to_digits n) = n
  /\ forallb is_digit (to_digits n) = true
  /\ (exists c l, to_digits n = c :: l
                  /\ (n <> 0%N -> Ascii.eqb c "0" = false)
                  /\ (l <> [] -> n <> 0%N)).
Proof.
  unfold to_digits. apply digits_fuel_spec.
  rewrite Nat2N.inj_succ, N2Nat.id.
  destruct (N.eq_dec n 0) as [-> | Hn]; [reflexivity |].
  apply N.log2_spec. lia.
Qed.

Lemma to_digits_num (n : N) : num_of_digits (to_digits n) = n.
Proof. apply to_digits_spec. Qed.

Lemma to_digits_digits (n : N) : forallb is_digit (to_digits n) = true.
Proof. apply to_digits_spec. Qed.

Lemma to_digits_nonempty (n : N) : to_digits n <> [].
Proof.
  destruct (to_digits_spec n) as (_ & _ & c & l & E & _). rewrite E. discriminate.
Qed.

Lemma to_digits_numeric (n : N) : is_numeric_identifier (to_digits n) = true.
Proof.
  destruct (to_digits_spec n) as (_ & Hd & c & l & E & Hz & Hl).
  rewrite E in *. apply numeric_identifier_intro; auto.
Qed.

(** The number of digits is bounded by the magnitude. *)
Lemma digits_fuel_length (f : nat) :
  forall (n : N) (k : nat), (n < 10 ^ N.of_nat (S k))%N ->
    (length (digits_fuel (S f) n) <= S k)%nat.
Proof.
  induction f as [| f IH]; intros n k Hn; rewrite digits_fuel_S;
    destruct (N.ltb_spec n 10) as [Hlt | Hge]; try (simpl; lia).
  rewrite length_app. cbn [length].
  destruct k as [| k]; [change (10 ^ N.of_nat 1)%N with 10%N in Hn; lia |].
  assert (Hdiv : (n / 10 < 10 ^ N.of_nat (S k))%N).
  { rewrite (Nat2N.inj_succ (S k)), N.pow_succ_r' in Hn.
    apply N.Div0.div_lt_upper_bound. lia. }
  specialize (IH _ _ Hdiv). lia.
Qed.

Lemma to_digits_length (n : N) (k : nat) :
  (n < 10 ^ N.of_nat (S k))%N -> (length (to_digits n) <= S k)%nat.
Proof. apply digits_fuel_length. Qed.

Lemma num_of_digits_bound (l : text) :
  forallb is_digit l = true -> (num_of_digits l < 10 ^ N.of_nat (length l))%N.
Proof.
  induction l as [| c l IH] using rev_ind; intros H.
  - vm_compute. reflexivity.
  - rewrite forallb_snoc in H. apply andb_prop in H as [Hl Hc].
    rewrite num_of_digits_snoc, length_app. simpl length.
    replace (length l + 1)%nat with (S (length l)) by lia.
    rewrite Nat2N.inj_succ, N.pow_succ_r'.
    specialize (IH Hl). apply is_digit_val in Hc. lia.
Qed.

Lemma to_digits_num_length (l : text) :
  forallb is_digit l = true -> l <> [] ->
  (length (to_digits (num_of_digits l)) <= length l)%nat.
Proof.
  intros Hd Hne. destruct l as [| c l]; [congruence |].
  apply to_digits_length. now apply (num_of_digits_bound (c :: l)).
Qed.

(** ** Texts *)

Lemma text_eqb_refl (a : text) : text_eqb a a = true.
Proof.
  induction a as [| c a IH]; simpl; [reflexivity |].
  now rewrite Ascii.eqb_refl.
Qed.

Lemma text_eqb_eq (a b : text) : text_eqb a b = true <-> a = b.
Proof.
  split; [| intros ->; apply text_eqb_refl].
  revert b. induction a as [| x a IH]; intros [| y b]; simpl; try discriminate; auto.
  intros H. apply andb_prop in H as [H1 H2].
  apply Ascii.eqb_eq in H1. apply IH in H2. congruence.
Qed.

Lemma text_eqb_neq (a b : text) : text_eqb a b = false <-> a <> b.
Proof.
  split.
  - intros H E. apply text_eqb_eq in E. congruence.
  - intros H. destruct (text_eqb a b) eqn:E; [| reflexivity].
    apply text_eqb_eq in E. contradiction.
Qed.

Lemma lacks_app (sep : ascii) (a b : text) :
  lacks sep (a ++ b) <-> lacks sep a /\ lacks sep b.
Proof. apply Forall_app. Qed.

Lemma lacks_class (p : ascii -> bool) (sep : ascii) (l : text) :
  (forall c, p c = true -> Ascii.eqb c sep = false) ->
  forallb p l = true -> lacks sep l.
Proof.
  intros Hp H. apply Forall_forall. intros c Hc.
  apply Hp. rewrite forallb_forall in H. now apply H.
Qed.

Lemma span_app (p : ascii -> bool) (a r : text) :
  forallb p a = true ->
  match r with [] => True | c :: _ => p c = false end ->
  span p (a ++ r) = (a, r).
Proof.
  intros Ha Hr. induction a as [| x a IH]; simpl in *.
  - destruct r as [| c r]; [reflexivity |]. simpl. now rewrite Hr.
  - apply andb_prop in Ha as [Hx Ha]. rewrite Hx, IH by assumption. reflexivity.
Qed.

Lemma span_spec (p : ascii -> bool) (l : text) :
  forall a r, span p l = (a, r) ->
    l = a ++ r /\ forallb p a = true
    /\ match r with [] => True | c :: _ => p c = false end.
Proof.
  induction l as [| c l IH]; simpl; intros a r H.
  - inversion H; subst. repeat split.
  - destruct (p c) eqn:Hc.
    + destruct (span p l) as [a' r'] eqn:E. inversion H; subst.
      destruct (IH _ _ eq_refl) as (-> & Ha & Hr).
      repeat split; simpl; auto. now rewrite Hc.
    + inversion H; subst. repeat split. exact Hc.
Qed.

Lemma cut_none (sep : ascii) (a : text) :
  lacks sep a -> cut sep a = (a, None).
Proof.
  induction 1 as [| c a Hc _ IH]; simpl; [reflexivity |].
  now rewrite Hc, IH.
Qed.

Lemma cut_some (sep : ascii) (a b : text) :
  lacks sep a -> cut sep (a ++ sep :: b) = (a, Some b).
Proof.
  induction 1 as [| c a Hc _ IH]; simpl.
  - now rewrite Ascii.eqb_refl.
  - now rewrite Hc, IH.
Qed.

Lemma split_on_lacks (sep : ascii) (a : text) :
  lacks sep a -> split_on sep a = [a].
Proof.
  induction 1 as [| c a Hc _ IH]; simpl; [reflexivity |].
  now rewrite Hc, IH.
Qed.

Lemma split_on_app (sep : ascii) (a b : text) :
  lacks sep a -> split_on sep (a ++ sep :: b) = a :: split_on sep b.
Proof.
  induction 1 as [| c a Hc _ IH]; simpl.
  - now rewrite Ascii.eqb_refl.
  - now rewrite Hc, IH.
Qed.

Lemma split_on_join (sep : ascii) (ps : list text) :
  ps <> [] -> Forall (lacks sep) ps -> split_on sep (join sep ps) = ps.
Proof.
  intros Hne H. induction H as [| p ps Hp Hps IH]; [congruence |].
  destruct ps as [| q ps].
  - simpl. now apply split_on_lacks.
  - change (join sep (p :: q :: ps)) with (p ++ sep :: join sep (q :: ps)).
    rewrite split_on_app by assumption. f_equal. apply IH. discriminate.
Qed.

Lemma drop_while_head (p : ascii -> bool) (l : text) :
  match l with [] => True | c :: _ => p c = false end -> drop_while p l = l.
Proof.
  destruct l as [| c l]; simpl; [reflexivity |]. now intros ->.
Qed.

Lemma trim_id (l : text) :
  Forall (fun c => is_space c = false) l -> trim l = l.
Proof.
  intros H. unfold trim.
  rewrite (drop_while_head is_space l).
  - rewrite drop_while_head; [apply rev_involutive |].
    apply Forall_rev in H. destruct (rev l); [exact I |]. now inversion H.
  - destruct l; [exact I |]. now inversion H.
Qed.

Lemma digit_not_dot c : is_digit c = true -> Ascii.eqb c "." = false.
Proof. ascii_cases c. Qed.
Lemma digit_not_hyphen c : is_digit c = true -> Ascii.eqb c "-" = false.
Proof. ascii_cases c. Qed.
Lemma digit_not_v c : is_digit c = true -> Ascii.eqb c "v" = false.
Proof. ascii_cases c. Qed.
Lemma digit_idchar c : is_digit c = true -> is_idchar c = true.
Proof. ascii_cases c. Qed.
Lemma idchar_not_dot c : is_idchar c = true -> Ascii.eqb c "." = false.
Proof. ascii_cases c. Qed.

(** ** The [semver] package: printing and parsing *)

Lemma parse_numeric_to_digits (n : N) :
  (n <= Semver.MAX_SAFE_INTEGER)%N -> Semver.parse_numeric (to_digits n) = Some n.
Proof.
  intros H. unfold Semver.parse_numeric.
  rewrite to_digits_numeric, to_digits_num.
  apply N.leb_le in H. now rewrite H.
Qed.

Lemma parse_format_identifier (i : Semver.identifier) :
  wf_identifier i -> Semver.parse_identifier (Semver.format_identifier i) = Some i.
Proof.
  destruct i as [n | s]; simpl; intros H.
  - unfold Semver.parse_identifier.
    pose proof (to_digits_nonempty n) as Hne.
    destruct (to_digits n) as [| c l] eqn:E; [congruence |].
    rewrite <- E, to_digits_digits, to_digits_numeric, to_digits_num. reflexivity.
  - destruct H as [Hid Hd]. unfold Semver.parse_identifier.
    destruct s as [| c s]; [discriminate |]. now rewrite Hd, Hid.
Qed.

Lemma parse_format_identifiers (ids : list Semver.identifier) :
  Forall wf_identifier ids ->
  Semver.parse_identifiers (map Semver.format_identifier ids) = Some ids.
Proof.
  induction 1 as [| i ids Hi _ IH]; simpl; [reflexivity |].
  now rewrite parse_format_identifier, IH.
Qed.

Lemma format_identifier_idchars (i : Semver.identifier) :
  wf_identifier i -> forallb is_idchar (Semver.format_identifier i) = true.
Proof.
  destruct i as [n | s]; simpl.
  - intros _. apply forallb_forall. intros c Hc. apply digit_idchar.
    pose proof (to_digits_digits n) as H. rewrite forallb_forall in H. now apply H.
  - now intros [H _].
Qed.

Lemma join_version_chars (ps : list text) :
  Forall (fun p => forallb is_idchar p = true) ps ->
  forallb version_char (join "." ps) = true.
Proof.
  assert (Hsub : forall p, forallb is_idchar p = true -> forallb version_char p = true).
  { intros p Hp. apply forallb_forall. intros c Hc. unfold version_char.
    rewrite forallb_forall in Hp. now rewrite Hp. }
  induction 1 as [| p ps Hp Hps IH]; [reflexivity |].
  destruct ps as [| q ps]; [now apply Hsub |].
  change (join "." (p :: q :: ps)) with (p ++ "." :: join "." (q :: ps)).
  rewrite forallb_app. rewrite Hsub by assumption. simpl in *. exact IH.
Qed.

Lemma version_char_not_space c : version_char c = true -> is_space c = false.
Proof. ascii_cases c. Qed.
Lemma version_char_not_plus c : version_char c = true -> Ascii.eqb c "+" = false.
Proof. ascii_cases c. Qed.
Lemma digit_version_char c : is_digit c = true -> version_char c = true.
Proof. ascii_cases c. Qed.

Lemma forallb_impl {A : Type} (p q : A -> bool) (l : list A) :
  (forall x, p x = true -> q x = true) -> forallb p l = true -> forallb q l = true.
Proof.
  intros Hpq H. apply forallb_forall. intros x Hx.
  apply Hpq. rewrite forallb_forall in H. now apply H.
Qed.

Lemma to_digits_lacks (sep : ascii) (n : N) :
  (forall c, is_digit c = true -> Ascii.eqb c sep = false) -> lacks sep (to_digits n).
Proof.
  intros H. apply (lacks_class is_digit); [exact H | apply to_digits_digits].
Qed.

Lemma main_version_split (v : Semver.SemVer) :
  split_on "." (Semver.main_version v) =
  [to_digits (Semver.major v); to_digits (Semver.minor v); to_digits (Semver.patch v)].
Proof.
  unfold Semver.main_version.
  rewrite !split_on_app by (apply to_digits_lacks, digit_not_dot).
  rewrite split_on_lacks by (apply to_digits_lacks, digit_not_dot). reflexivity.
Qed.

Lemma main_version_lacks_hyphen (v : Semver.SemVer) : lacks "-" (Semver.main_version v).
Proof.
  unfold Semver.main_version.
  repeat (apply lacks_app; split; [apply to_digits_lacks, digit_not_hyphen |];
          apply Forall_cons; [reflexivity |]).
  apply to_digits_lacks, digit_not_hyphen.
Qed.

Lemma main_version_chars (v : Semver.SemVer) :
  forallb version_char (Semver.main_version v) = true.
Proof.
  unfold Semver.main_version.
  assert (H : forall n, forallb version_char (to_digits n) = true).
  { intros n. apply (forallb_impl is_digit); [apply digit_version_char | apply to_digits_digits]. }
  repeat (rewrite forallb_app, H; cbn [forallb andb];
          change (version_char ".") with true; cbn [andb]).
  apply H.
Qed.

Lemma prerelease_text_chars (ids : list Semver.identifier) :
  Forall wf_identifier ids ->
  forallb version_char (join "." (map Semver.format_identifier ids)) = true.
Proof.
  intros H. apply join_version_chars. apply Forall_map.
  eapply Forall_impl; [| exact H]. apply format_identifier_idchars.
Qed.

Lemma version_chars (v : Semver.SemVer) :
  wf v -> forallb version_char (Semver.version v) = true.
Proof.
  intros (_ & _ & _ & Hids & _). unfold Semver.version.
  rewrite forallb_app, main_version_chars.
  destruct (Semver.prerelease v) as [| i ids] eqn:E; [reflexivity |].
  cbn [forallb andb]. change (version_char "-") with true. cbn [andb].
  now apply prerelease_text_chars.
Qed.

Lemma main_version_head (v : Semver.SemVer) :
  exists c l, Semver.main_version v = c :: l /\ is_digit c = true.
Proof.
  unfold Semver.main_version.
  destruct (to_digits_spec (Semver.major v)) as (_ & Hd & c & l & E & _).
  rewrite E in *. simpl in Hd. apply andb_prop in Hd as [Hc _].
  eexists _, _. split; [reflexivity | exact Hc].
Qed.

Lemma prerelease_text_split (ids : list Semver.identifier) :
  ids <> [] -> Forall wf_identifier ids ->
  split_on "." (join "." (map Semver.format_identifier ids))
  = map Semver.format_identifier ids.
Proof.
  intros Hne H. apply split_on_join.
  - destruct ids; [congruence | discriminate].
  - apply Forall_map. eapply Forall_impl; [| exact H].
    intros i Hi. apply (lacks_class is_idchar); [apply idchar_not_dot |].
    now apply format_identifier_idchars.
Qed.

(** A printed version parses back to the version it prints. *)
Lemma parse_version (v : Semver.SemVer) :
  wf v -> Semver.parse (Semver.version v) = Some v.
Proof.
  intros Hwf. pose proof (version_chars v Hwf) as Hchars.
  destruct Hwf as (Hma & Hmi & Hpa & Hids & Hlen).
  unfold Semver.parse.
  apply Nat.ltb_ge in Hlen. rewrite Hlen.
  rewrite trim_id.
  2:{ apply Forall_forall. intros c Hc. apply version_char_not_space.
      rewrite forallb_forall in Hchars. now apply Hchars. }
  assert (Hstrip : Semver.strip_v (Semver.version v) = Semver.version v).
  { unfold Semver.version. destruct (main_version_head v) as (c & l & E & Hc).
    rewrite E. simpl. now rewrite digit_not_v. }
  rewrite Hstrip.
  rewrite cut_none.
  2:{ apply Forall_forall. intros c Hc. apply version_char_not_plus.
      rewrite forallb_forall in Hchars. now apply Hchars. }
  unfold Semver.version in *.
  destruct v as [ma mi pa ids]. cbn [Semver.prerelease] in *.
  destruct ids as [| i ids].
  - rewrite app_nil_r, cut_none by apply main_version_lacks_hyphen.
    cbn [Semver.valid_build]. rewrite main_version_split.
    cbn [Semver.major Semver.minor Semver.patch] in *.
    now rewrite !parse_numeric_to_digits.
  - rewrite cut_some by apply main_version_lacks_hyphen.
    cbn [Semver.valid_build]. rewrite main_version_split.
    cbn [Semver.major Semver.minor Semver.patch] in *.
    rewrite !parse_numeric_to_digits by assumption.
    unfold Semver.parse_prerelease.
    rewrite prerelease_text_split by (assumption || discriminate).
    now rewrite parse_format_identifiers.
Qed.

Lemma split_on_nonempty (sep : ascii) (l : text) : split_on sep l <> [].
Proof.
  destruct l as [| c l]; simpl; [discriminate |].
  destruct (Ascii.eqb c sep); [discriminate |].
  destruct (split_on sep l); discriminate.
Qed.

Lemma join_cons (sep : ascii) (p : text) (ps : list text) :
  ps <> [] -> join sep (p :: ps) = p ++ sep :: join sep ps.
Proof. destruct ps; [congruence | reflexivity]. Qed.

Lemma join_split_on (sep : ascii) (l : text) : join sep (split_on sep l) = l.
Proof.
  induction l as [| c l IH]; [reflexivity |].
  simpl. destruct (Ascii.eqb c sep) eqn:E.
  - apply Ascii.eqb_eq in E. subst c.
    rewrite join_cons by apply split_on_nonempty. simpl. now rewrite IH.
  - pose proof (split_on_nonempty sep l) as Hne.
    destruct (split_on sep l) as [| p ps]; [congruence |].
    destruct ps as [| q ps]; simpl in *; congruence.
Qed.

Lemma cut_spec (sep : ascii) (l : text) :
  forall a b, cut sep l = (a, b) ->
    l = a ++ match b with Some r => sep :: r | None => [] end.
Proof.
  induction l as [| c l IH]; simpl; intros a b H.
  - inversion H; subst. reflexivity.
  - destruct (Ascii.eqb c sep) eqn:E.
    + apply Ascii.eqb_eq in E. inversion H; subst. reflexivity.
    + destruct (cut sep l) as [a' b'] eqn:Ec. inversion H; subst.
      simpl. f_equal. now apply IH.
Qed.

Lemma drop_while_length (p : ascii -> bool) (l : text) :
  (length (drop_while p l) <= length l)%nat.
Proof.
  induction l as [| c l IH]; simpl; [lia |].
  destruct (p c); simpl; lia.
Qed.

Lemma trim_length (l : text) : (length (trim l) <= length l)%nat.
Proof.
  unfold trim. rewrite length_rev.
  etransitivity; [apply drop_while_length |].
  rewrite length_rev. apply drop_while_length.
Qed.

Lemma strip_v_length (l : text) : (length (Semver.strip_v l) <= length l)%nat.
Proof.
  destruct l as [| c l]; simpl; [lia |].
  destruct (Ascii.eqb c "v"); simpl; lia.
Qed.

Lemma parse_numeric_spec (l : text) (n : N) :
  Semver.parse_numeric l = Some n ->
  (n <= Semver.MAX_SAFE_INTEGER)%N /\ (length (to_digits n) <= length l)%nat.
Proof.
  unfold Semver.parse_numeric.
  destruct (is_numeric_identifier l) eqn:Hn; [| discriminate].
  destruct (N.leb_spec (num_of_digits l) Semver.MAX_SAFE_INTEGER); [| discriminate].
  intros E. inversion E; subst. split; [assumption |].
  apply numeric_identifier_digits in Hn as [Hd Hne].
  now apply to_digits_num_length.
Qed.

Lemma parse_identifier_spec (l : text) (i : Semver.identifier) :
  Semver.parse_identifier l = Some i ->
  wf_identifier i /\ (length (Semver.format_identifier i) <= length l)%nat.
Proof.
  unfold Semver.parse_identifier. destruct l as [| c l]; [discriminate |].
  destruct (forallb is_digit (c :: l)) eqn:Hd.
  - destruct (is_numeric_identifier (c :: l)) eqn:Hn; [| discriminate].
    intros E. inversion E; subst. split; [exact I |].
    apply to_digits_num_length; [assumption | discriminate].
  - destruct (forallb is_idchar (c :: l)) eqn:Hi; [| discriminate].
    intros E. inversion E; subst. split; [now split | simpl; lia].
Qed.

Lemma parse_identifiers_spec (ps : list text) :
  forall ids, Semver.parse_identifiers ps = Some ids ->
    Forall wf_identifier ids
    /\ (length (join "." (map Semver.format_identifier ids)) <= length (join "." ps))%nat
    /\ length ids = length ps.
Proof.
  induction ps as [| p ps IH]; simpl; intros ids H.
  - inversion H; subst. repeat split; auto.
  - destruct (Semver.parse_identifier p) as [i |] eqn:Ei; [| discriminate].
    destruct (Semver.parse_identifiers ps) as [is' |] eqn:Eis; [| discriminate].
    inversion H; subst. destruct (IH _ eq_refl) as (Hwf & Hlen & Hn).
    apply parse_identifier_spec in Ei as [Hi Hli].
    split; [now constructor |]. split; [| simpl; lia].
    destruct ps as [| q ps]; destruct is' as [| j is']; try discriminate.
    + simpl. exact Hli.
    + change (map Semver.format_identifier (i :: j :: is'))
        with (Semver.format_identifier i :: map Semver.format_identifier (j :: is')).
      rewrite !join_cons by discriminate.
      rewrite !length_app. cbn [length] in *. lia.
Qed.

(** What parses is well formed, and prints no longer than it was written. *)
Lemma parse_wf (s : text) (v : Semver.SemVer) :
  Semver.parse s = Some v -> wf v.
Proof.
  unfold Semver.parse.
  destruct (Nat.ltb_spec Semver.MAX_LENGTH (length s)) as [| Hlen]; [discriminate |].
  pose proof (trim_length s) as Ht.
  pose proof (strip_v_length (trim s)) as Hs.
  destruct (cut "+" (Semver.strip_v (trim s))) as [mp build] eqn:Eb.
  apply cut_spec in Eb.
  destruct (cut "-" mp) as [m pre] eqn:Ep. apply cut_spec in Ep.
  destruct (Semver.valid_build build); [| discriminate].
  pose proof (join_split_on "." m) as Hm.
  destruct (split_on "." m) as [| a [| b [| c [| ? ?]]]]; try discriminate.
  destruct (Semver.parse_numeric a) as [ma |] eqn:Ea; [| discriminate].
  destruct (Semver.parse_numeric b) as [mi |] eqn:Eb'; [| discriminate].
  destruct (Semver.parse_numeric c) as [pa |] eqn:Ec; [| discriminate].
  destruct (Semver.parse_prerelease pre) as [ids |] eqn:Ei; [| discriminate].
  intros E. inversion E; subst v. clear E.
  apply parse_numeric_spec in Ea as [Hma Hla].
  apply parse_numeric_spec in Eb' as [Hmi Hlb].
  apply parse_numeric_spec in Ec as [Hpa Hlc].
  assert (Hmp : (length mp <= length s)%nat).
  { rewrite Eb, length_app in Hs. lia. }
  assert (Hmain : (length (Semver.main_version (Semver.mkSemVer ma mi pa ids))
                   <= length m)%nat).
  { rewrite <- Hm. unfold Semver.main_version. cbn [Semver.major Semver.minor Semver.patch].
    rewrite !join_cons by discriminate. simpl join.
    rewrite !length_app. cbn [length]. rewrite !length_app. cbn [length]. lia. }
  unfold wf, Semver.version. cbn [Semver.major Semver.minor Semver.patch Semver.prerelease].
  repeat split; try assumption.
  - destruct pre as [p |]; simpl in Ei.
    + now apply parse_identifiers_spec in Ei as (H & _).
    + inversion Ei. constructor.
  - rewrite length_app.
    destruct pre as [p |]; simpl in Ei.
    + apply parse_identifiers_spec in Ei as (_ & Hl & _).
      rewrite join_split_on in Hl.
      rewrite Ep, length_app in Hmp. cbn [length] in Hmp.
      destruct ids; cbn [length]; unfold Semver.MAX_LENGTH in *; lia.
    + inversion Ei; subst ids. rewrite Ep, length_app in Hmp. simpl in *.
      unfold Semver.MAX_LENGTH in *. lia.
Qed.

(** Printing after parsing is a normal form: the printed version parses to
    the same version. *)
Lemma parse_parse_version (s : text) (v : Semver.SemVer) :
  Semver.parse s = Some v -> Semver.parse (Semver.version v) = Some v.
Proof. intros H. apply parse_version. eapply parse_wf, H. Qed.

(** ** The [semver] package: coercion *)

Lemma wf_release_of (v : Semver.SemVer) : wf v -> wf (release_of v).
Proof.
  intros (Hma & Hmi & Hpa & _ & Hlen). unfold wf, release_of.
  cbn [Semver.major Semver.minor Semver.patch Semver.prerelease].
  repeat split; auto.
  unfold Semver.version in *. cbn [Semver.prerelease].
  rewrite length_app in *. simpl length at 2.
  change (Semver.main_version (Semver.mkSemVer (Semver.major v) (Semver.minor v)
            (Semver.patch v) [])) with (Semver.main_version v). lia.
Qed.

Lemma version_release_of (v : Semver.SemVer) :
  Semver.version (release_of v) = Semver.main_version v.
Proof. unfold Semver.version. simpl. apply app_nil_r. Qed.

Lemma to_digits_component_length (n : N) :
  (n <= Semver.MAX_SAFE_INTEGER)%N ->
  (1 <=? length (to_digits n))%nat
  && (length (to_digits n) <=? Semver.MAX_SAFE_COMPONENT_LENGTH)%nat = true.
Proof.
  intros H. apply andb_true_intro. split.
  - apply Nat.leb_le. pose proof (to_digits_nonempty n).
    destruct (to_digits n); [congruence | simpl; lia].
  - apply Nat.leb_le. apply to_digits_length.
    unfold Semver.MAX_SAFE_INTEGER in H.
    change (10 ^ N.of_nat 16)%N with 10000000000000000%N. lia.
Qed.

Lemma coerce_match_skip (p l : text) :
  forallb (fun c => negb (is_digit c)) p = true ->
  forall b, l <> [] -> Semver.coerce_match b (p ++ l) =
    Semver.coerce_match (match p with [] => b | _ => false end) l.
Proof.
  induction p as [| c p IH]; intros H b Hl; [reflexivity |].
  simpl in H. apply andb_prop in H as [Hc Hp]. apply negb_true_iff in Hc.
  simpl. rewrite Hc. rewrite IH by assumption. now destruct p.
Qed.

Lemma coerce_match_main (v : Semver.SemVer) (r : text) :
  wf v -> stops_digits r ->
  Semver.coerce_match false (Semver.main_version v ++ r)
  = Some (to_digits (Semver.major v),
          (to_digits (Semver.minor v), to_digits (Semver.patch v))).
Proof.
  intros (Hma & Hmi & Hpa & _) Hr.
  pose proof (to_digits_component_length _ Hma) as La.
  pose proof (to_digits_component_length _ Hmi) as Lb.
  pose proof (to_digits_component_length _ Hpa) as Lc.
  apply andb_prop in La as [_ La].
  unfold Semver.main_version.
  destruct (to_digits_spec (Semver.major v)) as (_ & Hd & c & l & E & _).
  assert (Hc : is_digit c = true).
  { rewrite E in Hd. simpl in Hd. now apply andb_prop in Hd as [Hc _]. }
  assert (Hspan : span is_digit
            (to_digits (Semver.major v) ++
             "." :: to_digits (Semver.minor v) ++ "." :: to_digits (Semver.patch v) ++ r)
          = (to_digits (Semver.major v),
             "." :: to_digits (Semver.minor v) ++ "." :: to_digits (Semver.patch v) ++ r)).
  { apply span_app; [apply to_digits_digits | reflexivity]. }
  repeat rewrite <- app_assoc. cbn [app].
  repeat rewrite <- app_assoc. cbn [app].
  revert Hspan. rewrite E. intros Hspan.
  cbn [app Semver.coerce_match]. rewrite Hc.
  change ((c :: l) ++ "." :: to_digits (Semver.minor v) ++ "." :: to_digits (Semver.patch v) ++ r)
    with (c :: l ++ "." :: to_digits (Semver.minor v) ++ "." :: to_digits (Semver.patch v) ++ r)
    in Hspan.
  rewrite Hspan. rewrite <- E, La.
  unfold Semver.coerce_groups, Semver.coerce_group.
  rewrite Ascii.eqb_refl.
  rewrite (span_app is_digit (to_digits (Semver.minor v))
             ("." :: to_digits (Semver.patch v) ++ r))
    by (apply to_digits_digits || reflexivity).
  rewrite Lb, Ascii.eqb_refl.
  rewrite (span_app is_digit (to_digits (Semver.patch v)) r)
    by (apply to_digits_digits || exact Hr).
  rewrite Lc. reflexivity.
Qed.

Lemma version_tail (v : Semver.SemVer) :
  exists r, Semver.version v = Semver.main_version v ++ r /\ stops_digits r.
Proof.
  unfold Semver.version. destruct (Semver.prerelease v).
  - exists []. now split.
  - eexists. split; [reflexivity | reflexivity].
Qed.

(** A range made of a prefix without digits and a version coerces to the
    release of that version. *)
Lemma coerce_prefix_version (p : text) (v : Semver.SemVer) :
  forallb (fun c => negb (is_digit c)) p = true -> wf v ->
  Semver.coerce (p ++ Semver.version v) = Some (release_of v).
Proof.
  intros Hp Hwf. unfold Semver.coerce.
  destruct (version_tail v) as (r & E & Hr). rewrite E.
  destruct (main_version_head v) as (c & l & Em & Hc).
  rewrite coerce_match_skip; [| assumption | rewrite Em; discriminate].
  assert (H : Semver.coerce_match (match p with [] => false | _ => false end)
                (Semver.main_version v ++ r)
              = Some (to_digits (Semver.major v),
                      (to_digits (Semver.minor v), to_digits (Semver.patch v)))).
  { destruct p; now apply coerce_match_main. }
  rewrite H. change (Semver.parse (Semver.main_version v) = Some (release_of v)).
  rewrite <- version_release_of. apply parse_version. now apply wf_release_of.
Qed.

Lemma coerce_version (v : Semver.SemVer) :
  wf v -> Semver.coerce (Semver.version v) = Some (release_of v).
Proof. intros H. now apply (coerce_prefix_version [] v). Qed.

Lemma coerce_group_digits (l ds rest : text) :
  Semver.coerce_group l = Some (ds, rest) -> forallb is_digit ds = true.
Proof.
  unfold Semver.coerce_group. destruct l as [| c l]; [discriminate |].
  destruct (Ascii.eqb c "."); [| discriminate].
  destruct (span is_digit l) as [a b] eqn:E.
  destruct (_ && _); [| discriminate]. intros H. inversion H; subst.
  now apply span_spec in E as (_ & Hd & _).
Qed.

Lemma coerce_match_digits (s : text) :
  forall b ma mi pa, Semver.coerce_match b s = Some (ma, (mi, pa)) ->
    forallb is_digit ma = true /\ forallb is_digit mi = true
    /\ forallb is_digit pa = true.
Proof.
  induction s as [| c s IH]; intros b ma mi pa E; simpl in E; [discriminate |].
  destruct (is_digit c) eqn:Hc; [| now apply (IH false)].
  destruct b; [now apply (IH true) |].
  destruct (span is_digit s) as [a r] eqn:Es.
  destruct (length (c :: a) <=? Semver.MAX_SAFE_COMPONENT_LENGTH)%nat;
    [| now apply (IH true)].
  inversion E; subst ma. clear E. rename H1 into E.
  apply span_spec in Es as (_ & Ha & _).
  split; [simpl; now rewrite Hc |].
  unfold Semver.coerce_groups in E.
  destruct (Semver.coerce_group r) as [[mi' r2] |] eqn:E1.
  - apply coerce_group_digits in E1.
    destruct (Semver.coerce_group r2) as [[pa' r3] |] eqn:E2.
    + apply coerce_group_digits in E2. inversion E; subst. now split.
    + inversion E; subst. now split.
  - inversion E; subst. now split.
Qed.

Lemma Forall_drop_while (P : ascii -> Prop) (p : ascii -> bool) (l : text) :
  Forall P l -> Forall P (drop_while p l).
Proof.
  induction 1 as [| c l Hc Hl IH]; simpl; [constructor |].
  destruct (p c); [exact IH | now constructor].
Qed.

Lemma lacks_parse_release (t : text) (v : Semver.SemVer) :
  lacks "-" t -> Semver.parse t = Some v -> Semver.prerelease v = [].
Proof.
  intros Hl. unfold Semver.parse.
  destruct (Semver.MAX_LENGTH <? length t)%nat; [discriminate |].
  assert (H1 : lacks "-" (Semver.strip_v (trim t))).
  { assert (H0 : lacks "-" (trim t)).
    { unfold trim. apply Forall_rev, Forall_drop_while, Forall_rev, Forall_drop_while, Hl. }
    unfold Semver.strip_v. destruct (trim t) as [| c l]; [constructor |].
    destruct (Ascii.eqb c "v"); [now inversion H0 | exact H0]. }
  destruct (cut "+" (Semver.strip_v (trim t))) as [mp build] eqn:Eb.
  apply cut_spec in Eb. rewrite Eb in H1. apply lacks_app in H1 as [H1 _].
  rewrite (cut_none "-" mp H1).
  destruct (Semver.valid_build build); [| discriminate].
  destruct (split_on "." mp) as [| a [| b [| c [| ? ?]]]]; try discriminate.
  destruct (Semver.parse_numeric a), (Semver.parse_numeric b), (Semver.parse_numeric c);
    try discriminate.
  simpl. intros H. now inversion H.
Qed.

Lemma coerce_wf (s : text) (v : Semver.SemVer) :
  Semver.coerce s = Some v -> wf v /\ Semver.prerelease v = [].
Proof.
  unfold Semver.coerce.
  destruct (Semver.coerce_match false s) as [[ma [mi pa]] |] eqn:E; [| discriminate].
  intros H. split; [eapply parse_wf, H |].
  apply coerce_match_digits in E as (Ha & Hb & Hc).
  eapply lacks_parse_release; [| exact H].
  assert (Hd : forall x, forallb is_digit x = true -> lacks "-" x)
    by (intros x; apply lacks_class, digit_not_hyphen).
  apply lacks_app; split; [now apply Hd |]. constructor; [reflexivity |].
  apply lacks_app; split; [now apply Hd |]. constructor; [reflexivity |].
  now apply Hd.
Qed.

(** ** The [semver] package on printed versions *)

Lemma construct_version (v : Semver.SemVer) :
  wf v -> Semver.construct (Some (Semver.version v)) = Ok v.
Proof. intros H. unfold Semver.construct. now rewrite parse_version. Qed.

Lemma diff_versions (a b : Semver.SemVer) :
  wf a -> wf b ->
  Semver.diff (Some (Semver.version a)) (Some (Semver.version b))
  = Ok (Semver.diffParsed a b).
Proof.
  intros Ha Hb. unfold Semver.diff. now rewrite !construct_version.
Qed.

Lemma gt_versions (a b : Semver.SemVer) :
  wf a -> wf b ->
  Semver.gt (Some (Semver.version a)) (Some (Semver.version b))
  = Ok (Semver.is_gt (Semver.compare a b)).
Proof. intros Ha Hb. unfold Semver.gt. now rewrite !construct_version. Qed.

Lemma lt_versions (a b : Semver.SemVer) :
  wf a -> wf b ->
  Semver.lt (Some (Semver.version a)) (Some (Semver.version b))
  = Ok (Semver.is_lt (Semver.compare a b)).
Proof. intros Ha Hb. unfold Semver.lt. now rewrite !construct_version. Qed.

Lemma gte_versions (a b : Semver.SemVer) :
  wf a -> wf b ->
  Semver.gte (Some (Semver.version a)) (Some (Semver.version b))
  = Ok (negb (Semver.is_lt (Semver.compare a b))).
Proof. intros Ha Hb. unfold Semver.gte. now rewrite !construct_version. Qed.

Lemma isVersionPrerelease_version (v : Semver.SemVer) :
  wf v -> isVersionPrerelease (Some (Semver.version v)) = has_prerelease v.
Proof. intros H. unfold isVersionPrerelease. now rewrite parse_version. Qed.

Lemma version_nonempty (v : Semver.SemVer) : Semver.version v <> [].
Proof.
  unfold Semver.version. destruct (main_version_head v) as (c & l & E & _).
  rewrite E. discriminate.
Qed.

(** ** [findVersion] and its loop on parsed versions *)

Lemma step_parsed_wf d o usePre semvers st version parsed :
  wf (fst st) -> wf parsed ->
  wf (fst (step_parsed d o usePre semvers st version parsed)).
Proof.
  intros Hst Hp. destruct st as [temp tempDate]. unfold step_parsed.
  destruct (has_prerelease parsed && _); [exact Hst |].
  destruct (Semver.diffParsed temp parsed); [| exact Hst].
  destruct (negb _); [exact Hst |].
  destruct (useGreatest o), (time d) as [t |];
    try (destruct (negb _); [exact Hp | exact Hst]).
  destruct (time_of t version); [| exact Hst].
  destruct (_ && _); [exact Hp | exact Hst].
Qed.

Lemma findVersion_step_parsed d o usePre semvers st version parsed :
  wf (fst st) -> Semver.parse version = Some parsed ->
  findVersion_step d o usePre semvers (repr st) version
  = Ok (repr (step_parsed d o usePre semvers st version parsed)).
Proof.
  intros Hst Hparse. pose proof (parse_wf _ _ Hparse) as Hp.
  destruct st as [temp tempDate]. unfold repr. cbn [fst snd] in *.
  unfold findVersion_step, step_parsed.
  rewrite Hparse. cbn [non_null bind].
  fold (has_prerelease parsed).
  destruct (has_prerelease parsed && _); [reflexivity |].
  rewrite diff_versions by assumption. cbn [bind].
  destruct (Semver.diffParsed temp parsed) as [c |]; [| reflexivity].
  destruct (negb (Semver.includes semvers c)); [reflexivity |].
  assert (Hg : (coerced <- non_null (Semver.coerce (Semver.version parsed)) ;;
                ge <- Semver.gte (Some (Semver.version coerced)) (Some (Semver.version temp)) ;;
                (if ge then Ok (Some (Semver.version parsed), tempDate)
                 else Ok (Some (Semver.version temp), tempDate)))
               = Ok (let (t, dt) :=
                       if negb (Semver.is_lt (Semver.compare (release_of parsed) temp))
                       then (parsed, tempDate) else (temp, tempDate) in
                     (Some (Semver.version t), dt))).
  { rewrite coerce_version by assumption. cbn [non_null bind].
    rewrite gte_versions by (try apply wf_release_of; assumption). cbn [bind].
    now destruct (negb _). }
  destruct (useGreatest o), (time d) as [t |];
    try (rewrite Hg; now destruct (negb (Semver.is_lt _))).
  destruct (time_of t version) as [date |]; [| reflexivity].
  now destruct (_ && _).
Qed.

Lemma findVersion_loop_parsed d o usePre semvers versions :
  forall st, wf (fst st) -> Forall parses versions ->
    findVersion_loop d o usePre semvers versions (repr st)
    = Ok (repr (loop_parsed d o usePre semvers versions st))
    /\ wf (fst (loop_parsed d o usePre semvers versions st)).
Proof.
  induction versions as [| x rest IH]; intros st Hst Hall.
  - now split.
  - inversion Hall as [| ? ? Hx Hrest]; subst.
    unfold parses in Hx. cbn [findVersion_loop loop_parsed].
    destruct (Semver.parse x) as [xv |] eqn:Ex; [| congruence].
    rewrite (findVersion_step_parsed _ _ _ _ _ _ xv) by assumption.
    cbn [bind]. apply IH; [| assumption].
    apply step_parsed_wf; [assumption | eapply parse_wf, Ex].
Qed.

(** [findVersion] returns the text of the candidate: it does not throw
    when the range coerces and the texts scanned are versions. *)
Lemma findVersion_candidate d o versions base :
  Semver.coerce (range o) = Some base -> Forall parses versions ->
  findVersion d versions o = Ok (Some (Semver.version (candidate d o versions base)))
  /\ wf (candidate d o versions base).
Proof.
  intros Hc Hall. pose proof (coerce_wf _ _ Hc) as [Hwf _].
  unfold findVersion, rangeToVersion, candidate. rewrite Hc.
  destruct (findVersion_loop_parsed d o (isRangePrerelease (range o) || usePre o)
              (accepted (semvers o) (isRangePrerelease (range o) || usePre o))
              versions (base, 0%Z) Hwf Hall) as [E Hw].
  unfold repr in E. cbn [fst snd] in E. rewrite E. cbn [bind fst].
  split; [| exact Hw].
  unfold or_null. clear E.
  match goal with
  | |- context [Semver.version ?x] => destruct (Semver.version x) eqn:Ev
  end; [| reflexivity].
  exfalso. eapply version_nonempty, Ev.
Qed.

Lemma filter_valid_parses (l : list text) :
  Forall parses (filter (fun v => is_some (Semver.valid v)) l).
Proof.
  apply Forall_forall. intros x Hx. apply filter_In in Hx as [_ Hx].
  unfold parses, Semver.valid in *. destruct (Semver.parse x); [discriminate | discriminate].
Qed.

(** ** Diff classes *)

Lemma compare_main_eq (a b : Semver.SemVer) :
  Semver.major a = Semver.major b -> Semver.minor a = Semver.minor b ->
  Semver.patch a = Semver.patch b ->
  Semver.compare a b = Semver.comparePre a b.
Proof.
  intros H1 H2 H3. unfold Semver.compare, Semver.compareMain.
  now rewrite H1, H2, H3, !N.compare_refl.
Qed.

Lemma compare_eq_main (a b : Semver.SemVer) :
  Semver.is_eq (Semver.compare a b) = true ->
  Semver.major a = Semver.major b /\ Semver.minor a = Semver.minor b
  /\ Semver.patch a = Semver.patch b.
Proof.
  unfold Semver.compare, Semver.compareMain.
  destruct (N.compare_spec (Semver.major a) (Semver.major b)); try discriminate.
  destruct (N.compare_spec (Semver.minor a) (Semver.minor b)); try discriminate.
  destruct (N.compare_spec (Semver.patch a) (Semver.patch b)); try discriminate.
  auto.
Qed.

(** The diff class is accepted exactly when the versions differ, agree
    above the ceiling, and prereleases are in use if one of them is one. *)
Lemma class_accepted_iff (semvers : list Semver.ReleaseType) (usePre : bool)
    (a b : Semver.SemVer) :
  In semvers ceilings ->
  class_accepted semvers usePre a b
  = negb (Semver.is_eq (Semver.compare a b)) && within semvers a b
    && (usePre || (negb (has_prerelease a) && negb (has_prerelease b))).
Proof.
  intros Hs. unfold class_accepted, Semver.diffParsed, within, has_prerelease.
  destruct (Semver.is_eq (Semver.compare a b)) eqn:Heq; [reflexivity |].
  destruct (N.eqb_spec (Semver.major a) (Semver.major b)) as [E1 | E1];
  destruct (N.eqb_spec (Semver.minor a) (Semver.minor b)) as [E2 | E2];
  destruct (N.eqb_spec (Semver.patch a) (Semver.patch b)) as [E3 | E3];
  try rewrite (compare_main_eq a b E1 E2 E3) in Heq;
  unfold Semver.comparePre in *;
  destruct (Semver.prerelease a), (Semver.prerelease b);
  try discriminate Heq;
  simpl in Hs; destruct Hs as [<- | [<- | [<- | []]]]; destruct usePre; reflexivity.
Qed.

Lemma within_refl semvers a : within semvers a a = true.
Proof. unfold within. now rewrite !N.eqb_refl, !orb_true_r. Qed.

Lemma within_trans semvers a b c :
  within semvers a b = true -> within semvers b c = true -> within semvers a c = true.
Proof.
  unfold within. intros H1 H2.
  apply andb_prop in H1 as [H1 H1']. apply andb_prop in H2 as [H2 H2'].
  apply andb_true_intro. split.
  - destruct (Semver.includes semvers Semver.Major); [reflexivity |]. simpl in *.
    apply N.eqb_eq in H1, H2. apply N.eqb_eq. congruence.
  - destruct (Semver.includes semvers Semver.Minor); [reflexivity |]. simpl in *.
    apply N.eqb_eq in H1', H2'. apply N.eqb_eq. congruence.
Qed.

(** A round of the loop that changes the candidate takes a version whose
    class from the candidate is accepted. *)
Lemma step_parsed_cases d o usePre semvers st version parsed :
  let st' := step_parsed d o usePre (accepted semvers usePre) st version parsed in
  st' = st
  \/ (fst st' = parsed
      /\ (has_prerelease parsed && (negb usePre || useRel o)) = false
      /\ class_accepted semvers usePre (fst st) parsed = true).
Proof.
  destruct st as [temp tempDate]. unfold step_parsed, class_accepted. cbn [fst].
  destruct (has_prerelease parsed && _) eqn:Hf; [now left |].
  destruct (Semver.diffParsed temp parsed) as [c |]; [| now left].
  destruct (Semver.includes (accepted semvers usePre) c); [| now left]. cbn [negb].
  destruct (useGreatest o), (time d) as [t |];
    try (case_if; [right; now repeat split | now left]).
  destruct (time_of t version); [| now left].
  case_if; [right; now repeat split | now left].
Qed.

Lemma step_parsed_inv d o usePre semvers base st version parsed :
  In semvers ceilings ->
  candidate_inv semvers usePre base (fst st) ->
  candidate_inv semvers usePre base
    (fst (step_parsed d o usePre (accepted semvers usePre) st version parsed)).
Proof.
  intros Hs [Hw Hp].
  destruct (step_parsed_cases d o usePre semvers st version parsed)
    as [-> | (-> & Hf & Hc)]; [now split |].
  rewrite class_accepted_iff in Hc by assumption.
  apply andb_prop in Hc as [Hc Hpre]. apply andb_prop in Hc as [_ Hw'].
  split; [eapply within_trans; eassumption |].
  intros ->. simpl in Hpre. apply andb_prop in Hpre as [_ Hpre].
  now apply negb_true_iff in Hpre.
Qed.

Lemma loop_parsed_inv d o usePre semvers base versions :
  In semvers ceilings ->
  forall st, candidate_inv semvers usePre base (fst st) ->
    candidate_inv semvers usePre base
      (fst (loop_parsed d o usePre (accepted semvers usePre) versions st)).
Proof.
  intros Hs. induction versions as [| x rest IH]; intros st Hst; [exact Hst |].
  cbn [loop_parsed]. destruct (Semver.parse x) as [xv |]; [| exact Hst].
  apply IH. now apply step_parsed_inv.
Qed.

Lemma candidate_invariant d o versions base :
  In (semvers o) ceilings -> has_prerelease base = false ->
  candidate_inv (semvers o) (isRangePrerelease (range o) || usePre o) base
    (candidate d o versions base).
Proof.
  intros Hs Hb. unfold candidate. apply loop_parsed_inv; [assumption |].
  split; [apply within_refl | now intros _].
Qed.

(** The class from the base to a version that the invariant holds of is
    none or accepted. *)
Lemma inv_class semvers usePre base v :
  In semvers ceilings -> has_prerelease base = false ->
  candidate_inv semvers usePre base v ->
  match Semver.diffParsed base v with
  | None => True
  | Some c => Semver.includes (accepted semvers usePre) c = true
  end.
Proof.
  intros Hs Hb [Hw Hp].
  pose proof (class_accepted_iff semvers usePre base v Hs) as H.
  unfold class_accepted in H.
  destruct (Semver.diffParsed base v) as [c |] eqn:Ed; [| exact I].
  rewrite H, Hw, Hb.
  unfold Semver.diffParsed in Ed.
  destruct (Semver.is_eq (Semver.compare base v)); [discriminate |].
  destruct usePre; [reflexivity |]. now rewrite Hp.
Qed.

(** ** [findNewVersion] on parsed versions *)

Lemma findNewVersion_greatest A d o base :
  text_eqb (range o) (str "*") = false -> useGreatest o = true ->
  Semver.coerce (range o) = Some base ->
  findNewVersion A d o
  = Ok (Some (Semver.version (candidate d o (valid_versions d) base))).
Proof.
  intros Hr Hg Hc. unfold findNewVersion. rewrite Hr.
  destruct (findVersion_candidate d o (valid_versions d) base Hc
              (filter_valid_parses _)) as [E _].
  unfold valid_versions in E. rewrite E. cbn [bind]. now rewrite Hg.
Qed.

Lemma findNewVersion_reconcile A d o base :
  text_eqb (range o) (str "*") = false -> useGreatest o = false ->
  Semver.coerce (range o) = Some base ->
  findNewVersion A d o = reconcile A d o base (candidate d o (valid_versions d) base).
Proof.
  intros Hr Hg Hc. unfold findNewVersion. rewrite Hr.
  destruct (findVersion_candidate d o (valid_versions d) base Hc
              (filter_valid_parses _)) as [E Hw].
  pose proof (coerce_wf _ _ Hc) as [Hb _].
  unfold valid_versions in E. rewrite E. cbn [bind]. rewrite Hg, Hc. cbn [non_null bind].
  fold (valid_versions d).
  rewrite gt_versions, isVersionPrerelease_version by assumption. cbn [bind].
  unfold reconcile.
  repeat (case_if; [reflexivity |]).
  unfold Semver.diff, Semver.lt, isVersionPrerelease.
  rewrite !construct_version by assumption. unfold Semver.construct. cbn [bind].
  destruct (latest d) as [tag |]; [| reflexivity].
  destruct (Semver.parse tag) as [tv |]; [| reflexivity].
  cbn [non_null bind]. fold (has_prerelease tv).
  repeat (case_if; [reflexivity |]). reflexivity.
Qed.

Lemma findVersion_loop_null d o usePre semvers versions tempDate :
  findVersion_loop d o usePre semvers versions (None, tempDate) = Throw
  \/ findVersion_loop d o usePre semvers versions (None, tempDate)
     = Ok (None, tempDate).
Proof.
  induction versions as [| x rest IH]; [now right |].
  cbn [findVersion_loop].
  assert (Hstep : findVersion_step d o usePre semvers (None, tempDate) x = Throw
                  \/ findVersion_step d o usePre semvers (None, tempDate) x
                     = Ok (None, tempDate)).
  { unfold findVersion_step.
    destruct (Semver.parse x) as [xv |]; [| now left]. cbn [non_null bind].
    case_if; [now right | now left]. }
  destruct Hstep as [-> | ->]; [now left | exact IH].
Qed.

(** A range that does not coerce: [findNewVersion] throws or returns
    [null]. *)
Lemma findNewVersion_uncoercible A d o :
  text_eqb (range o) (str "*") = false -> Semver.coerce (range o) = None ->
  findNewVersion A d o = Throw \/ findNewVersion A d o = Ok None.
Proof.
  intros Hr Hc. unfold findNewVersion, findVersion, rangeToVersion. rewrite Hr, Hc.
  match goal with
  | |- context [findVersion_loop ?d ?o ?u ?s ?v (None, ?dt)] =>
      destruct (findVersion_loop_null d o u s v dt) as [E | E]; rewrite E
  end; cbn [bind fst or_null]; [now left |].
  destruct (useGreatest o); [now right | now left].
Qed.

Lemma policy_semvers_ceiling (args : flags) (nm : text) :
  In (policy_semvers args nm) ceilings.
Proof.
  unfold policy_semvers, ceilings.
  destruct (applies (patch args) nm); [now left |].
  destruct (applies (minor args) nm); [right; now left | right; right; now left].
Qed.

Lemma has_prerelease_nil (v : Semver.SemVer) :
  Semver.prerelease v = [] -> has_prerelease v = false.
Proof. unfold has_prerelease. now intros ->. Qed.

(** The candidate of [findVersion]: its class from the coerced range is
    none or accepted. *)
Lemma candidate_class d o versions base :
  In (semvers o) ceilings -> Semver.coerce (range o) = Some base ->
  wf (candidate d o versions base) ->
  class_none_or_accepted o (Semver.version (candidate d o versions base)).
Proof.
  intros Hs Hc Hw. pose proof (coerce_wf _ _ Hc) as [Hb Hnil].
  apply has_prerelease_nil in Hnil.
  exists (Semver.diffParsed base (candidate d o versions base)). split.
  - unfold diff_class, rangeToVersion. rewrite Hc. now apply diff_versions.
  - apply inv_class; [assumption | assumption |]. now apply candidate_invariant.
Qed.

(** ** The scenarios of the tests *)

(** Test [latest]: a prerelease range follows the prereleases. *)
Example latest_follows_prereleases :
  findNewVersion (Flag false) html_webpack_plugin (default_opts "4.0.0-alpha.2")
  = Ok (Some (str "4.0.0-beta.11")).
Proof. vm_compute. reflexivity. Qed.

(** Test [release]: release-only goes back to the newest release. *)
Example release_only_downgrades :
  findNewVersion (Flag false) html_webpack_plugin
    (mkOpts false true false all_classes (str "4.0.0-alpha.2"))
  = Ok (Some (str "3.2.0"))
  /\ findNewVersion (Flag false) svgstore
       (mkOpts false true false all_classes (str "^3.0.0"))
     = Ok (Some (str "2.0.3"))
  /\ updateRange (str "^3.0.0") (Some (str "2.0.3")) = str "^2.0.3".
Proof. repeat split; vm_compute; reflexivity. Qed.

(** Test [prerelease]: greatest mode with prereleases takes [3.0.0-2] for
    [^3.0.0]. *)
Example greatest_prerelease :
  findNewVersion (Flag false) svgstore
    (mkOpts true false true all_classes (str "^3.0.0"))
  = Ok (Some (str "3.0.0-2")).
Proof. vm_compute. reflexivity. Qed.

(** Test [patch]: the patch ceiling keeps [2.0.1] and leaves [2.6.5]. *)
Example patch_ceiling :
  findNewVersion (Flag false) gulp_sourcemaps
    (mkOpts false false false [Semver.Patch] (str "2.0.0"))
  = Ok (Some (str "2.0.1"))
  /\ findNewVersion (Flag false) gulp_sourcemaps (default_opts "2.0.0")
     = Ok (Some (str "2.6.5")).
Proof. split; vm_compute; reflexivity. Qed.

(** ** C1: the diff class of the version returned *)

(** C1, as amended.  For a range other than [*] and an array [semvers]
    built from the policy ceiling, a version returned by [findNewVersion] is
    the candidate of [findVersion], whose diff class from the coerced range
    is none (the coerced range itself) or a member of the accepted set, or
    it is the latest dist-tag, whose class is none, bare [prerelease], or
    within the ceiling once its [pre] is dropped. *)
Theorem C1_class_of_result (A : mixedArg) (d : data) (o : opts) (v : text) :
  In (semvers o) ceilings ->
  range o <> str "*" ->
  findNewVersion A d o = Ok (Some v) ->
  class_none_or_accepted o v
  \/ (useGreatest o = false /\ latest d = Some v /\ tag_class_allowed o v).
Proof.
  intros Hs Hr H. apply text_eqb_neq in Hr.
  destruct (Semver.coerce (range o)) as [base |] eqn:Hc.
  2:{ destruct (findNewVersion_uncoercible A d o Hr Hc) as [E | E];
      rewrite E in H; discriminate. }
  destruct (findVersion_candidate d o (valid_versions d) base Hc
              (filter_valid_parses _)) as [_ Hw].
  pose proof (candidate_class d o (valid_versions d) base Hs Hc Hw) as Hcand.
  destruct (useGreatest o) eqn:Hg.
  - rewrite (findNewVersion_greatest A d o base Hr Hg Hc) in H.
    inversion H; subst v. now left.
  - rewrite (findNewVersion_reconcile A d o base Hr Hg Hc) in H.
    unfold reconcile in H.
    do 3 (case_if_in H; [inversion H; subst v; now left |]).
    case_if_in H; [discriminate |].
    destruct (latest d) as [tag |] eqn:Ht; [| discriminate].
    destruct (Semver.parse tag) as [tv |] eqn:Ep; [| discriminate].
    do 2 (case_if_in H; [inversion H; subst v; now left |]).
    assert (Htag : tag_class_allowed o tag).
    { exists (Semver.diffParsed base tv). split.
      - unfold diff_class, rangeToVersion, Semver.diff. rewrite Hc.
        rewrite construct_version by (eapply coerce_wf, Hc).
        unfold Semver.construct. now rewrite Ep.
      - destruct (Semver.diffParsed base tv) as [c |]; [| exact I].
        match goal with
        | Hx : negb (Semver.ReleaseType_eqb c Semver.Prerelease) && _ = false |- _ =>
            apply andb_false_iff in Hx as [Hx | Hx]; apply negb_false_iff in Hx
        end.
        + left. now destruct c.
        + now right. }
    assert (Hv : v = tag)
      by (case_if_in H; [case_if_in H; [| discriminate] |]; now inversion H).
    subst v. right. now repeat split.
Qed.

(** C1, a version it speaks of: the dist-tag returned for [^3.0.0]. *)
Lemma C1_class_of_result_witness :
  class_none_or_accepted (default_opts "^3.0.0") (str "3.0.0-2")
  \/ (useGreatest (default_opts "^3.0.0") = false
      /\ latest svgstore = Some (str "3.0.0-2")
      /\ tag_class_allowed (default_opts "^3.0.0") (str "3.0.0-2")).
Proof.
  apply (C1_class_of_result (Flag false) svgstore (default_opts "^3.0.0")
           (str "3.0.0-2")).
  - simpl. tauto.
  - discriminate.
  - vm_compute. reflexivity.
Defined.

(** C1, as stated, fails: in greatest mode a dependency that is up to date
    gets the coerced range itself, whose diff class is none. *)
Lemma C1_counterexample :
  findNewVersion (Flag false) up_to_date (greatest_opts "1.0.0")
  = Ok (Some (str "1.0.0"))
  /\ ~ class_in_accepted_set (greatest_opts "1.0.0") (str "1.0.0").
Proof.
  split; [vm_compute; reflexivity |].
  intros (c & H & _). vm_compute in H. discriminate.
Qed.

(** ** C10: the range [*] *)



(** ** C9: a range that does not coerce *)

(** C9 fails on the code.  For a range that does not coerce,
    [rangeToVersion] returns [null] and [findNewVersion] never returns a
    version: it throws, or returns [null] in greatest mode when no version
    is scanned; outside greatest mode it always throws.  The range [x] is
    one: [findNewVersion] throws, in [semver.diff] on the [null] base for a
    package with versions, in [semver.coerce(opts.range).version] for one
    without. *)
Theorem C9_uncoercible_range_throws :
  (forall A d o,
      range o <> str "*" -> Semver.coerce (range o) = None ->
      rangeToVersion (range o) = None
      /\ (findNewVersion A d o = Throw \/ findNewVersion A d o = Ok None)
      /\ (useGreatest o = false -> findNewVersion A d o = Throw))
  /\ rangeToVersion (str "x") = None
  /\ findNewVersion (Flag false) up_to_date (default_opts "x") = Throw
  /\ findNewVersion (Flag false) up_to_date (greatest_opts "x") = Throw
  /\ findNewVersion (Flag false)
       (mkData (str "pkg") [] None (Some (str "1.0.0")) None) (default_opts "x")
     = Throw.
Proof.
  split; [| repeat split; vm_compute; reflexivity].
  intros A d o Hr Hc. apply text_eqb_neq in Hr.
  split; [unfold rangeToVersion; now rewrite Hc |].
  split; [now apply findNewVersion_uncoercible |].
  intros Hg. unfold findNewVersion, findVersion, rangeToVersion.
  rewrite Hr, Hc, Hg.
  match goal with
  | |- context [findVersion_loop ?d ?o ?u ?s ?v (None, ?dt)] =>
      destruct (findVersion_loop_null d o u s v dt) as [E | E]; rewrite E
  end; reflexivity.
Qed.

(** The range [x.x] does not coerce either. *)
Lemma C9_uncoercible_range_throws_witness :
  rangeToVersion (range (default_opts "x.x")) = None
  /\ (findNewVersion (Flag false) up_to_date (default_opts "x.x") = Throw
      \/ findNewVersion (Flag false) up_to_date (default_opts "x.x") = Ok None)
  /\ (useGreatest (default_opts "x.x") = false ->
      findNewVersion (Flag false) up_to_date (default_opts "x.x") = Throw).
Proof.
  apply (proj1 C9_uncoercible_range_throws (Flag false) up_to_date (default_opts "x.x")).
  - discriminate.
  - reflexivity.
Defined.

(** ** C5: a prerelease tagged [latest] *)

Lemma diff_class_inv (o : opts) (v : text) (r : option Semver.ReleaseType) :
  diff_class o v = Ok r ->
  exists base tv, Semver.coerce (range o) = Some base /\ Semver.parse v = Some tv
                  /\ r = Semver.diffParsed base tv.
Proof.
  unfold diff_class, rangeToVersion, Semver.diff.
  destruct (Semver.coerce (range o)) as [base |] eqn:Hc; [| discriminate].
  rewrite construct_version by (eapply coerce_wf, Hc). cbn [bind].
  unfold Semver.construct. destruct (Semver.parse v) as [tv |]; [| discriminate].
  cbn [non_null bind]. intros H. inversion H. now exists base, tv.
Qed.

(** C5, as amended.  When the latest dist-tag is a prerelease, neither
    release-only nor the prerelease option is requested, the old range is
    not itself a prerelease and the tag's class from the coerced range is
    none, bare [prerelease] or within the ceiling once its [pre] is
    dropped, [findNewVersion] returns the tag; so [^3.0.0] with [3.0.0-2]
    tagged [latest] becomes [^3.0.0-2]. *)
Theorem C5_prerelease_latest_tag :
  (forall (A : mixedArg) (d : data) (o : opts) (tag : text),
      range o <> str "*" ->
      useGreatest o = false -> useRel o = false -> usePre o = false ->
      isRangePrerelease (range o) = false ->
      latest d = Some tag ->
      isVersionPrerelease (Some tag) = true ->
      tag_class_allowed o tag ->
      findNewVersion A d o = Ok (Some tag))
  /\ findNewVersion (Flag false) svgstore (default_opts "^3.0.0")
     = Ok (Some (str "3.0.0-2"))
  /\ updateRange (str "^3.0.0") (Some (str "3.0.0-2")) = str "^3.0.0-2".
Proof.
  split; [| split; vm_compute; reflexivity].
  intros A d o tag Hr Hg Hrel Hpre Hold Ht Htp (r & Hd & Hclass).
  apply text_eqb_neq in Hr.
  destruct (diff_class_inv _ _ _ Hd) as (base & tv & Hc & Ep & ->).
  rewrite (findNewVersion_reconcile A d o base Hr Hg Hc).
  unfold reconcile. rewrite Hrel, Hpre, Hold, Ht, Ep. cbn [negb andb orb].
  unfold isVersionPrerelease in Htp. rewrite Ep in Htp. fold (has_prerelease tv) in Htp.
  rewrite Htp, andb_false_r.
  destruct (Semver.diffParsed base tv) as [c |]; [| reflexivity].
  destruct Hclass as [-> | Hin]; [reflexivity |].
  now rewrite Hin, andb_false_r.
Qed.

Lemma C5_prerelease_latest_tag_witness :
  findNewVersion (Flag false) svgstore (default_opts "^3.0.0")
  = Ok (Some (str "3.0.0-2")).
Proof.
  apply (proj1 C5_prerelease_latest_tag (Flag false) svgstore
           (default_opts "^3.0.0") (str "3.0.0-2")); try reflexivity.
  - discriminate.
  - exists (Some Semver.Prerelease). split; [vm_compute; reflexivity | now left].
Defined.

(** C5, as stated, fails when the old range is itself a prerelease: the
    tag [1.0.0-rc] is a prerelease, is not the candidate and has an accepted
    class, yet the candidate [1.0.0-beta], published later, is returned. *)
Lemma C5_counterexample :
  isVersionPrerelease (latest prerelease_track) = true
  /\ useRel (default_opts "1.0.0-alpha") = false
  /\ findVersion prerelease_track (valid_versions prerelease_track)
       (default_opts "1.0.0-alpha") = Ok (Some (str "1.0.0-beta"))
  /\ class_in_accepted_set (default_opts "1.0.0-alpha") (str "1.0.0-rc")
  /\ findNewVersion (Flag false) prerelease_track (default_opts "1.0.0-alpha")
     = Ok (Some (str "1.0.0-beta"))
  /\ findNewVersion (Flag false) prerelease_track (default_opts "1.0.0-alpha")
     <> Ok (latest prerelease_track).
Proof.
  repeat split; try (vm_compute; reflexivity).
  - exists Semver.Prerelease. split; vm_compute; reflexivity.
  - vm_compute. discriminate.
Qed.

(** ** C2: downgrades *)




(** ** C3: greatest mode *)

Lemma compareMain_gt (a b : Semver.SemVer) :
  Semver.is_gt (Semver.compareMain a b) = true <->
  (Semver.major b < Semver.major a
   \/ (Semver.major a = Semver.major b
       /\ (Semver.minor b < Semver.minor a
           \/ (Semver.minor a = Semver.minor b
               /\ Semver.patch b < Semver.patch a))))%N.
Proof.
  unfold Semver.compareMain.
  destruct (N.compare_spec (Semver.major a) (Semver.major b));
  destruct (N.compare_spec (Semver.minor a) (Semver.minor b));
  destruct (N.compare_spec (Semver.patch a) (Semver.patch b));
  simpl; split; intros; try discriminate; try reflexivity; lia.
Qed.

Lemma compareMain_lt (a b : Semver.SemVer) :
  Semver.is_lt (Semver.compareMain a b) = true <->
  Semver.is_gt (Semver.compareMain b a) = true.
Proof.
  rewrite compareMain_gt. unfold Semver.compareMain.
  destruct (N.compare_spec (Semver.major a) (Semver.major b));
  destruct (N.compare_spec (Semver.minor a) (Semver.minor b));
  destruct (N.compare_spec (Semver.patch a) (Semver.patch b));
  simpl; split; intros; try discriminate; try reflexivity; lia.
Qed.

Lemma main_le_iff (a b : Semver.SemVer) :
  main_le a b <->
  (Semver.major a < Semver.major b
   \/ (Semver.major a = Semver.major b
       /\ (Semver.minor a < Semver.minor b
           \/ (Semver.minor a = Semver.minor b
               /\ Semver.patch a <= Semver.patch b))))%N.
Proof.
  unfold main_le. pose proof (compareMain_gt a b) as H.
  destruct (Semver.is_gt (Semver.compareMain a b)).
  - split; [discriminate |]. intros Hle. assert (true = true) as Ht by reflexivity.
    apply H in Ht. lia.
  - split; [| reflexivity]. intros _.
    assert (Hn : ~ (Semver.major b < Semver.major a
             \/ Semver.major a = Semver.major b
                /\ (Semver.minor b < Semver.minor a
                    \/ Semver.minor a = Semver.minor b
                       /\ Semver.patch b < Semver.patch a))%N).
    { intros Hx. apply H in Hx. discriminate. }
    lia.
Qed.

Lemma main_le_refl a : main_le a a.
Proof. apply main_le_iff. lia. Qed.

Lemma main_le_trans a b c : main_le a b -> main_le b c -> main_le a c.
Proof. rewrite !main_le_iff. lia. Qed.

(** The comparison of [findVersion] in greatest mode, between the release
    of the version scanned and the candidate, is a comparison of numbers. *)
Lemma gte_release_main (x t : Semver.SemVer) :
  negb (Semver.is_lt (Semver.compare (release_of x) t)) = true <-> main_le t x.
Proof.
  unfold main_le.
  assert (Hm : Semver.compareMain (release_of x) t = Semver.compareMain x t) by reflexivity.
  unfold Semver.compare. rewrite Hm.
  pose proof (compareMain_lt x t) as Hlt.
  destruct (Semver.compareMain x t) eqn:E; simpl in *.
  - unfold Semver.comparePre. simpl.
    assert (Ht : Semver.is_gt (Semver.compareMain t x) = false).
    { destruct (Semver.is_gt (Semver.compareMain t x)); [| reflexivity].
      destruct Hlt as [_ Hlt]. discriminate (Hlt eq_refl). }
    rewrite Ht. destruct (Semver.prerelease t); simpl; tauto.
  - destruct Hlt as [Hlt _]. rewrite (Hlt eq_refl). split; discriminate.
  - destruct (Semver.is_gt (Semver.compareMain t x)); [| tauto].
    destruct Hlt as [_ Hlt]. discriminate (Hlt eq_refl).
Qed.

Lemma is_eq_main_le (a b : Semver.SemVer) :
  Semver.is_eq (Semver.compare a b) = true -> main_le b a.
Proof.
  intros H. apply compare_eq_main in H as (H1 & H2 & H3).
  apply main_le_iff. lia.
Qed.

Lemma within_sym semvers a b : within semvers a b = within semvers b a.
Proof. unfold within. now rewrite (N.eqb_sym (Semver.major a)), (N.eqb_sym (Semver.minor a)). Qed.

(** A version that qualifies for the base and is not taken in a round is
    the candidate's equal. *)
Lemma qualifies_not_accepted o base temp v :
  In (semvers o) ceilings ->
  candidate_inv (semvers o) (isRangePrerelease (range o) || usePre o) base temp ->
  qualifies o base v = true ->
  class_accepted (semvers o) (isRangePrerelease (range o) || usePre o) temp v = false ->
  Semver.is_eq (Semver.compare temp v) = true.
Proof.
  intros Hs [Hw Hp] Hq Hc. unfold qualifies in Hq.
  apply andb_prop in Hq as [_ Hq].
  rewrite class_accepted_iff in Hq, Hc by assumption.
  apply andb_prop in Hq as [Hq Hpre]. apply andb_prop in Hq as [_ Hwv].
  assert (Hwt : within (semvers o) temp v = true).
  { eapply within_trans; [| exact Hwv]. now rewrite within_sym. }
  rewrite Hwt in Hc.
  destruct (Semver.is_eq (Semver.compare temp v)); [reflexivity | exfalso].
  destruct (isRangePrerelease (range o) || usePre o); [discriminate |].
  simpl in *. rewrite (Hp eq_refl) in Hc.
  apply andb_prop in Hpre as [_ Hv]. rewrite Hv in Hc. discriminate.
Qed.

Lemma step_parsed_greatest d o usePre semvers temp tempDate version parsed :
  greatest_mode d o = true ->
  step_parsed d o usePre (accepted semvers usePre) (temp, tempDate) version parsed
  = if has_prerelease parsed && (negb usePre || useRel o) then (temp, tempDate)
    else if class_accepted semvers usePre temp parsed
         then if negb (Semver.is_lt (Semver.compare (release_of parsed) temp))
              then (parsed, tempDate) else (temp, tempDate)
         else (temp, tempDate).
Proof.
  intros Hg. unfold step_parsed, class_accepted.
  destruct (has_prerelease parsed && _); [reflexivity |].
  destruct (Semver.diffParsed temp parsed) as [c |]; [| reflexivity].
  destruct (Semver.includes (accepted semvers usePre) c); [| reflexivity].
  cbn [negb]. unfold greatest_mode in Hg.
  destruct (useGreatest o), (time d); try reflexivity. discriminate.
Qed.

Lemma greatest_inv_step d o base seen temp tempDate x xv :
  In (semvers o) ceilings -> greatest_mode d o = true ->
  Semver.parse x = Some xv ->
  greatest_inv o base seen temp ->
  greatest_inv o base (seen ++ [x])
    (fst (step_parsed d o (isRangePrerelease (range o) || usePre o)
            (accepted (semvers o) (isRangePrerelease (range o) || usePre o))
            (temp, tempDate) x xv)).
Proof.
  intros Hs Hg Ex (Hinv & Hbase & Horigin & Hmax).
  pose proof (step_parsed_inv d o _ (semvers o) base (temp, tempDate) x xv Hs Hinv) as Hinv'.
  rewrite step_parsed_greatest in * by assumption.
  (* the versions seen before stay below a candidate that does not shrink *)
  assert (Hkeep : forall t', main_le temp t' ->
            forall y v, In y seen -> Semver.parse y = Some v ->
              qualifies o base v = true -> main_le v t').
  { intros t' Ht y v Hy Ev Hq. eapply main_le_trans; [| exact Ht]. eapply Hmax; eauto. }
  assert (Horigin' : temp = base
            \/ exists y, In y (seen ++ [x]) /\ Semver.parse y = Some temp
                 /\ has_prerelease temp
                    && (negb (isRangePrerelease (range o) || usePre o) || useRel o) = false).
  { destruct Horigin as [-> | (y & Hy & Ey & Hf)]; [now left | right].
    exists y. split; [apply in_or_app; now left | now split]. }
  destruct (has_prerelease xv && _) eqn:Hf; cbn [fst] in *.
  - (* filtered out: it does not qualify *)
    refine (conj Hinv' (conj Hbase (conj Horigin' _))).
    intros y v Hy Ev Hq. apply in_app_or in Hy as [Hy | [<- | []]]; [eauto |].
    rewrite Ex in Ev. inversion Ev; subst v.
    unfold qualifies in Hq. rewrite Hf in Hq. discriminate.
  - destruct (class_accepted (semvers o) _ temp xv) eqn:Hc.
    + destruct (negb (Semver.is_lt (Semver.compare (release_of xv) temp))) eqn:Hge;
        cbn [fst] in *.
      * (* taken *)
        apply gte_release_main in Hge.
        refine (conj Hinv' (conj _ (conj _ _))).
        -- eapply main_le_trans; eassumption.
        -- right. exists x. split; [apply in_or_app; right; now left | now split].
        -- intros y v Hy Ev Hq. apply in_app_or in Hy as [Hy | [<- | []]].
           ++ eapply Hkeep; eauto.
           ++ rewrite Ex in Ev. inversion Ev; subst v. apply main_le_refl.
      * (* lower than the candidate *)
        refine (conj Hinv' (conj Hbase (conj Horigin' _))).
        intros y v Hy Ev Hq. apply in_app_or in Hy as [Hy | [<- | []]]; [eauto |].
        rewrite Ex in Ev. inversion Ev; subst v. unfold main_le.
        destruct (Semver.is_gt (Semver.compareMain xv temp)) eqn:Hgt; [| reflexivity].
        exfalso. apply negb_false_iff in Hge.
        assert (Hle : main_le temp xv).
        { apply main_le_iff. apply compareMain_gt in Hgt. lia. }
        apply gte_release_main in Hle. rewrite Hge in Hle. discriminate.
    + (* its class from the candidate is not accepted *)
      refine (conj Hinv' (conj Hbase (conj Horigin' _))).
      intros y v Hy Ev Hq. apply in_app_or in Hy as [Hy | [<- | []]]; [eauto |].
      rewrite Ex in Ev. inversion Ev; subst v.
      apply is_eq_main_le. eapply qualifies_not_accepted; eassumption.
Qed.

Lemma greatest_inv_loop d o base versions :
  In (semvers o) ceilings -> greatest_mode d o = true ->
  Forall parses versions ->
  forall seen st, greatest_inv o base seen (fst st) ->
    greatest_inv o base (seen ++ versions)
      (fst (loop_parsed d o (isRangePrerelease (range o) || usePre o)
              (accepted (semvers o) (isRangePrerelease (range o) || usePre o))
              versions st)).
Proof.
  intros Hs Hg Hall. induction Hall as [| x rest Hx _ IH]; intros seen st Hst.
  - now rewrite app_nil_r.
  - cbn [loop_parsed]. unfold parses in Hx.
    destruct (Semver.parse x) as [xv |] eqn:Ex; [| congruence].
    replace (seen ++ x :: rest) with ((seen ++ [x]) ++ rest)
      by (now rewrite <- app_assoc).
    apply IH. destruct st as [temp tempDate]. now apply greatest_inv_step.
Qed.

Lemma compare_eq_release (base v : Semver.SemVer) :
  Semver.prerelease base = [] ->
  Semver.is_eq (Semver.compare base v) = true -> v = base.
Proof.
  intros Hb H. pose proof (compare_eq_main _ _ H) as (H1 & H2 & H3).
  rewrite (compare_main_eq _ _ H1 H2 H3) in H.
  unfold Semver.comparePre in H. rewrite Hb in H.
  destruct base, v; simpl in *. subst.
  destruct prerelease1; [reflexivity | discriminate].
Qed.

(** C3, as amended.  In greatest mode, or without publish times, for a
    range that coerces and texts that are versions, [findVersion] returns a
    version that is the coerced range or a catalog version that qualifies
    (it passes the prerelease filter and its diff class from the coerced
    range is accepted), and no qualifying catalog version has greater
    major, minor and patch numbers; when prereleases are not in use, no
    qualifying catalog version exceeds it in the order of [semver]. *)
Theorem C3_greatest_maximum (d : data) (o : opts) (versions : list text)
    (base : Semver.SemVer) :
  In (semvers o) ceilings ->
  greatest_mode d o = true ->
  Semver.coerce (range o) = Some base ->
  Forall parses versions ->
  exists r,
    findVersion d versions o = Ok (Some (Semver.version r))
    /\ (r = base
        \/ exists x, In x versions /\ Semver.parse x = Some r
                     /\ qualifies o base r = true)
    /\ (forall x v, In x versions -> Semver.parse x = Some v ->
          qualifies o base v = true -> main_le v r)
    /\ (isRangePrerelease (range o) || usePre o = false ->
        forall x v, In x versions -> Semver.parse x = Some v ->
          qualifies o base v = true -> version_le v r).
Proof.
  intros Hs Hg Hc Hall.
  destruct (findVersion_candidate d o versions base Hc Hall) as [E Hw].
  pose proof (coerce_wf _ _ Hc) as [Hb Hnil].
  exists (candidate d o versions base). split; [exact E |].
  assert (Hinit : greatest_inv o base [] (fst (base, 0%Z))).
  { refine (conj _ (conj (main_le_refl _) (conj (or_introl eq_refl) _))).
    - split; [apply within_refl | intros _; now apply has_prerelease_nil].
    - intros x v []. }
  destruct (greatest_inv_loop d o base versions Hs Hg Hall [] (base, 0%Z) Hinit)
    as (Hinv & _ & Horigin & Hmax).
  cbn [app] in *. fold (candidate d o versions base) in *.
  split; [| split; [exact Hmax |]].
  - destruct Horigin as [Heq | (x & Hx & Ex & Hf)]; [now left |].
    destruct (Semver.is_eq (Semver.compare base (candidate d o versions base))) eqn:Heq.
    + left. now apply compare_eq_release.
    + right. exists x. repeat split; try assumption.
      unfold qualifies. rewrite Hf. cbn [negb andb].
      rewrite class_accepted_iff, Heq by assumption. destruct Hinv as [Hwi Hp].
      rewrite Hwi, (has_prerelease_nil base Hnil). cbn [negb andb].
      destruct (isRangePrerelease (range o) || usePre o); [reflexivity |].
      now rewrite Hp.
  - intros Hnp x v Hx Ex Hq. specialize (Hmax x v Hx Ex Hq).
    unfold version_le, Semver.compare. unfold main_le in Hmax.
    destruct (Semver.compareMain v (candidate d o versions base)); try assumption.
    destruct Hinv as [_ Hp]. specialize (Hp Hnp).
    unfold qualifies in Hq. rewrite Hnp in Hq. cbn [negb orb] in Hq.
    rewrite andb_true_r in Hq. apply andb_prop in Hq as [Hv _].
    apply negb_true_iff in Hv.
    unfold Semver.comparePre, has_prerelease in *.
    destruct (Semver.prerelease v); [| discriminate].
    destruct (Semver.prerelease (candidate d o versions base)); [reflexivity | discriminate].
Qed.

Lemma C3_greatest_maximum_witness :
  exists r,
    findVersion three_releases (valid_versions three_releases) (greatest_opts "^1.0.0")
    = Ok (Some (Semver.version r))
    /\ (r = Semver.mkSemVer 1 0 0 []
        \/ exists x, In x (valid_versions three_releases) /\ Semver.parse x = Some r
                     /\ qualifies (greatest_opts "^1.0.0") (Semver.mkSemVer 1 0 0 []) r = true)
    /\ (forall x v, In x (valid_versions three_releases) -> Semver.parse x = Some v ->
          qualifies (greatest_opts "^1.0.0") (Semver.mkSemVer 1 0 0 []) v = true ->
          main_le v r)
    /\ (isRangePrerelease (range (greatest_opts "^1.0.0"))
        || usePre (greatest_opts "^1.0.0") = false ->
        forall x v, In x (valid_versions three_releases) -> Semver.parse x = Some v ->
          qualifies (greatest_opts "^1.0.0") (Semver.mkSemVer 1 0 0 []) v = true ->
          version_le v r).
Proof.
  apply (C3_greatest_maximum three_releases (greatest_opts "^1.0.0")
           (valid_versions three_releases) (Semver.mkSemVer 1 0 0 [])).
  - simpl. tauto.
  - reflexivity.
  - vm_compute. reflexivity.
  - repeat (constructor; [unfold parses; vm_compute; discriminate |]). constructor.
Defined.

(** C3, as stated, fails when prereleases are in use: [1.0.1] qualifies and
    exceeds the version returned, the prerelease [1.0.1-beta] listed after
    it, which [findVersion] compares by its numbers only. *)
Lemma C3_counterexample :
  let o := mkOpts true false true all_classes (str "1.0.0") in
  greatest_mode release_then_prerelease o = true
  /\ findVersion release_then_prerelease (valid_versions release_then_prerelease) o
     = Ok (Some (str "1.0.1-beta"))
  /\ In (str "1.0.1") (valid_versions release_then_prerelease)
  /\ qualifies o (Semver.mkSemVer 1 0 0 []) (Semver.mkSemVer 1 0 1 []) = true
  /\ Semver.parse (str "1.0.1") = Some (Semver.mkSemVer 1 0 1 [])
  /\ Semver.coerce (str "1.0.0") = Some (Semver.mkSemVer 1 0 0 [])
  /\ Semver.gt (Some (str "1.0.1")) (Some (str "1.0.1-beta")) = Ok true.
Proof.
  cbv zeta. repeat split; try (vm_compute; reflexivity).
  vm_compute. now left.
Qed.

(** ** Replacement of the matches of a pattern *)

Section ReplaceFacts.

Variable matcher : text -> option nat.
Variable replacement : text.

Lemma replace_all_no_match (l : text) :
  regexp_test matcher l = false -> replace_all matcher replacement l = l.
Proof.
  unfold replace_all. induction l as [| c l IH]; intros H; [reflexivity |].
  cbn [regexp_test] in H. cbn [replace_from].
  destruct (matcher (c :: l)); [discriminate |]. now rewrite IH.
Qed.

Lemma replace_from_skip (k : nat) :
  forall l, replace_from matcher replacement k l
            = replace_all matcher replacement (skipn k l).
Proof.
  induction k as [| k IH]; intros l; [reflexivity |].
  destruct l as [| c l]; [reflexivity |]. cbn [replace_from skipn]. apply IH.
Qed.

Lemma replace_all_match (mid post : text) :
  mid <> [] -> matcher (mid ++ post) = Some (length mid) ->
  replace_all matcher replacement (mid ++ post)
  = replacement ++ replace_all matcher replacement post.
Proof.
  intros Hne Hm. destruct mid as [| c mid]; [congruence |].
  unfold replace_all at 1. cbn [app replace_from] in *. rewrite Hm. cbn [length].
  rewrite replace_from_skip. f_equal. f_equal.
  rewrite skipn_app, skipn_all, Nat.sub_diag. reflexivity.
Qed.

Lemma replace_all_prefix (pre rest : text) :
  no_earlier_match matcher pre rest ->
  replace_all matcher replacement (pre ++ rest)
  = pre ++ replace_all matcher replacement rest.
Proof.
  induction pre as [| c pre IH]; intros H; [reflexivity |].
  unfold replace_all at 1. cbn [app replace_from].
  pose proof (H [] (c :: pre) eq_refl ltac:(discriminate)) as H0.
  cbn [app] in H0. rewrite H0.
  f_equal. apply IH. intros p1 p2 -> Hne. apply (H (c :: p1) p2); [reflexivity | exact Hne].
Qed.

(** The first match replaced, the text before it kept. *)
Lemma replace_all_first (pre mid post : text) :
  no_earlier_match matcher pre (mid ++ post) ->
  mid <> [] -> matcher (mid ++ post) = Some (length mid) ->
  replace_all matcher replacement (pre ++ mid ++ post)
  = pre ++ replacement ++ replace_all matcher replacement post.
Proof.
  intros Hpre Hne Hm. rewrite replace_all_prefix by assumption.
  now rewrite replace_all_match.
Qed.

End ReplaceFacts.

(** ** C6: [updateRange] *)

Lemma match_digits_app (d rest : text) :
  digits d -> stops_digits rest -> match_digits (d ++ rest) = Some (length d, rest).
Proof.
  intros [Hne Hd] Hr. unfold match_digits.
  rewrite span_app by (assumption || exact Hr).
  destruct d; [congruence | reflexivity].
Qed.

Lemma match_triple_app (d1 d2 d3 post : text) :
  digits d1 -> digits d2 -> digits d3 -> stops_digits post ->
  match_triple (triple d1 d2 d3 ++ post) = Some (length (triple d1 d2 d3), post).
Proof.
  intros H1 H2 H3 Hp. unfold triple, match_triple.
  repeat (rewrite <- app_assoc; cbn [app]).
  rewrite match_digits_app by (assumption || reflexivity).
  rewrite match_digits_app by (assumption || reflexivity).
  rewrite match_digits_app by assumption.
  rewrite !length_app. cbn [length]. rewrite !length_app. cbn [length].
  do 2 f_equal. lia.
Qed.

Lemma versionRe_triple (d1 d2 d3 post : text) :
  digits d1 -> digits d2 -> digits d3 -> stops_digits post -> no_suffix post ->
  versionRe (triple d1 d2 d3 ++ post) = Some (length (triple d1 d2 d3)).
Proof.
  intros H1 H2 H3 Hp Hs. unfold versionRe.
  rewrite match_triple_app by assumption. now rewrite Hs.
Qed.

Lemma match_suffix_line (s post : text) :
  s <> [] -> Forall (fun c => is_line_terminator c = false) s -> line_end post ->
  match_suffix ("-" :: s ++ post) = Some (length ("-" :: s)).
Proof.
  intros Hne Hs Hp. destruct s as [| c s]; [congruence |].
  inversion Hs as [| ? ? Hc Hs']; subst. cbn [app match_suffix]. rewrite Hc.
  rewrite span_app.
  - reflexivity.
  - apply forallb_forall. intros x Hx. rewrite Forall_forall in Hs'.
    now rewrite (Hs' x Hx).
  - destruct post; [exact I |]. simpl in Hp. now rewrite Hp.
Qed.

Lemma versionRe_suffix (d1 d2 d3 s post : text) :
  digits d1 -> digits d2 -> digits d3 ->
  s <> [] -> Forall (fun c => is_line_terminator c = false) s -> line_end post ->
  versionRe ((triple d1 d2 d3 ++ "-" :: s) ++ post)
  = Some (length (triple d1 d2 d3 ++ "-" :: s)).
Proof.
  intros H1 H2 H3 Hne Hs Hp. unfold versionRe.
  rewrite <- app_assoc. cbn [app].
  rewrite match_triple_app by (assumption || reflexivity).
  rewrite match_suffix_line by assumption.
  now rewrite length_app.
Qed.

(** No match of [updateRange]'s pattern begins in a text without digits. *)
Lemma no_digit_no_earlier_match (pre rest : text) :
  Forall (fun c => is_digit c = false) pre -> no_earlier_match versionRe pre rest.
Proof.
  intros H p1 p2 -> Hne. apply Forall_app in H as [_ H].
  destruct p2 as [| c p2]; [congruence |]. inversion H as [| ? ? Hc _]; subst.
  unfold versionRe, match_triple, match_digits. cbn [app span]. now rewrite Hc.
Qed.

Lemma triple_nonempty (d1 d2 d3 : text) : triple d1 d2 d3 <> [].
Proof. unfold triple. destruct d1; discriminate. Qed.

(** A match without a suffix: the version is put for it, the text before
    it is kept. *)
Lemma updateRange_triple (pre d1 d2 d3 post : text) (v : option text) :
  digits d1 -> digits d2 -> digits d3 ->
  stops_digits post -> no_suffix post ->
  no_earlier_match versionRe pre (triple d1 d2 d3 ++ post) ->
  updateRange (pre ++ triple d1 d2 d3 ++ post) v
  = pre ++ string_of_null v ++ updateRange post v.
Proof.
  intros H1 H2 H3 Hp Hs Hpre. unfold updateRange.
  apply replace_all_first; [assumption | apply triple_nonempty |].
  now apply versionRe_triple.
Qed.

(** C6, as amended.  [updateRange] puts the new version for every match of
    three runs of digits joined by dots, the match taking in the rest of
    its line when a hyphen and one more character follow the digits; the
    text before a match, where no match begins, is kept as it is, and the
    text after it is rewritten in the same way; a range without a match is
    returned unchanged. *)
Theorem C6_updateRange_rewrites :
  (forall range v, regexp_test versionRe range = false -> updateRange range v = range)
  /\ (forall pre d1 d2 d3 post v,
        digits d1 -> digits d2 -> digits d3 ->
        stops_digits post -> no_suffix post ->
        no_earlier_match versionRe pre (triple d1 d2 d3 ++ post) ->
        updateRange (pre ++ triple d1 d2 d3 ++ post) v
        = pre ++ string_of_null v ++ updateRange post v)
  /\ (forall pre d1 d2 d3 s post v,
        digits d1 -> digits d2 -> digits d3 ->
        s <> [] -> Forall (fun c => is_line_terminator c = false) s ->
        line_end post ->
        no_earlier_match versionRe pre ((triple d1 d2 d3 ++ "-" :: s) ++ post) ->
        updateRange (pre ++ (triple d1 d2 d3 ++ "-" :: s) ++ post) v
        = pre ++ string_of_null v ++ updateRange post v).
Proof.
  repeat split.
  - intros range v H. unfold updateRange. now apply replace_all_no_match.
  - intros. now apply updateRange_triple.
  - intros pre d1 d2 d3 s post v H1 H2 H3 Hne Hs Hp Hpre. unfold updateRange.
    apply replace_all_first; [assumption | |].
    + intros E. apply app_eq_nil in E as [E _]. now apply triple_nonempty in E.
    + now apply versionRe_suffix.
Qed.

(** The caret and the text after the version are kept. *)
Lemma C6_updateRange_rewrites_witness :
  updateRange (str "^" ++ triple (str "1") (str "20") (str "3") ++ str " || 2.x")
    (Some (str "1.21.0"))
  = str "^" ++ str "1.21.0" ++ str " || 2.x".
Proof.
  rewrite (proj1 (proj2 C6_updateRange_rewrites) (str "^") (str "1") (str "20")
             (str "3") (str " || 2.x") (Some (str "1.21.0"))).
  - reflexivity.
  - split; [discriminate | reflexivity].
  - split; [discriminate | reflexivity].
  - split; [discriminate | reflexivity].
  - reflexivity.
  - reflexivity.
  - apply no_digit_no_earlier_match. repeat constructor.
Defined.

(** C6, as stated, fails: the operator and the partial version after a
    prerelease suffix are not preserved. *)
Lemma C6_counterexample :
  updateRange (str ">=1.0.0-beta <2") (Some (str "1.0.1")) = str ">=1.0.1"
  /\ updateRange (str ">=1.0.0-beta <2") (Some (str "1.0.1")) <> str ">=1.0.1 <2".
Proof. split; [reflexivity | discriminate]. Qed.

(** ** C7: [updatePackageJson] *)


Lemma esc_app (a b : text) : esc (a ++ b) = esc a ++ esc b.
Proof.
  induction a as [| c a IH]; [reflexivity |].
  simpl. destruct (is_special c); simpl; now rewrite IH.
Qed.

Lemma special_backslash c : is_special c = false -> Ascii.eqb c "\" = false.
Proof. ascii_cases c. Qed.
Lemma special_plus c : is_special c = false -> Ascii.eqb c "+" = false.
Proof. ascii_cases c. Qed.

Lemma esc_not_quantified (s rest : text) :
  not_quantified rest -> not_quantified (esc s ++ rest).
Proof.
  intros H. destruct s as [| c s]; [exact H |].
  simpl. destruct (is_special c) eqn:E; simpl; [reflexivity |].
  now apply special_plus.
Qed.

(** The pattern made from an escaped text matches the text, character by
    character. *)
Lemma regexp_of_esc (s rest : text) :
  not_quantified rest ->
  regexp_of (esc s ++ rest) = map Char s ++ regexp_of rest.
Proof.
  intros Hr. induction s as [| c s IH]; [reflexivity |].
  pose proof (esc_not_quantified s rest Hr) as Hq.
  cbn [esc]. destruct (is_special c) eqn:E.
  - cbn [app regexp_of]. rewrite Ascii.eqb_refl.
    destruct (esc s ++ rest) as [| q t] eqn:Et.
    + destruct s as [| c' s]; [| simpl in Et; destruct (is_special c'); discriminate].
      simpl in Et. subst rest. reflexivity.
    + simpl in Hq. rewrite Hq. cbn [map app]. now rewrite <- IH.
  - cbn [app regexp_of]. rewrite (special_backslash c E).
    destruct (esc s ++ rest) as [| q t] eqn:Et.
    + destruct s as [| c' s]; [| simpl in Et; destruct (is_special c'); discriminate].
      simpl in Et. subst rest. reflexivity.
    + simpl in Hq. rewrite Hq. cbn [map app]. now rewrite <- IH.
Qed.

Lemma dep_pattern_eq (nm o : text) :
  dep_pattern nm o
  = map Char (dquote :: nm ++ [dquote; ":"])
    ++ Plus " " :: map Char (dquote :: o ++ [dquote]).
Proof.
  unfold dep_pattern, dep_source.
  replace (dquote :: esc nm ++ dquote :: ":" :: " " :: "+" :: dquote :: esc o ++ [dquote])
    with (esc (dquote :: nm ++ [dquote; ":"])
          ++ " " :: "+" :: (esc (dquote :: o ++ [dquote]) ++ [])).
  - rewrite regexp_of_esc by reflexivity.
    change (regexp_of (" " :: "+" :: (esc (dquote :: o ++ [dquote]) ++ [])))
      with (Plus " " :: regexp_of (esc (dquote :: o ++ [dquote]) ++ [])).
    rewrite regexp_of_esc by exact I. now rewrite app_nil_r.
  - rewrite app_nil_r.
    change (dquote :: nm ++ [dquote; ":"]) with ([dquote] ++ nm ++ [dquote; ":"]).
    change (dquote :: o ++ [dquote]) with ([dquote] ++ o ++ [dquote]).
    rewrite !esc_app. change (esc [dquote]) with [dquote].
    change (esc [dquote; ":"]) with [dquote; ":"].
    cbn [app]. rewrite <- app_assoc. reflexivity.
Qed.

Lemma match_atoms_chars (s : text) (p : list atom) (l : text) :
  match_atoms (map Char s ++ p) (s ++ l)
  = option_map (Nat.add (length s)) (match_atoms p l).
Proof.
  induction s as [| c s IH]; cbn [map app match_atoms length].
  - now destruct (match_atoms p l).
  - rewrite Ascii.eqb_refl, IH. now destruct (match_atoms p l).
Qed.

Lemma match_atoms_plus (c : ascii) (p : list atom) (l : text) (k : nat) :
  match l with [] => True | x :: _ => Ascii.eqb x c = false end ->
  match_atoms p l = Some k ->
  forall n, match_atoms (Plus c :: p) (repeat c (S n) ++ l) = Some (S n + k).
Proof.
  intros Hl Hp.
  assert (Hstop : match_atoms (Plus c :: p) l = None).
  { destruct l as [| x l]; [reflexivity |]. cbn [match_atoms]. now rewrite Hl. }
  induction n as [| n IH].
  - cbn [repeat app]. cbn [match_atoms] in *. rewrite Ascii.eqb_refl, Hstop, Hp. reflexivity.
  - change (repeat c (S (S n)) ++ l) with (c :: (repeat c (S n) ++ l)).
    cbn [match_atoms] in *. rewrite Ascii.eqb_refl, IH. reflexivity.
Qed.

(** The pattern of a dependency matches its occurrences, whatever the name
    and the range hold. *)
Lemma dep_pattern_occurrence (nm o post : text) (n : nat) :
  match_atoms (dep_pattern nm o) (occurrence nm o (S n) ++ post)
  = Some (length (occurrence nm o (S n))).
Proof.
  rewrite dep_pattern_eq. unfold occurrence.
  rewrite <- !app_assoc. rewrite match_atoms_chars.
  rewrite (match_atoms_plus " " _ _ (length (dquote :: o ++ [dquote]))).
  - cbn [option_map]. f_equal. rewrite !length_app, repeat_length.
    cbn [length]. rewrite !length_app. cbn [length]. lia.
  - reflexivity.
  - rewrite <- (app_nil_r (map Char (dquote :: o ++ [dquote]))).
    rewrite match_atoms_chars. cbn [match_atoms option_map]. f_equal. lia.
Qed.






(** ** C8: fetch failures *)








(** The retry against the default registry, answered. *)
Example get_retries_on_default :
  get custom_down (fun _ _ => custom_registry) (str "b") (str "dependencies")
    custom_registry
  = Ok (Some (b_data, str "dependencies", custom_registry)).
Proof. reflexivity. Qed.

(** ** C4: resolving twice *)

Lemma has_prerelease_false (v : Semver.SemVer) :
  has_prerelease v = false -> Semver.prerelease v = [].
Proof. unfold has_prerelease. destruct (Semver.prerelease v); [reflexivity | discriminate]. Qed.


Lemma release_version (v : Semver.SemVer) :
  has_prerelease v = false ->
  Semver.version v
  = triple (to_digits (Semver.major v)) (to_digits (Semver.minor v))
      (to_digits (Semver.patch v)).
Proof.
  intros H. apply has_prerelease_false in H.
  unfold Semver.version, Semver.main_version, triple. rewrite H. apply app_nil_r.
Qed.

Lemma to_digits_are_digits (n : N) : digits (to_digits n).
Proof. split; [apply to_digits_nonempty | apply to_digits_digits]. Qed.

(** A prefix without digits and a release: [updateRange] rewrites the
    release and keeps the prefix. *)
Lemma updateRange_prefix_release (p : text) (v : Semver.SemVer) (t : option text) :
  Forall (fun c => is_digit c = false) p -> has_prerelease v = false ->
  updateRange (p ++ Semver.version v) t = p ++ string_of_null t.
Proof.
  intros Hp Hv. rewrite (release_version v Hv).
  pose proof (updateRange_triple p
                (to_digits (Semver.major v)) (to_digits (Semver.minor v))
                (to_digits (Semver.patch v)) [] t) as H.
  rewrite !app_nil_r in H. apply H; try apply to_digits_are_digits; try reflexivity.
  now apply no_digit_no_earlier_match.
Qed.

Lemma match_digits_rest (l rest : text) (n : nat) :
  match_digits l = Some (n, rest) -> exists a, l = a ++ rest.
Proof.
  unfold match_digits. destruct (span is_digit l) as [ds r] eqn:E.
  apply span_spec in E as (-> & _ & _).
  destruct ds; [discriminate |]. intros H. inversion H; subst. now eexists.
Qed.

Lemma match_triple_rest (l rest : text) (n : nat) :
  match_triple l = Some (n, rest) -> exists a, l = a ++ rest.
Proof.
  unfold match_triple.
  destruct (match_digits l) as [[n1 r1] |] eqn:E1; [| discriminate].
  destruct r1 as [| c1 r1]; [discriminate |].
  destruct (Ascii.eqb c1 ".") eqn:Ec1.
  2:{ destruct c1 as [[] [] [] [] [] [] [] []]; try discriminate. }
  apply Ascii.eqb_eq in Ec1. subst c1.
  destruct (match_digits r1) as [[n2 r2] |] eqn:E2; [| discriminate].
  destruct r2 as [| c2 r2]; [discriminate |].
  destruct (Ascii.eqb c2 ".") eqn:Ec2.
  2:{ destruct c2 as [[] [] [] [] [] [] [] []]; try discriminate. }
  apply Ascii.eqb_eq in Ec2. subst c2.
  destruct (match_digits r2) as [[n3 r3] |] eqn:E3; [| discriminate].
  intros H. inversion H; subst.
  apply match_digits_rest in E1 as [a1 ->], E2 as [a2 ->], E3 as [a3 ->].
  exists (a1 ++ "." :: a2 ++ "." :: a3).
  repeat (rewrite <- app_assoc; cbn [app]). reflexivity.
Qed.

Lemma match_suffix_lacks (l : text) : lacks "-" l -> match_suffix l = None.
Proof.
  intros H. destruct l as [| c l]; [reflexivity |].
  inversion H as [| ? ? Hc _]; subst.
  destruct c as [[] [] [] [] [] [] [] []]; try reflexivity. discriminate.
Qed.

Lemma prereleaseRe_lacks (l : text) : lacks "-" l -> prereleaseRe l = None.
Proof.
  intros H. unfold prereleaseRe.
  destruct (match_triple l) as [[n rest] |] eqn:E; [| reflexivity].
  apply match_triple_rest in E as [a ->]. apply lacks_app in H as [_ H].
  now rewrite match_suffix_lacks.
Qed.

Lemma regexp_test_prerelease_lacks (l : text) :
  lacks "-" l -> regexp_test prereleaseRe l = false.
Proof.
  induction l as [| c l IH]; intros H.
  - reflexivity.
  - cbn [regexp_test]. rewrite prereleaseRe_lacks by assumption.
    apply IH. now inversion H.
Qed.

(** A prefix without digits and a release make a range that is no
    prerelease. *)
Lemma isRangePrerelease_prefix_release (p : text) (v : Semver.SemVer) :
  Forall (fun c => is_digit c = false) p -> has_prerelease v = false ->
  isRangePrerelease (p ++ Semver.version v) = false.
Proof.
  intros Hp Hv. unfold isRangePrerelease.
  induction Hp as [| c p Hc _ IH].
  - apply regexp_test_prerelease_lacks.
    unfold Semver.version. rewrite (has_prerelease_false v Hv), app_nil_r.
    apply main_version_lacks_hyphen.
  - cbn [app regexp_test].
    assert (E : prereleaseRe (c :: p ++ Semver.version v) = None).
    { unfold prereleaseRe, match_triple, match_digits. cbn [span]. now rewrite Hc. }
    now rewrite E.
Qed.





Lemma main_le_antisym_release (a b : Semver.SemVer) :
  main_le a b -> main_le b a ->
  has_prerelease a = false -> has_prerelease b = false -> a = b.
Proof.
  intros H1 H2 Ha Hb. apply main_le_iff in H1, H2.
  apply has_prerelease_false in Ha, Hb.
  destruct a, b. simpl in *. subst. f_equal; lia.
Qed.

Lemma digit_free_forallb (p : text) :
  Forall (fun c => is_digit c = false) p ->
  forallb (fun c => negb (is_digit c)) p = true.
Proof.
  intros H. apply forallb_forall. intros c Hc. rewrite Forall_forall in H.
  now rewrite (H c Hc).
Qed.






(** * Further properties *)

(** ** The order of [semver.compare] *)

Lemma code_inj (x y : ascii) : code x = code y -> x = y.
Proof.
  unfold code. intros H.
  rewrite <- (ascii_N_embedding x), <- (ascii_N_embedding y). now rewrite H.
Qed.

Lemma text_compare_eq (a : text) :
  forall b, Semver.text_compare a b = Eq -> a = b.
Proof.
  induction a as [|x a IH]; intros [|y b] H; cbn in H; try discriminate; auto.
  destruct (N.compare (code x) (code y)) eqn:E; try discriminate.
  apply N.compare_eq in E. apply code_inj in E. subst. f_equal. auto.
Qed.

Lemma text_compare_refl (a : text) : Semver.text_compare a a = Eq.
Proof.
  induction a as [|x a IH]; cbn; auto. now rewrite N.compare_refl.
Qed.

Lemma text_compare_antisym (a : text) :
  forall b, Semver.text_compare b a = CompOpp (Semver.text_compare a b).
Proof.
  induction a as [|x a IH]; intros [|y b]; cbn; auto.
  rewrite (N.compare_antisym (code x) (code y)).
  destruct (N.compare (code x) (code y)); cbn; auto.
Qed.

Lemma text_compare_trans (a : text) :
  forall b c, Semver.text_compare a b = Gt -> Semver.text_compare b c = Gt ->
    Semver.text_compare a c = Gt.
Proof.
  induction a as [|x a IH]; intros [|y b] [|z c] H1 H2; cbn in *;
    try discriminate; auto.
  destruct (N.compare (code x) (code y)) eqn:E1; try discriminate;
    destruct (N.compare (code y) (code z)) eqn:E2; try discriminate.
  - apply N.compare_eq in E1, E2. rewrite E1, E2, N.compare_refl. eauto.
  - apply N.compare_eq in E1. now rewrite E1, E2.
  - apply N.compare_eq in E2. now rewrite <- E2, E1.
  - apply N.compare_gt_iff in E1, E2.
    assert (E : N.compare (code x) (code z) = Gt) by (apply N.compare_gt_iff; lia).
    now rewrite E.
Qed.

Lemma compareIdentifiers_eq (a b : Semver.identifier) :
  Semver.compareIdentifiers a b = Eq -> a = b.
Proof.
  destruct a, b; cbn; intros H; try discriminate.
  - apply N.compare_eq in H. now subst.
  - apply text_compare_eq in H. now subst.
Qed.

Lemma compareIdentifiers_refl (a : Semver.identifier) :
  Semver.compareIdentifiers a a = Eq.
Proof. destruct a; cbn; [apply N.compare_refl | apply text_compare_refl]. Qed.

Lemma compareIdentifiers_trans (a b c : Semver.identifier) :
  Semver.compareIdentifiers a b = Gt -> Semver.compareIdentifiers b c = Gt ->
  Semver.compareIdentifiers a c = Gt.
Proof.
  destruct a, b, c; cbn; intros H1 H2; try discriminate; auto.
  - apply N.compare_gt_iff in H1, H2. apply N.compare_gt_iff. lia.
  - eapply text_compare_trans; eauto.
Qed.

Lemma comparePreLoop_eq (a : list Semver.identifier) :
  forall b, Semver.comparePreLoop a b = Eq -> a = b.
Proof.
  induction a as [|x a IH]; intros [|y b] H; cbn in H; try discriminate; auto.
  destruct (Semver.compareIdentifiers x y) eqn:E; try discriminate.
  apply compareIdentifiers_eq in E. subst. f_equal. auto.
Qed.

Lemma comparePreLoop_refl (a : list Semver.identifier) : Semver.comparePreLoop a a = Eq.
Proof.
  induction a as [|x a IH]; cbn; auto. now rewrite compareIdentifiers_refl.
Qed.

Lemma comparePreLoop_trans (a : list Semver.identifier) :
  forall b c, Semver.comparePreLoop a b = Gt -> Semver.comparePreLoop b c = Gt ->
    Semver.comparePreLoop a c = Gt.
Proof.
  induction a as [|x a IH]; intros [|y b] [|z c] H1 H2; cbn in *;
    try discriminate; auto.
  destruct (Semver.compareIdentifiers x y) eqn:E1; try discriminate;
    destruct (Semver.compareIdentifiers y z) eqn:E2; try discriminate.
  - apply compareIdentifiers_eq in E1, E2. subst.
    rewrite compareIdentifiers_refl. eauto.
  - apply compareIdentifiers_eq in E1. subst. now rewrite E2.
  - apply compareIdentifiers_eq in E2. subst. now rewrite E1.
  - now rewrite (compareIdentifiers_trans _ _ _ E1 E2).
Qed.

Lemma comparePre_eq (a b : Semver.SemVer) :
  Semver.comparePre a b = Eq -> Semver.prerelease a = Semver.prerelease b.
Proof.
  unfold Semver.comparePre.
  destruct (Semver.prerelease a) as [|x pa], (Semver.prerelease b) as [|y pb];
    intros H; try discriminate; auto.
  now apply comparePreLoop_eq.
Qed.

Lemma comparePre_trans (a b c : Semver.SemVer) :
  Semver.comparePre a b = Gt -> Semver.comparePre b c = Gt ->
  Semver.comparePre a c = Gt.
Proof.
  unfold Semver.comparePre.
  destruct (Semver.prerelease a) as [|x pa], (Semver.prerelease b) as [|y pb],
    (Semver.prerelease c) as [|z pc]; intros H1 H2; try discriminate; auto.
  eapply comparePreLoop_trans; eauto.
Qed.

Lemma compareMain_eq (a b : Semver.SemVer) :
  Semver.compareMain a b = Eq ->
  Semver.major a = Semver.major b /\ Semver.minor a = Semver.minor b
  /\ Semver.patch a = Semver.patch b.
Proof.
  unfold Semver.compareMain. intros H.
  destruct (N.compare (Semver.major a) (Semver.major b)) eqn:E1; try discriminate.
  destruct (N.compare (Semver.minor a) (Semver.minor b)) eqn:E2; try discriminate.
  apply N.compare_eq in E1, E2, H. auto.
Qed.

Lemma compareMain_same (a b : Semver.SemVer) :
  Semver.major a = Semver.major b -> Semver.minor a = Semver.minor b ->
  Semver.patch a = Semver.patch b -> Semver.compareMain a b = Eq.
Proof.
  unfold Semver.compareMain. intros -> -> ->. now rewrite !N.compare_refl.
Qed.

Lemma compareMain_congr_l (a a' b : Semver.SemVer) :
  Semver.compareMain a a' = Eq -> Semver.compareMain a b = Semver.compareMain a' b.
Proof.
  intros H. apply compareMain_eq in H. destruct H as (H1 & H2 & H3).
  unfold Semver.compareMain. now rewrite H1, H2, H3.
Qed.

Lemma compareMain_congr_r (a b b' : Semver.SemVer) :
  Semver.compareMain b b' = Eq -> Semver.compareMain a b = Semver.compareMain a b'.
Proof.
  intros H. apply compareMain_eq in H. destruct H as (H1 & H2 & H3).
  unfold Semver.compareMain. now rewrite H1, H2, H3.
Qed.

Lemma compareMain_trans (a b c : Semver.SemVer) :
  Semver.compareMain a b = Gt -> Semver.compareMain b c = Gt ->
  Semver.compareMain a c = Gt.
Proof.
  intros H1 H2.
  assert (G1 : Semver.is_gt (Semver.compareMain a b) = true) by now rewrite H1.
  assert (G2 : Semver.is_gt (Semver.compareMain b c) = true) by now rewrite H2.
  apply compareMain_gt in G1, G2.
  assert (G : Semver.is_gt (Semver.compareMain a c) = true)
    by (apply compareMain_gt; lia).
  destruct (Semver.compareMain a c); now try discriminate.
Qed.

(** Equal in the order of [semver.compare] means equal. *)
Lemma compare_eq (a b : Semver.SemVer) : Semver.compare a b = Eq -> a = b.
Proof.
  unfold Semver.compare. intros H.
  destruct (Semver.compareMain a b) eqn:E; try discriminate.
  apply compareMain_eq in E. destruct E as (E1 & E2 & E3).
  apply comparePre_eq in H. destruct a, b; cbn in *. congruence.
Qed.

Lemma compare_trans (a b c : Semver.SemVer) :
  Semver.compare a b = Gt -> Semver.compare b c = Gt -> Semver.compare a c = Gt.
Proof.
  unfold Semver.compare. intros H1 H2.
  destruct (Semver.compareMain a b) eqn:E1; try discriminate;
    destruct (Semver.compareMain b c) eqn:E2; try discriminate.
  - rewrite (compareMain_congr_l _ _ _ E1), E2. eapply comparePre_trans; eauto.
  - now rewrite (compareMain_congr_l _ _ _ E1), E2.
  - now rewrite <- (compareMain_congr_r _ _ _ E2), E1.
  - now rewrite (compareMain_trans _ _ _ E1 E2).
Qed.
(** ** [findVersion] by dates of publication *)

Lemma compare_refl (v : Semver.SemVer) : Semver.compare v v = Eq.
Proof.
  unfold Semver.compare. rewrite compareMain_same by reflexivity.
  unfold Semver.comparePre. destruct (Semver.prerelease v) as [| x l] eqn:E;
    [reflexivity |]. apply comparePreLoop_refl.
Qed.

Lemma qualifies_irrefl (o : opts) (v : Semver.SemVer) : qualifies o v v = false.
Proof.
  unfold qualifies, class_accepted, Semver.diffParsed.
  rewrite compare_refl. cbn [Semver.is_eq]. apply andb_false_r.
Qed.

Lemma step_parsed_latest d o usePre semvers temp tempDate version parsed t :
  useGreatest o = false -> time d = Some t ->
  step_parsed d o usePre (accepted semvers usePre) (temp, tempDate) version parsed
  = if has_prerelease parsed && (negb usePre || useRel o) then (temp, tempDate)
    else if class_accepted semvers usePre temp parsed
         then match time_of t version with
              | Some date =>
                  if (0 <=? date)%Z && (tempDate <? date)%Z
                  then (parsed, date) else (temp, tempDate)
              | None => (temp, tempDate)
              end
         else (temp, tempDate).
Proof.
  intros Hg Ht. unfold step_parsed, class_accepted. rewrite Hg, Ht.
  destruct (has_prerelease parsed && _); [reflexivity |].
  destruct (Semver.diffParsed temp parsed) as [c |]; [| reflexivity].
  destruct (Semver.includes (accepted semvers usePre) c); reflexivity.
Qed.

Lemma latest_inv_step d o base t seen temp tempDate x xv :
  In (semvers o) ceilings -> useGreatest o = false -> time d = Some t ->
  has_prerelease base = false ->
  Semver.parse x = Some xv ->
  (forall y, In y seen -> Semver.parse y <> Some xv) ->
  latest_inv o base t seen (temp, tempDate) ->
  latest_inv o base t (seen ++ [x])
    (step_parsed d o (isRangePrerelease (range o) || usePre o)
       (accepted (semvers o) (isRangePrerelease (range o) || usePre o))
       (temp, tempDate) x xv).
Proof.
  intros Hs Hg Ht Hb Ex Hnew (Hinv & Horigin & Hmax).
  pose proof (step_parsed_inv d o _ (semvers o) base (temp, tempDate) x xv Hs Hinv) as Hinv'.
  rewrite (step_parsed_latest d o _ _ _ _ _ _ t) in * by assumption.
  cbn [fst snd] in *.
  assert (Hdate : (0 <= tempDate)%Z) by (destruct Horigin as [[_ ->] | [H _]]; lia).
  assert (Horigin' : (temp = base /\ tempDate = 0%Z)
            \/ ((0 < tempDate)%Z
                /\ exists y, In y (seen ++ [x]) /\ Semver.parse y = Some temp
                     /\ time_of t y = Some tempDate
                     /\ (temp = base \/ qualifies o base temp = true))).
  { destruct Horigin as [H | (H & y & Hy & H')]; [now left | right].
    split; [exact H |]. exists y. split; [apply in_or_app; now left | exact H']. }
  (* a qualifying version that is not taken for its class is the candidate's equal,
     which the catalog lists once *)
  assert (Hclass : qualifies o base xv = true ->
            class_accepted (semvers o) (isRangePrerelease (range o) || usePre o) temp xv
            = false -> False).
  { intros Hq Hc.
    pose proof (qualifies_not_accepted o base temp xv Hs Hinv Hq Hc) as Heq.
    assert (E : temp = xv).
    { apply compare_eq. destruct (Semver.compare temp xv); now try discriminate. }
    subst xv. destruct Horigin as [[-> _] | (_ & y & Hy & Ey & _)].
    - rewrite qualifies_irrefl in Hq. discriminate.
    - exact (Hnew y Hy Ey). }
  assert (Hold : forall d', (tempDate <= d')%Z ->
            forall y v dy, In y seen -> Semver.parse y = Some v ->
              qualifies o base v = true -> time_of t y = Some dy -> (dy <= d')%Z).
  { intros d' Hd y v dy Hy Ev Hq Et. specialize (Hmax y v dy Hy Ev Hq Et). lia. }
  destruct (has_prerelease xv && _) eqn:Hf; cbn [fst snd] in *.
  - refine (conj Hinv' (conj Horigin' _)); cbn [fst snd].
    intros y v dy Hy Ev Hq Et. apply in_app_or in Hy as [Hy | [<- | []]]; [eauto |].
    rewrite Ex in Ev. inversion Ev; subst v.
    unfold qualifies in Hq. rewrite Hf in Hq. discriminate.
  - destruct (class_accepted (semvers o) _ temp xv) eqn:Hc.
    + destruct (time_of t x) as [date |] eqn:Edate.
      * destruct ((0 <=? date)%Z && (tempDate <? date)%Z) eqn:Hlater; cbn [fst snd] in *.
        -- (* taken *)
           apply andb_prop in Hlater as [H0 H1].
           apply Z.leb_le in H0. apply Z.ltb_lt in H1.
           refine (conj Hinv' (conj _ _)); cbn [fst snd].
           ++ right. split; [lia |]. exists x.
              split; [apply in_or_app; right; now left |].
              split; [exact Ex |]. split; [exact Edate |].
              destruct (Semver.is_eq (Semver.compare base xv)) eqn:Heq.
              ** left. symmetry. apply compare_eq.
                 destruct (Semver.compare base xv); now try discriminate.
              ** right. unfold qualifies. rewrite Hf. cbn [negb andb].
                 rewrite class_accepted_iff, Heq by assumption.
                 destruct Hinv' as [Hw Hp]. rewrite Hw, Hb. cbn [negb andb].
                 destruct (isRangePrerelease (range o) || usePre o); [reflexivity |].
                 now rewrite Hp.
           ++ intros y v dy Hy Ev Hq Et. apply in_app_or in Hy as [Hy | [<- | []]].
              ** eapply (Hold date); eauto. lia.
              ** rewrite Edate in Et. inversion Et. lia.
        -- refine (conj Hinv' (conj Horigin' _)); cbn [fst snd].
           intros y v dy Hy Ev Hq Et. apply in_app_or in Hy as [Hy | [<- | []]]; [eauto |].
           rewrite Edate in Et. inversion Et; subst dy.
           apply andb_false_iff in Hlater as [H | H];
             [apply Z.leb_gt in H | apply Z.ltb_ge in H]; lia.
      * refine (conj Hinv' (conj Horigin' _)); cbn [fst snd].
        intros y v dy Hy Ev Hq Et. apply in_app_or in Hy as [Hy | [<- | []]]; [eauto |].
        congruence.
    + refine (conj Hinv' (conj Horigin' _)); cbn [fst snd].
      intros y v dy Hy Ev Hq Et. apply in_app_or in Hy as [Hy | [<- | []]]; [eauto |].
      rewrite Ex in Ev. inversion Ev; subst v. exfalso. now apply Hclass.
Qed.

Lemma latest_inv_loop d o base t versions :
  In (semvers o) ceilings -> useGreatest o = false -> time d = Some t ->
  has_prerelease base = false ->
  forall seen st,
    Forall parses versions ->
    NoDup (map Semver.parse (seen ++ versions)) ->
    latest_inv o base t seen st ->
    latest_inv o base t (seen ++ versions)
      (loop_parsed d o (isRangePrerelease (range o) || usePre o)
         (accepted (semvers o) (isRangePrerelease (range o) || usePre o))
         versions st).
Proof.
  intros Hs Hg Ht Hb. induction versions as [| x rest IH]; intros seen st Hall Hnd Hst.
  - now rewrite app_nil_r.
  - cbn [loop_parsed]. inversion Hall as [| ? ? Hx Hrest]; subst. unfold parses in Hx.
    destruct (Semver.parse x) as [xv |] eqn:Ex; [| congruence].
    replace (seen ++ x :: rest) with ((seen ++ [x]) ++ rest) in *
      by (now rewrite <- app_assoc).
    apply IH; [assumption | assumption |].
    destruct st as [temp tempDate]. apply latest_inv_step; try assumption.
    intros y Hy Ey.
    rewrite !map_app in Hnd. apply NoDup_app_remove_r in Hnd.
    cbn [map] in Hnd. rewrite Ex in Hnd.
    apply NoDup_remove_2 in Hnd. rewrite app_nil_r in Hnd.
    apply Hnd. rewrite <- Ey. now apply in_map.
Qed.

(** X1.  With dates of publication and outside greatest mode, for a range
    that coerces and a catalog that lists every version once, [findVersion]
    returns the coerced range or a catalog version, together with a date:
    the date is [0] and the version the coerced range, or the date is the
    positive date of publication of the version returned, which is the
    coerced range again or qualifies; and no qualifying catalog version was
    published later. *)
Theorem findVersion_latest_most_recent (d : data) (o : opts) (versions : list text)
    (base : Semver.SemVer) (t : list (text * Z)) :
  In (semvers o) ceilings ->
  useGreatest o = false -> time d = Some t ->
  Semver.coerce (range o) = Some base ->
  Forall parses versions ->
  NoDup (map Semver.parse versions) ->
  exists r date,
    findVersion d versions o = Ok (Some (Semver.version r))
    /\ ((r = base /\ date = 0%Z)
        \/ ((0 < date)%Z
            /\ exists x, In x versions /\ Semver.parse x = Some r
                         /\ time_of t x = Some date
                         /\ (r = base \/ qualifies o base r = true)))
    /\ (forall x v dx, In x versions -> Semver.parse x = Some v ->
          qualifies o base v = true -> time_of t x = Some dx -> (dx <= date)%Z).
Proof.
  intros Hs Hg Ht Hc Hall Hnd.
  destruct (findVersion_candidate d o versions base Hc Hall) as [E Hw].
  pose proof (coerce_wf _ _ Hc) as [Hb Hnil]. apply has_prerelease_nil in Hnil.
  assert (Hinit : latest_inv o base t [] (base, 0%Z)).
  { refine (conj _ (conj (or_introl (conj eq_refl eq_refl)) _)).
    - split; [apply within_refl | now intros _].
    - intros x v dx []. }
  pose proof (latest_inv_loop d o base t versions Hs Hg Ht Hnil [] (base, 0%Z)
                Hall Hnd Hinit) as (_ & Horigin & Hmax).
  cbn [app] in *.
  exists (candidate d o versions base).
  exists (snd (loop_parsed d o (isRangePrerelease (range o) || usePre o)
                 (accepted (semvers o) (isRangePrerelease (range o) || usePre o))
                 versions (base, 0%Z))).
  split; [exact E |]. split; [exact Horigin | exact Hmax].
Qed.

Lemma findVersion_latest_most_recent_witness :
  exists r date,
    findVersion gulp_sourcemaps (valid_versions gulp_sourcemaps) (default_opts "2.0.0")
    = Ok (Some (Semver.version r))
    /\ ((r = Semver.mkSemVer 2 0 0 [] /\ date = 0%Z)
        \/ ((0 < date)%Z
            /\ exists x, In x (valid_versions gulp_sourcemaps) /\ Semver.parse x = Some r
                 /\ time_of [(str "2.0.0", 1000%Z); (str "2.0.1", 2000%Z);
                             (str "2.6.5", 3000%Z)] x = Some date
                 /\ (r = Semver.mkSemVer 2 0 0 []
                     \/ qualifies (default_opts "2.0.0") (Semver.mkSemVer 2 0 0 []) r = true)))
    /\ (forall x v dx, In x (valid_versions gulp_sourcemaps) -> Semver.parse x = Some v ->
          qualifies (default_opts "2.0.0") (Semver.mkSemVer 2 0 0 []) v = true ->
          time_of [(str "2.0.0", 1000%Z); (str "2.0.1", 2000%Z); (str "2.6.5", 3000%Z)] x
          = Some dx ->
          (dx <= date)%Z).
Proof.
  apply (findVersion_latest_most_recent gulp_sourcemaps (default_opts "2.0.0")
           (valid_versions gulp_sourcemaps) (Semver.mkSemVer 2 0 0 [])).
  - simpl. tauto.
  - reflexivity.
  - reflexivity.
  - vm_compute. reflexivity.
  - repeat (constructor; [unfold parses; vm_compute; discriminate |]). constructor.
  - vm_compute. repeat (constructor; [simpl; intuition discriminate |]). constructor.
Defined.
(** ** [findNewVersion]: release-only, downgrades and exceptions *)

Lemma step_parsed_release_only d o usePre semvers st version parsed :
  useRel o = true -> has_prerelease (fst st) = false ->
  has_prerelease (fst (step_parsed d o usePre semvers st version parsed)) = false.
Proof.
  intros Hr Hst. destruct st as [temp tempDate]. unfold step_parsed.
  rewrite Hr, orb_true_r, andb_true_r.
  destruct (has_prerelease parsed) eqn:Hp; [exact Hst |].
  repeat (match goal with
          | |- context [match ?x with _ => _ end] => destruct x
          end; try assumption).
Qed.

Lemma loop_parsed_release_only d o usePre semvers versions :
  useRel o = true ->
  forall st, has_prerelease (fst st) = false ->
    has_prerelease (fst (loop_parsed d o usePre semvers versions st)) = false.
Proof.
  intros Hr. induction versions as [| x rest IH]; intros st Hst; [exact Hst |].
  cbn [loop_parsed]. destruct (Semver.parse x) as [xv |]; [| exact Hst].
  apply IH. now apply step_parsed_release_only.
Qed.


(** The results of the reconciliation: the candidate, the latest tag or
    [null]. *)
Lemma reconcile_cases A d o base cand r :
  reconcile A d o base cand = Ok r ->
  r = Some (Semver.version cand) \/ r = None
  \/ exists tag tv, r = Some tag /\ latest d = Some tag /\ Semver.parse tag = Some tv
        /\ (useRel o && has_prerelease tv) = false.
Proof.
  unfold reconcile.
  do 4 (case_if; [intros H; inversion H; auto |]).
  destruct (latest d) as [tag |]; [| discriminate].
  destruct (Semver.parse tag) as [tv |] eqn:Et; [| discriminate].
  case_if; [intros H; inversion H; auto |].
  destruct (useRel o && has_prerelease tv) eqn:Hr; [intros H; inversion H; auto |].
  repeat case_if; intros H; inversion H; subst; auto; right; right; exists tag, tv; auto.
Qed.

(** X2.  With [--release], whatever the other options, a version that
    [findNewVersion] returns for a range other than [*] is no prerelease. *)
Theorem findNewVersion_release_only (A : mixedArg) (d : data) (o : opts) (v : text) :
  range o <> str "*" -> useRel o = true ->
  findNewVersion A d o = Ok (Some v) ->
  isVersionPrerelease (Some v) = false.
Proof.
  intros Hstar Hr H. apply text_eqb_neq in Hstar.
  destruct (Semver.coerce (range o)) as [base |] eqn:Hc.
  - pose proof (coerce_wf _ _ Hc) as [Hb Hnil]. apply has_prerelease_nil in Hnil.
    destruct (findVersion_candidate d o (valid_versions d) base Hc (filter_valid_parses _))
      as [_ Hw].
    assert (Hcand : has_prerelease (candidate d o (valid_versions d) base) = false)
      by (unfold candidate; now apply loop_parsed_release_only).
    destruct (useGreatest o) eqn:Hg.
    + rewrite (findNewVersion_greatest A d o base) in H by assumption.
      inversion H; subst v. now rewrite isVersionPrerelease_version.
    + rewrite (findNewVersion_reconcile A d o base) in H by assumption.
      apply reconcile_cases in H as [H | [H | (tag & tv & H & _ & Ht & Hf)]].
      * inversion H; subst v. now rewrite isVersionPrerelease_version.
      * discriminate.
      * inversion H; subst tag. unfold isVersionPrerelease. rewrite Ht.
        rewrite Hr in Hf. exact Hf.
  - destruct (findNewVersion_uncoercible A d o Hstar Hc) as [E | E];
      rewrite E in H; discriminate.
Qed.

Lemma findNewVersion_release_only_witness :
  isVersionPrerelease (Some (str "2.0.3")) = false.
Proof.
  apply (findNewVersion_release_only (Flag false) svgstore
           (mkOpts false true false all_classes (str "^3.0.0")) (str "2.0.3")).
  - discriminate.
  - reflexivity.
  - vm_compute. reflexivity.
Defined.

(** X3.  [--allow-downgrade] changes the result of [findNewVersion] in one
    way only: where the result is [null] without it, it may be the latest
    tag with it, and then the tag is a release below the coerced range. *)
Theorem allowDowngrade_effect (A A' : mixedArg) (d : data) (o : opts) :
  applies A (name d) = false -> applies A' (name d) = true ->
  findNewVersion A' d o = findNewVersion A d o
  \/ (findNewVersion A d o = Ok None
      /\ exists tag, latest d = Some tag
           /\ findNewVersion A' d o = Ok (Some tag)
           /\ isVersionPrerelease (Some tag) = false
           /\ Semver.lt (Some tag) (rangeToVersion (range o)) = Ok true).
Proof.
  intros HA HA'. unfold findNewVersion, rangeToVersion.
  case_if; [now left |].
  destruct (findVersion d _ o) as [version |]; [| now left]. cbn [bind].
  case_if; [now left |].
  destruct (Semver.coerce (range o)) as [coerced |]; [| now left]. cbn [non_null bind].
  destruct (Semver.gt version _) as [isGreater |]; [| now left]. cbn [bind].
  repeat (case_if; [now left |]).
  destruct (Semver.diff _ (latest d)) as [diff |]; [| now left]. cbn [bind].
  repeat (case_if; [now left |]).
  destruct (Semver.lt (latest d) _) as [isLower |] eqn:Hlt; [| now left]. cbn [bind].
  destruct (isLower && negb (isVersionPrerelease (latest d))) eqn:Hlow; [| now left].
  rewrite HA, HA'. right. split; [reflexivity |].
  apply andb_prop in Hlow as [-> Hpre]. apply negb_true_iff in Hpre.
  destruct (latest d) as [tag |] eqn:Hl; [| discriminate].
  exists tag. now repeat split.
Qed.

Lemma allowDowngrade_effect_witness :
  let d := mkData (str "pkg") [str "1.5.0"; str "2.0.0"] None (Some (str "1.5.0")) None in
  findNewVersion (Flag true) d (default_opts "2.0.0")
  = findNewVersion (Flag false) d (default_opts "2.0.0")
  \/ (findNewVersion (Flag false) d (default_opts "2.0.0") = Ok None
      /\ exists tag, latest d = Some tag
           /\ findNewVersion (Flag true) d (default_opts "2.0.0") = Ok (Some tag)
           /\ isVersionPrerelease (Some tag) = false
           /\ Semver.lt (Some tag) (rangeToVersion (range (default_opts "2.0.0"))) = Ok true).
Proof.
  apply (allowDowngrade_effect (Flag false) (Flag true)); reflexivity.
Defined.


(** ** The order of the catalog *)

Lemma greatest_candidate_spec d o versions base :
  In (semvers o) ceilings -> greatest_mode d o = true ->
  isRangePrerelease (range o) || usePre o = false ->
  Semver.coerce (range o) = Some base -> Forall parses versions ->
  let r := candidate d o versions base in
  has_prerelease r = false /\ main_le base r
  /\ (r = base \/ exists x, In x versions /\ Semver.parse x = Some r
                            /\ qualifies o base r = true)
  /\ (forall x v, In x versions -> Semver.parse x = Some v ->
        qualifies o base v = true -> main_le v r).
Proof.
  intros Hs Hg Hnp Hc Hall r.
  pose proof (coerce_wf _ _ Hc) as [Hb Hnil].
  assert (Hinit : greatest_inv o base [] (fst (base, 0%Z))).
  { refine (conj _ (conj (main_le_refl _) (conj (or_introl eq_refl) _))).
    - split; [apply within_refl | intros _; now apply has_prerelease_nil].
    - intros x v []. }
  destruct (greatest_inv_loop d o base versions Hs Hg Hall [] (base, 0%Z) Hinit)
    as (Hinv & Hbase & Horigin & Hmax).
  cbn [app] in *. fold (candidate d o versions base) in *. fold r in Hinv, Hbase, Horigin, Hmax.
  destruct Hinv as [Hwi Hp]. specialize (Hp Hnp).
  split; [exact Hp |]. split; [exact Hbase |]. split; [| exact Hmax].
  destruct Horigin as [Heq | (x & Hx & Ex & Hf)]; [now left |].
  destruct (Semver.is_eq (Semver.compare base r)) eqn:Heq.
  - left. now apply compare_eq_release.
  - right. exists x. repeat split; try assumption.
    unfold qualifies. rewrite Hf. cbn [negb andb].
    rewrite class_accepted_iff, Heq, Hwi, Hnp, Hp, (has_prerelease_nil base Hnil)
      by assumption.
    reflexivity.
Qed.

(** X22.  In greatest mode, or without publish times, and with prereleases
    not in use, the version [findVersion] returns does not depend on the
    order of the catalog, nor on how often a version is listed: two lists
    of versions with the same members give the same result. *)
Theorem findVersion_greatest_order (d : data) (o : opts) (versions versions' : list text)
    (base : Semver.SemVer) :
  In (semvers o) ceilings -> greatest_mode d o = true ->
  isRangePrerelease (range o) || usePre o = false ->
  Semver.coerce (range o) = Some base ->
  Forall parses versions -> Forall parses versions' ->
  (forall x, In x versions <-> In x versions') ->
  findVersion d versions o = findVersion d versions' o.
Proof.
  intros Hs Hg Hnp Hc Hall Hall' Hsame.
  destruct (findVersion_candidate d o versions base Hc Hall) as [-> _].
  destruct (findVersion_candidate d o versions' base Hc Hall') as [-> _].
  destruct (greatest_candidate_spec d o versions base Hs Hg Hnp Hc Hall)
    as (Hp & Hb & Ho & Hm).
  destruct (greatest_candidate_spec d o versions' base Hs Hg Hnp Hc Hall')
    as (Hp' & Hb' & Ho' & Hm').
  do 3 f_equal. apply main_le_antisym_release; try assumption.
  - destruct Ho as [-> | (x & Hx & Ex & Hq)]; [exact Hb' |].
    apply (Hm' x); [now apply Hsame | exact Ex | exact Hq].
  - destruct Ho' as [-> | (x & Hx & Ex & Hq)]; [exact Hb |].
    apply (Hm x); [now apply Hsame | exact Ex | exact Hq].
Qed.

Lemma findVersion_greatest_order_witness :
  findVersion three_releases [str "1.0.1"; str "1.2.0"; str "1.1.0"] (greatest_opts "^1.0.0")
  = findVersion three_releases [str "1.1.0"; str "1.0.1"; str "1.2.0"; str "1.1.0"]
      (greatest_opts "^1.0.0").
Proof.
  apply (findVersion_greatest_order three_releases (greatest_opts "^1.0.0")
           [str "1.0.1"; str "1.2.0"; str "1.1.0"]
           [str "1.1.0"; str "1.0.1"; str "1.2.0"; str "1.1.0"]
           (Semver.mkSemVer 1 0 0 [])).
  - simpl. tauto.
  - reflexivity.
  - reflexivity.
  - vm_compute. reflexivity.
  - repeat (constructor; [unfold parses; vm_compute; discriminate |]). constructor.
  - repeat (constructor; [unfold parses; vm_compute; discriminate |]). constructor.
  - intros x. simpl. tauto.
Defined.
(** ** Ranges made of a prefix and a version *)

Section TestFacts.

Variable matcher : text -> option nat.

Lemma regexp_test_app (p l : text) (k : nat) :
  matcher l = Some k -> regexp_test matcher (p ++ l) = true.
Proof.
  intros H. induction p as [| c p IH].
  - destruct l; cbn; now rewrite H.
  - cbn. destruct (matcher (c :: p ++ l)); [reflexivity | exact IH].
Qed.

End TestFacts.

Lemma version_char_not_terminator c :
  version_char c = true -> is_line_terminator c = false.
Proof. ascii_cases c. Qed.

Lemma prerelease_text_nonempty (ids : list Semver.identifier) :
  ids <> [] -> Forall wf_identifier ids ->
  join "." (map Semver.format_identifier ids) <> [].
Proof.
  intros Hne Hwf. destruct ids as [| i ids]; [congruence |].
  inversion Hwf as [| ? ? Hi _]; subst.
  assert (Hi' : Semver.format_identifier i <> []).
  { destruct i as [n | s]; cbn; [apply to_digits_nonempty |].
    destruct Hi as [_ Hd]. intros ->. discriminate. }
  cbn [map]. destruct (map Semver.format_identifier ids) as [| p ps]; cbn [join].
  - exact Hi'.
  - destruct (Semver.format_identifier i); [congruence | discriminate].
Qed.

(** The printed version as [updateRange] and [isRangePrerelease] read it:
    three runs of digits and, for a prerelease, a hyphen and a text without
    line terminators. *)
Lemma version_shape (v : Semver.SemVer) :
  wf v -> has_prerelease v = true ->
  exists s, s <> [] /\ Forall (fun c => is_line_terminator c = false) s
    /\ Semver.version v
       = triple (to_digits (Semver.major v)) (to_digits (Semver.minor v))
           (to_digits (Semver.patch v)) ++ "-" :: s.
Proof.
  intros (_ & _ & _ & Hids & _) Hp. unfold has_prerelease in Hp.
  unfold Semver.version, Semver.main_version, triple.
  destruct (Semver.prerelease v) as [| i ids] eqn:E; [discriminate |].
  exists (join "." (map Semver.format_identifier (i :: ids))).
  split; [apply prerelease_text_nonempty; [discriminate | assumption] |].
  split.
  - pose proof (prerelease_text_chars _ Hids) as H.
    apply Forall_forall. intros c Hc. apply version_char_not_terminator.
    rewrite forallb_forall in H. now apply H.
  - now rewrite <- !app_assoc.
Qed.

Lemma isRangePrerelease_prefix_version (p : text) (v : Semver.SemVer) :
  Forall (fun c => is_digit c = false) p -> wf v ->
  isRangePrerelease (p ++ Semver.version v) = has_prerelease v.
Proof.
  intros Hp Hw. destruct (has_prerelease v) eqn:Hpre;
    [| now apply isRangePrerelease_prefix_release].
  destruct (version_shape v Hw Hpre) as (s & Hs & Hlt & ->).
  unfold isRangePrerelease.
  apply regexp_test_app with (k := length (triple (to_digits (Semver.major v))
                                (to_digits (Semver.minor v))
                                (to_digits (Semver.patch v)) ++ "-" :: s)).
  unfold prereleaseRe.
  rewrite match_triple_app; try apply to_digits_are_digits; [| cbn; reflexivity].
  pose proof (match_suffix_line s [] Hs Hlt I) as Hm. rewrite app_nil_r in Hm.
  rewrite Hm. now rewrite length_app.
Qed.

Lemma rangeToVersion_prefix_version (p : text) (v : Semver.SemVer) :
  Forall (fun c => is_digit c = false) p -> wf v ->
  rangeToVersion (p ++ Semver.version v) = Some (Semver.version (release_of v)).
Proof.
  intros Hp Hw. unfold rangeToVersion.
  now rewrite coerce_prefix_version by (try apply digit_free_forallb; assumption).
Qed.

(** X5.  A range made of a prefix without digits and a printed version:
    [rangeToVersion] gives the version without its prerelease identifiers,
    and [isRangePrerelease] tells whether it has some, as [semver.parse]
    would on the version. *)
Theorem range_of_printed_version (p : text) (v : Semver.SemVer) :
  Forall (fun c => is_digit c = false) p -> wf v ->
  rangeToVersion (p ++ Semver.version v) = Some (Semver.version (release_of v))
  /\ isRangePrerelease (p ++ Semver.version v) = has_prerelease v
  /\ isVersionPrerelease (Some (Semver.version v)) = has_prerelease v.
Proof.
  intros Hp Hw. split; [| split].
  - now apply rangeToVersion_prefix_version.
  - now apply isRangePrerelease_prefix_version.
  - now apply isVersionPrerelease_version.
Qed.

Lemma range_of_printed_version_witness :
  rangeToVersion (str "^" ++ Semver.version (Semver.mkSemVer 3 0 0 [Semver.Num 2]))
  = Some (Semver.version (release_of (Semver.mkSemVer 3 0 0 [Semver.Num 2])))
  /\ isRangePrerelease (str "^" ++ Semver.version (Semver.mkSemVer 3 0 0 [Semver.Num 2]))
     = has_prerelease (Semver.mkSemVer 3 0 0 [Semver.Num 2])
  /\ isVersionPrerelease (Some (Semver.version (Semver.mkSemVer 3 0 0 [Semver.Num 2])))
     = has_prerelease (Semver.mkSemVer 3 0 0 [Semver.Num 2]).
Proof.
  apply (range_of_printed_version (str "^") (Semver.mkSemVer 3 0 0 [Semver.Num 2])).
  - repeat constructor.
  - wf_prerelease.
Defined.

Lemma updateRange_prefix_version (p : text) (v : Semver.SemVer) (t : option text) :
  Forall (fun c => is_digit c = false) p -> wf v ->
  updateRange (p ++ Semver.version v) t = p ++ string_of_null t.
Proof.
  intros Hp Hw. destruct (has_prerelease v) eqn:Hpre;
    [| now apply updateRange_prefix_release].
  destruct (version_shape v Hw Hpre) as (s & Hs & Hlt & ->).
  unfold updateRange.
  pose proof (replace_all_first versionRe (string_of_null t) p
                (triple (to_digits (Semver.major v)) (to_digits (Semver.minor v))
                   (to_digits (Semver.patch v)) ++ "-" :: s) []) as H.
  rewrite !app_nil_r in H. rewrite H.
  - reflexivity.
  - now apply no_digit_no_earlier_match.
  - intros E. apply app_eq_nil in E as [_ E]. discriminate.
  - pose proof (versionRe_suffix (to_digits (Semver.major v)) (to_digits (Semver.minor v))
                  (to_digits (Semver.patch v)) s []) as H'.
    rewrite app_nil_r in H'. apply H'; try apply to_digits_are_digits; auto. exact I.
Qed.

(** X6.  [updateRange] on a range made of a prefix without digits and a
    printed version, prerelease identifiers included, puts the new version
    for the old one and keeps the prefix; the new range coerces to the
    release of the new version, is a prerelease range when the new version
    is a prerelease, and a second rewrite with the same version leaves it
    as it is. *)
Theorem updateRange_then_rangeToVersion (p : text) (v L : Semver.SemVer) :
  Forall (fun c => is_digit c = false) p -> wf v -> wf L ->
  let r' := updateRange (p ++ Semver.version v) (Some (Semver.version L)) in
  r' = p ++ Semver.version L
  /\ rangeToVersion r' = Some (Semver.version (release_of L))
  /\ isRangePrerelease r' = has_prerelease L
  /\ updateRange r' (Some (Semver.version L)) = r'.
Proof.
  intros Hp Hv HL r'.
  assert (E : r' = p ++ Semver.version L)
    by (unfold r'; now rewrite updateRange_prefix_version).
  rewrite E. split; [reflexivity |].
  split; [now apply rangeToVersion_prefix_version |].
  split; [now apply isRangePrerelease_prefix_version |].
  now rewrite updateRange_prefix_version.
Qed.

Lemma updateRange_then_rangeToVersion_witness :
  let v := Semver.mkSemVer 4 0 0 [Semver.Alnum (str "alpha"); Semver.Num 2] in
  let L := Semver.mkSemVer 4 0 0 [Semver.Alnum (str "beta"); Semver.Num 11] in
  let r' := updateRange (str "~" ++ Semver.version v) (Some (Semver.version L)) in
  r' = str "~" ++ Semver.version L
  /\ rangeToVersion r' = Some (Semver.version (release_of L))
  /\ isRangePrerelease r' = has_prerelease L
  /\ updateRange r' (Some (Semver.version L)) = r'.
Proof.
  apply (updateRange_then_rangeToVersion (str "~")
           (Semver.mkSemVer 4 0 0 [Semver.Alnum (str "alpha"); Semver.Num 2])
           (Semver.mkSemVer 4 0 0 [Semver.Alnum (str "beta"); Semver.Num 11])).
  - repeat constructor.
  - wf_prerelease.
  - wf_prerelease.
Defined.
(** ** What the patterns of [updatePackageJson] match *)

Lemma match_atoms_nil (l : text) : match_atoms [] l = Some 0.
Proof. now destruct l. Qed.

Lemma match_atoms_chars_inv (s : text) (p : list atom) :
  forall l k, match_atoms (map Char s ++ p) l = Some k ->
    exists l' k', l = s ++ l' /\ match_atoms p l' = Some k' /\ k = length s + k'.
Proof.
  induction s as [| c s IH]; intros l k H.
  - exists l, k. now repeat split.
  - cbn [map app match_atoms] in H. destruct l as [| x l]; [discriminate |].
    destruct (Ascii.eqb x c) eqn:E; [| discriminate].
    apply Ascii.eqb_eq in E. subst x.
    destruct (match_atoms (map Char s ++ p) l) as [k0 |] eqn:E0; [| discriminate].
    inversion H; subst k.
    destruct (IH l k0 E0) as (l' & k' & -> & Hp & ->).
    exists l', k'. now repeat split.
Qed.

Lemma match_atoms_plus_cons (c : ascii) (p : list atom) (x : ascii) (l : text) :
  match_atoms (Plus c :: p) (x :: l)
  = if Ascii.eqb x c then
      match match_atoms (Plus c :: p) l with
      | Some n => Some (S n)
      | None => option_map S (match_atoms p l)
      end
    else None.
Proof. reflexivity. Qed.

Lemma match_atoms_plus_inv (c : ascii) (p : list atom) :
  forall l k, match_atoms (Plus c :: p) l = Some k ->
    exists n l' k', l = repeat c (S n) ++ l' /\ match_atoms p l' = Some k'
                    /\ k = S n + k'.
Proof.
  induction l as [| x l IH]; intros k H; [discriminate |].
  rewrite match_atoms_plus_cons in H.
  destruct (Ascii.eqb x c) eqn:E; [| discriminate].
  apply Ascii.eqb_eq in E. subst x.
  destruct (match_atoms (Plus c :: p) l) as [k0 |] eqn:E0.
  - inversion H; subst k. destruct (IH k0 eq_refl) as (n & l' & k' & -> & Hp & ->).
    exists (S n), l', k'. now repeat split.
  - destruct (match_atoms p l) as [k0 |] eqn:E1; [| discriminate].
    inversion H; subst k. exists 0, l, k0. now repeat split.
Qed.


(** X8.  The pattern [updatePackageJson] builds for an entry matches at
    the head of a text exactly when the text begins with the quoted name, a
    colon, one or more spaces and the quoted old range, and the match is
    that occurrence; an entry written without a space after the colon is
    not matched. *)
Theorem dep_pattern_matches (nm o l : text) (k : nat) :
  (match_atoms (dep_pattern nm o) l = Some k
   <-> exists n post, l = occurrence nm o (S n) ++ post
                      /\ k = length (occurrence nm o (S n)))
  /\ match_atoms (dep_pattern nm o) (occurrence nm o 0 ++ l) = None.
Proof.
  assert (Hinv : forall l k, match_atoms (dep_pattern nm o) l = Some k ->
            exists n post, l = occurrence nm o (S n) ++ post
                           /\ k = length (occurrence nm o (S n))).
  { clear l k. intros l k H. rewrite dep_pattern_eq in H.
    apply match_atoms_chars_inv in H as (l1 & k1 & -> & H & ->).
    apply match_atoms_plus_inv in H as (n & l2 & k2 & -> & H & ->).
    rewrite <- (app_nil_r (map Char _)) in H.
    apply match_atoms_chars_inv in H as (l3 & k3 & -> & H & ->).
    rewrite match_atoms_nil in H. inversion H; subst k3.
    exists n, l3. unfold occurrence. split; [now rewrite <- !app_assoc |].
    rewrite !length_app, repeat_length. lia. }
  split; [split; [apply Hinv |] |].
  - intros (n & post & -> & ->). apply dep_pattern_occurrence.
  - destruct (match_atoms (dep_pattern nm o) (occurrence nm o 0 ++ l)) as [k' |] eqn:E;
      [exfalso | reflexivity].
    apply Hinv in E as (n & post & E & _). unfold occurrence in E.
    rewrite <- !app_assoc in E. apply app_inv_head in E. discriminate.
Qed.
(** ** The entries of [deps] through the loop of [main] *)

Lemma key_eqb_eq (a b : key) : key_eqb a b = true <-> a = b.
Proof.
  destruct a as [a1 a2], b as [b1 b2]. unfold key_eqb. cbn [fst snd].
  rewrite andb_true_iff, !text_eqb_eq. split; [intros [-> ->] | intros H; inversion H]; auto.
Qed.

Lemma key_eqb_refl (a : key) : key_eqb a a = true.
Proof. now apply key_eqb_eq. Qed.












(** ** The accepted classes of [findVersion] *)

Lemma includes_app (l : list Semver.ReleaseType) (x c : Semver.ReleaseType) :
  Semver.includes (l ++ [x]) c = Semver.includes l c || Semver.ReleaseType_eqb c x.
Proof.
  unfold Semver.includes. rewrite existsb_app. cbn [existsb]. now rewrite orb_false_r.
Qed.

(** X10.  The array [semvers] of [findVersion] after the pushes: the
    classes [main] gave; with prereleases in use, [prerelease] as well, and
    [prepatch], [preminor] and [premajor] where [patch], [minor] and
    [major] were given. *)
Theorem accepted_classes (semvers : list Semver.ReleaseType) (usePre : bool)
    (c : Semver.ReleaseType) :
  Semver.includes (accepted semvers usePre) c
  = Semver.includes semvers c
    || (usePre && match c with
                  | Semver.Prerelease => true
                  | Semver.Prepatch => Semver.includes semvers Semver.Patch
                  | Semver.Preminor => Semver.includes semvers Semver.Minor
                  | Semver.Premajor => Semver.includes semvers Semver.Major
                  | _ => false
                  end).
Proof.
  unfold accepted. destruct usePre; [| now rewrite orb_false_r].
  cbn [andb]. rewrite (includes_app semvers Semver.Prerelease Semver.Patch).
  cbn [Semver.ReleaseType_eqb]. rewrite orb_false_r.
  destruct (Semver.includes semvers Semver.Patch) eqn:Hp;
    rewrite ?includes_app; cbn [Semver.ReleaseType_eqb]; rewrite ?orb_false_r;
    destruct (Semver.includes semvers Semver.Minor) eqn:Hmi;
    rewrite ?includes_app; cbn [Semver.ReleaseType_eqb]; rewrite ?orb_false_r;
    destruct (Semver.includes semvers Semver.Major) eqn:Hma;
    rewrite ?includes_app; destruct c; cbn [Semver.ReleaseType_eqb];
    rewrite ?Hp, ?Hmi, ?Hma, ?orb_false_r, ?orb_true_r; reflexivity.
Qed.
(** ** The options of the command line *)

Lemma existsb_text_eqb (nm : text) (l : list text) :
  existsb (text_eqb nm) l = true <-> In nm l.
Proof.
  rewrite existsb_exists. split.
  - intros (x & Hx & E). apply text_eqb_eq in E. now subst.
  - intros H. exists nm. split; [exact H | apply text_eqb_refl].
Qed.

Lemma has_char_lacks (c : ascii) (s : text) : has_char c s = false <-> lacks c s.
Proof.
  unfold has_char, lacks. induction s as [| x s IH]; cbn [existsb].
  - split; [constructor | reflexivity].
  - rewrite orb_false_iff, IH, (Ascii.eqb_sym c x). split.
    + intros [H1 H2]. now constructor.
    + intros H. inversion H; subst. now split.
Qed.

(** X11.  What [parseMixedArg] makes of an option, as the loop of [main]
    applies it to the name of a package: a text selects the names between
    its commas, which joined by commas give the text back, the empty text
    selects every package; an array selects its elements as they are; an
    option that is not given selects no package. *)
Theorem parseMixedArg_applies :
  (forall s nm, applies (parseMixedArg (ArgText s)) nm = true
                <-> s = [] \/ In nm (split_on "," s))
  /\ (forall s, s <> [] ->
        exists l, parseMixedArg (ArgText s) = Names l /\ join "," l = s)
  /\ (forall l nm, applies (parseMixedArg (ArgArray l)) nm = true <-> In nm l)
  /\ (forall nm, applies (parseMixedArg ArgOther) nm = false).
Proof.
  assert (Hnames : forall c s, parseMixedArg (ArgText (c :: s))
                               = Names (split_on "," (c :: s))).
  { intros c s. unfold parseMixedArg.
    destruct (has_char "," (c :: s)) eqn:E; [reflexivity |].
    apply has_char_lacks in E. now rewrite split_on_lacks. }
  split; [| split; [| split]].
  - intros [| c s] nm.
    + cbn. split; [now left | reflexivity].
    + rewrite Hnames. cbn [applies]. rewrite existsb_text_eqb.
      split; [now right | intros [H | H]; [discriminate | exact H]].
  - intros [| c s] Hs; [congruence |]. exists (split_on "," (c :: s)).
    split; [apply Hnames | apply join_split_on].
  - intros l nm. cbn [parseMixedArg applies]. apply existsb_text_eqb.
  - reflexivity.
Qed.

(** ** Registries *)

Lemma endsWith_app (u p : text) : endsWith p (u ++ p) = true.
Proof.
  unfold endsWith. rewrite length_app, Nat.add_sub.
  rewrite skipn_app, skipn_all, Nat.sub_diag. cbn [skipn app]. apply text_eqb_refl.
Qed.

Lemma endsWith_split (u p : text) :
  endsWith p u = true -> u = firstn (length u - length p) u ++ p.
Proof.
  unfold endsWith. intros H. apply text_eqb_eq in H.
  pose proof (firstn_skipn (length u - length p) u) as E. rewrite H in E. now symmetry.
Qed.

(** X12.  [normalizeRegistryUrl] removes one slash from the end of an
    address: the address before a final slash is the result, and an
    address is its result or its result followed by a slash. *)
Theorem normalizeRegistryUrl_slash (u : text) :
  normalizeRegistryUrl (u ++ str "/") = u
  /\ (normalizeRegistryUrl u = u \/ u = normalizeRegistryUrl u ++ str "/").
Proof.
  unfold normalizeRegistryUrl. split.
  - rewrite endsWith_app, length_app. cbn [length str list_ascii_of_string].
    rewrite Nat.add_sub, firstn_app, firstn_all, Nat.sub_diag. cbn [firstn].
    apply app_nil_r.
  - destruct (endsWith (str "/") u) eqn:E; [right | now left].
    now apply endsWith_split in E.
Qed.

Lemma scopedRe_slash (l : text) (k : nat) : scopedRe l = Some k -> ~ lacks "/" l.
Proof.
  unfold scopedRe. destruct l as [| a [| c l1]]; try discriminate.
  case_if; [| discriminate].
  destruct (span is_name_char l1) as [run rest] eqn:Es.
  destruct run as [| x run]; [discriminate |].
  destruct rest as [| s [| c2 rest2]]; try discriminate.
  destruct (Ascii.eqb s "/") eqn:E; [| discriminate]. intros _ Hl.
  apply span_spec in Es as (-> & _ & _).
  inversion Hl as [| ? ? _ Hl1]; subst. inversion Hl1 as [| ? ? _ Hl2]; subst.
  change (lacks "/" ((x :: run) ++ s :: c2 :: rest2)) in Hl2.
  apply lacks_app in Hl2 as [_ Hl3]. inversion Hl3; subst. congruence.
Qed.

Lemma lacks_slash_not_scoped (l : text) :
  lacks "/" l -> regexp_test scopedRe l = false.
Proof.
  induction l as [| c l IH]; intros Hl.
  - reflexivity.
  - cbn [regexp_test]. destruct (scopedRe (c :: l)) as [k |] eqn:E.
    + now apply scopedRe_slash in E.
    + apply IH. now inversion Hl.
Qed.

Lemma replace_all_slash (r s : text) :
  replace_all slashRe r s
  = flat_map (fun c => if Ascii.eqb c "/" then r else [c]) s.
Proof.
  unfold replace_all. induction s as [| c s IH]; [reflexivity |].
  cbn [replace_from slashRe flat_map]. destruct (Ascii.eqb c "/"); now rewrite IH.
Qed.

Lemma escape_lacks (s : text) :
  lacks "/" s -> flat_map (fun c => if Ascii.eqb c "/" then str "%2f" else [c]) s = s.
Proof.
  induction 1 as [| c s Hc _ IH]; [reflexivity |].
  cbn [flat_map]. rewrite Hc, IH. reflexivity.
Qed.

Lemma escaped_lacks (s : text) :
  lacks "/" (flat_map (fun c => if Ascii.eqb c "/" then str "%2f" else [c]) s).
Proof.
  induction s as [| c s IH]; [constructor |]. cbn [flat_map].
  apply lacks_app. split; [| exact IH].
  destruct (Ascii.eqb c "/") eqn:E; [repeat constructor | now constructor].
Qed.

Lemma name_char_not_slash c : is_name_char c = true -> Ascii.eqb c "/" = false.
Proof. ascii_cases c. Qed.

Lemma alnum_not_slash c : is_alnum c = true -> Ascii.eqb c "/" = false.
Proof. ascii_cases c. Qed.

(** X13.  The name [fetchFromRegistry] requests: a name without a slash is
    requested as it is; where the name has the shape of a scoped name at
    some place, no slash is left in what is requested; escaping what is
    requested again changes nothing; and a scoped name, an [@], a scope, a
    slash and a name without slash, is requested with [%2f] for its
    slash. *)
Theorem fetchFromRegistry_name_escapes :
  (forall nm, lacks "/" nm -> fetchFromRegistry_name nm = nm)
  /\ (forall nm, regexp_test scopedRe nm = true -> lacks "/" (fetchFromRegistry_name nm))
  /\ (forall nm, fetchFromRegistry_name (fetchFromRegistry_name nm)
                 = fetchFromRegistry_name nm)
  /\ (forall c c2 scope pkg,
        is_alnum c = true -> scope <> [] -> forallb is_name_char scope = true ->
        is_alnum c2 = true -> lacks "/" pkg ->
        fetchFromRegistry_name ("@" :: c :: scope ++ "/" :: c2 :: pkg)
        = "@" :: c :: scope ++ str "%2f" ++ c2 :: pkg).
Proof.
  assert (H1 : forall nm, lacks "/" nm -> fetchFromRegistry_name nm = nm).
  { intros nm H. unfold fetchFromRegistry_name.
    now rewrite lacks_slash_not_scoped. }
  assert (H2 : forall nm, regexp_test scopedRe nm = true ->
                 lacks "/" (fetchFromRegistry_name nm)).
  { intros nm H. unfold fetchFromRegistry_name. rewrite H, replace_all_slash.
    apply escaped_lacks. }
  split; [exact H1 |]. split; [exact H2 |]. split.
  - intros nm. destruct (regexp_test scopedRe nm) eqn:E.
    + apply H1. now apply H2.
    + unfold fetchFromRegistry_name. now rewrite E, E.
  - intros c c2 scope pkg Hc Hs Hscope Hc2 Hpkg. unfold fetchFromRegistry_name.
    assert (Hm : scopedRe ("@" :: c :: scope ++ "/" :: c2 :: pkg) <> None).
    { unfold scopedRe. rewrite Hc. cbn [Ascii.eqb andb].
      rewrite (span_app is_name_char scope ("/" :: c2 :: pkg) Hscope eq_refl).
      destruct scope; [congruence |]. rewrite Hc2. discriminate. }
    assert (Ht : regexp_test scopedRe ("@" :: c :: scope ++ "/" :: c2 :: pkg) = true).
    { cbn [regexp_test]. destruct (scopedRe _); [reflexivity | congruence]. }
    rewrite Ht, replace_all_slash.
    change ("@" :: c :: scope ++ "/" :: c2 :: pkg)
      with (("@" :: c :: scope) ++ ["/"] ++ c2 :: pkg).
    rewrite !flat_map_app, (escape_lacks ("@" :: c :: scope)), (escape_lacks (c2 :: pkg)).
    + reflexivity.
    + constructor; [now apply alnum_not_slash | exact Hpkg].
    + constructor; [reflexivity |]. constructor; [now apply alnum_not_slash |].
      apply (lacks_class is_name_char); [apply name_char_not_slash | exact Hscope].
Qed.

Lemma fetchFromRegistry_name_escapes_witness :
  fetchFromRegistry_name ("@" :: "b" :: str "abel" ++ "/" :: "p" :: str "reset-env")
  = "@" :: "b" :: str "abel" ++ str "%2f" ++ "p" :: str "reset-env".
Proof.
  apply (proj2 (proj2 (proj2 fetchFromRegistry_name_escapes))).
  - reflexivity.
  - discriminate.
  - reflexivity.
  - reflexivity.
  - repeat constructor.
Defined.

(** X14.  What [getAuthAndRegistry] returns.  A pair has the registry that
    was given, with what the configuration holds for it, or, for a name
    that starts with [@], the registry of the scope where this is another
    one and the configuration holds a token for it.  Nothing is returned,
    and the caller throws on taking the pair apart, exactly for a name that
    starts with [@] whose scope has another registry for which the
    configuration is read without finding a token.  An exception comes
    from reading the configuration for the registry given. *)
Theorem getAuthAndRegistry_cases (registryAuthToken : text -> result (option auth))
    (registryUrl : option text -> text) (nm registry : text) :
  let url := normalizeRegistryUrl (registryUrl (exec scopeRe nm)) in
  (forall a r,
      getAuthAndRegistry registryAuthToken registryUrl nm registry = Ok (Some (a, r)) ->
      (r = registry /\ registryAuthToken registry = Ok a)
      \/ (startsWith (str "@") nm = true /\ r = url /\ url <> registry
          /\ registryAuthToken url = Ok a /\ has_token a = true))
  /\ (getAuthAndRegistry registryAuthToken registryUrl nm registry = Ok None
      <-> startsWith (str "@") nm = true /\ url <> registry
          /\ exists a, registryAuthToken url = Ok a /\ has_token a = false)
  /\ (getAuthAndRegistry registryAuthToken registryUrl nm registry = Throw ->
      registryAuthToken registry = Throw).
Proof.
  intros url. unfold getAuthAndRegistry. fold url.
  destruct (startsWith (str "@") nm) eqn:Hs; cbn [negb].
  - destruct (text_eqb url registry) eqn:Hu; cbn [negb].
    + apply text_eqb_eq in Hu.
      destruct (registryAuthToken registry) as [a0 |] eqn:Ha; cbn [bind].
      * split; [| split].
        -- intros a r H. inversion H; subst. now left.
        -- split; [discriminate | intros (_ & Hne & _); congruence].
        -- discriminate.
      * split; [discriminate |]. split; [| reflexivity].
        split; [discriminate | intros (_ & Hne & _); congruence].
    + apply text_eqb_neq in Hu.
      destruct (registryAuthToken url) as [newAuth |] eqn:Hn.
      * destruct (has_token newAuth) eqn:Ht.
        -- split; [| split].
           ++ intros a r H. inversion H; subst. right. now repeat split.
           ++ split; [discriminate |].
              intros (_ & _ & a & Ea & Hf). inversion Ea; subst. congruence.
           ++ discriminate.
        -- split; [discriminate |]. split; [| discriminate].
           split; [intros _; repeat split; eauto | reflexivity].
      * destruct (registryAuthToken registry) as [a0 |] eqn:Ha; cbn [bind].
        -- split; [| split].
           ++ intros a r H. inversion H; subst. now left.
           ++ split; [discriminate | intros (_ & _ & a & Ea & _); discriminate].
           ++ discriminate.
        -- split; [discriminate |]. split; [| reflexivity].
           split; [discriminate | intros (_ & _ & a & Ea & _); discriminate].
  - destruct (registryAuthToken registry) as [a0 |] eqn:Ha; cbn [bind].
    + split; [| split].
      * intros a r H. inversion H; subst. now left.
      * split; [discriminate | intros (H & _); discriminate].
      * discriminate.
    + split; [discriminate |]. split; [| reflexivity].
      split; [discriminate | intros (H & _); discriminate].
Qed.

(** A scoped package, a registry given on the command line and no token
    for the registry of the scope: nothing is returned. *)
Example getAuthAndRegistry_undefined :
  getAuthAndRegistry (fun _ => Ok None) (fun _ => defaultRegistry ++ str "/")
    (str "@babel/core") custom_registry
  = Ok None.
Proof. reflexivity. Qed.
(** ** The table of the results *)

Lemma flat_map_singletons (p : ascii -> bool) (a : text) :
  flat_map (fun char => if p char then [char] else [char]) a = a.
Proof.
  induction a as [| c a IH]; [reflexivity |]. cbn [flat_map].
  rewrite IH. now destruct (p c).
Qed.

Lemma highlightDiff_loop_plain (aParts : list text) :
  forall bParts res, aParts <> [] ->
    highlightDiff_loop (fun t => t) aParts bParts res
    = res ++ shown (join "." aParts) (first_diff aParts bParts).
Proof.
  induction aParts as [| a aRest IH]; intros bParts res Hne; [congruence |].
  cbn [highlightDiff_loop first_diff].
  assert (Hdiff : res ++ (if versionPartRe a then join "." (a :: aRest)
                          else flat_map (fun char => if versionPartRe [char] then [char]
                                                     else [char]) a
                               ++ "." :: join "." aRest)
                  = res ++ shown (join "." (a :: aRest)) (Some (a, aRest))).
  { f_equal. unfold shown. destruct (versionPartRe a); [reflexivity |].
    rewrite flat_map_singletons. cbn [orb].
    destruct aRest as [| a' aRest']; [reflexivity |].
    reflexivity. }
  destruct bParts as [| b bRest]; cbn [negb].
  - rewrite <- Hdiff. now destruct (versionPartRe a); rewrite <- ?app_assoc.
  - destruct (text_eqb a b) eqn:E; cbn [negb].
    + cbn [tl]. destruct aRest as [| a' aRest'].
      * reflexivity.
      * rewrite IH by discriminate. rewrite <- !app_assoc. f_equal.
        change (join "." (a :: a' :: aRest')) with (a ++ "." :: join "." (a' :: aRest')).
        unfold shown. destruct (first_diff (a' :: aRest') bRest) as [[p rest] |].
        -- destruct (versionPartRe p || negb (Nat.eqb (length rest) 0));
             now rewrite <- ?app_assoc.
        -- now rewrite <- ?app_assoc.
    + rewrite <- Hdiff. now destruct (versionPartRe a); rewrite <- ?app_assoc.
Qed.

(** X15.  Without colours, [highlightDiff] gives its first text back: as it
    is when the first of its parts between dots that differs from the part
    of the second text is made of the characters of versions or is not the
    last part; followed by a dot otherwise, also when no part differs. *)
Theorem highlightDiff_plain (a b : text) :
  highlightDiff (fun t => t) a b
  = shown a (first_diff (split_on "." a) (split_on "." b))
  /\ (highlightDiff (fun t => t) a b = a \/ highlightDiff (fun t => t) a b = a ++ ["."]).
Proof.
  assert (E : highlightDiff (fun t => t) a b
              = shown a (first_diff (split_on "." a) (split_on "." b))).
  { unfold highlightDiff.
    rewrite highlightDiff_loop_plain by apply split_on_nonempty.
    now rewrite join_split_on. }
  split; [exact E |]. rewrite E. unfold shown.
  destruct (first_diff _ _) as [[p rest] |]; [| now right].
  destruct (versionPartRe p || _); [now left | now right].
Qed.

(** A prerelease and the next one with one more identifier: the old
    version is shown with a dot after it. *)
Example highlightDiff_trailing_dot :
  highlightDiff (fun t => t) (str "1.0.0-beta") (str "1.0.0-beta.2") = str "1.0.0-beta."
  /\ highlightDiff (fun t => t) (str "1.0.0-beta.2") (str "1.0.0-beta")
     = str "1.0.0-beta.2".
Proof. split; reflexivity. Qed.
(** ** Dependencies given by an address *)

Lemma match_host_suffix (l rest : text) :
  match_host l = Some rest -> exists p, l = p ++ rest.
Proof.
  unfold match_host. case_if; [| discriminate].
  destruct (skipn 10 l) as [| c r] eqn:E; [discriminate |].
  case_if; [| discriminate]. intros H. inversion H; subst r.
  exists (firstn 10 l ++ [c]). rewrite <- app_assoc. cbn [app].
  rewrite <- E. symmetry. apply firstn_skipn.
Qed.

Lemma match_user_host_suffix (l : text) :
  forall rest, match_user_host l = Some rest -> exists p, l = p ++ rest.
Proof.
  induction l as [| c l IH]; intros rest H; [discriminate |].
  cbn [match_user_host] in H.
  destruct (if Ascii.eqb c "@" then match_host l else None) as [r |] eqn:E.
  - inversion H; subst r. destruct (Ascii.eqb c "@"); [| discriminate].
    apply match_host_suffix in E as [p ->]. now exists (c :: p).
  - destruct (is_line_terminator c); [discriminate |].
    apply IH in H as [p ->]. now exists (c :: p).
Qed.

Lemma stripRe_suffix (l : text) :
  forall rest, stripRe l = Some rest -> exists p, l = p ++ rest.
Proof.
  induction l as [| c l IH]; intros rest H; [discriminate |].
  cbn [stripRe] in H.
  destruct (if startsWith (str "://") (c :: l)
            then match_after_scheme (skipn 3 (c :: l)) else None) as [r |] eqn:E.
  - inversion H; subst r. destruct (startsWith _ _); [| discriminate].
    unfold match_after_scheme in E.
    assert (Hs : exists p, skipn 3 (c :: l) = p ++ rest).
    { destruct (match_user_host (skipn 3 (c :: l))) as [r |] eqn:E'.
      - inversion E; subst r. now apply match_user_host_suffix.
      - now apply match_host_suffix. }
    destruct Hs as [p Hp]. exists (firstn 3 (c :: l) ++ p).
    rewrite <- app_assoc, <- Hp. symmetry. apply firstn_skipn.
  - destruct (is_line_terminator c); [discriminate |].
    apply IH in H as [p ->]. now exists (c :: p).
Qed.

Lemma strip_suffix (old : text) : exists p, old = p ++ strip old.
Proof.
  unfold strip. destruct (stripRe old) as [rest |] eqn:E.
  - now apply stripRe_suffix.
  - now exists [].
Qed.

Lemma match_ref_spec (l : text) :
  forall ref, match_ref l = Some ref ->
    is_ref ref = true /\ exists g, l = g ++ ref.
Proof.
  induction l as [| c l IH]; intros ref H.
  - cbn in H. discriminate.
  - cbn [match_ref] in H. destruct (is_ref (c :: l)) eqn:E.
    + inversion H; subst ref. split; [exact E | now exists []].
    + destruct (is_line_terminator c); [discriminate |].
      apply IH in H as [Hr [g ->]]. split; [exact Hr | now exists (c :: g)].
Qed.

Lemma match_repo_spec (len : nat) (l : text) :
  forall repo ref, match_repo len l = Some (repo, ref) ->
    exists n, 1 <= n <= len /\ repo = firstn n l /\ match_ref (skipn n l) = Some ref.
Proof.
  induction len as [| n IH]; intros repo ref H; [discriminate |].
  cbn [match_repo] in H. destruct (match_ref (skipn (S n) l)) as [r |] eqn:E.
  - inversion H; subst. exists (S n). repeat split; [lia | lia | exact E].
  - apply IH in H as (m & Hm & -> & Hr). exists m. repeat split; [lia | lia | exact Hr].
Qed.

Lemma Forall_firstn {A : Type} (P : A -> Prop) (n : nat) (l : list A) :
  Forall P l -> Forall P (firstn n l).
Proof.
  intros H. revert n. induction H as [| x l Hx _ IH]; intros [| n]; cbn [firstn];
    constructor; auto.
Qed.

(** What a match of [partsRe] with its three groups is made of. *)
Lemma partsRe_spec (s usr rp ref : text) :
  partsRe s = Some (usr, Some rp, ref) ->
  usr <> [] /\ lacks "/" usr /\ rp <> []
  /\ Forall (fun c => Ascii.eqb c "/" = false /\ Ascii.eqb c "#" = false) rp
  /\ is_ref ref = true
  /\ exists g, s = usr ++ "/" :: rp ++ g ++ ref.
Proof.
  unfold partsRe.
  destruct (span (fun c => negb (Ascii.eqb c "/")) s) as [u r] eqn:Es.
  destruct u as [| u0 u]; [discriminate |].
  destruct r as [| c0 r1]; [discriminate |].
  apply span_spec in Es as (-> & Hu & Hc0). apply negb_false_iff, Ascii.eqb_eq in Hc0.
  subst c0.
  destruct (span _ r1) as [run rest] eqn:Er. cbn [fst].
  destruct (match_repo (length run) r1) as [[repo ref'] |] eqn:Em.
  - intros H. inversion H; subst. clear H.
    apply match_repo_spec in Em as (n & Hn & -> & Hr).
    apply match_ref_spec in Hr as [Hr [g Hg]].
    apply span_spec in Er as (-> & Hrun & _).
    split; [discriminate |]. split.
    { apply Forall_forall. intros c Hc. rewrite forallb_forall in Hu.
      apply Hu in Hc. now apply negb_true_iff in Hc. }
    split.
    { destruct n; [lia |]. destruct run; [cbn in Hn; lia | discriminate]. }
    split.
    { rewrite firstn_app. replace (n - length run) with 0 by lia.
      cbn [firstn]. rewrite app_nil_r. apply Forall_firstn.
      apply Forall_forall. intros c Hc.
      rewrite forallb_forall in Hrun. apply Hrun in Hc.
      apply andb_prop in Hc as [H1 H2]. now rewrite negb_true_iff in H1, H2. }
    split; [exact Hr |]. exists g.
    now rewrite <- Hg, firstn_skipn.
  - destruct (match_ref r1); discriminate.
Qed.

Lemma is_ref_nonempty (ref : text) : is_ref ref = true -> ref <> [].
Proof. intros H ->. discriminate. Qed.

Lemma parse_empty (t : text) : Semver.parse (strip_prefix (str "v") t) <> None -> t <> [].
Proof. intros H ->. now apply H. Qed.

Lemma valid_parse (t : text) : is_some (Semver.valid t) = is_some (Semver.parse t).
Proof. unfold Semver.valid. now destruct (Semver.parse t). Qed.

Lemma replace_first_occurrence (p r : text) (s : text) :
  forall a b, s = a ++ p ++ b ->
    exists a' b', s = a' ++ p ++ b' /\ replace_first p r s = a' ++ r ++ b'.
Proof.
  induction s as [| c s IH]; intros a b Hs.
  - exists [], []. destruct a; [| discriminate]. destruct p; [| discriminate].
    split; [reflexivity |]. cbn. now rewrite app_nil_r.
  - cbn [replace_first]. destruct (startsWith p (c :: s)) eqn:E.
    + exists [], (skipn (length p) (c :: s)). split; [| reflexivity].
      unfold startsWith in E. apply text_eqb_eq in E. cbn [app].
      rewrite <- E at 1. symmetry. apply firstn_skipn.
    + destruct a as [| x a].
      * exfalso. cbn [app] in Hs. unfold startsWith in E. apply text_eqb_neq in E.
        apply E. rewrite Hs, firstn_app, firstn_all, Nat.sub_diag. cbn [firstn].
        apply app_nil_r.
      * inversion Hs; subst. destruct (IH a b eq_refl) as (a' & b' & Hs' & Hr).
        exists (x :: a'), b'. cbn [app]. now rewrite <- Hs', Hr.
Qed.

Lemma firstn_prefix {A : Type} (n : nat) (l : list A) :
  exists rest, l = firstn n l ++ rest.
Proof. exists (skipn n l). symmetry. apply firstn_skipn. Qed.

Lemma constructed (t : text) (v : Semver.SemVer) :
  Semver.parse t = Some v -> Semver.construct (Some t) = Ok v.
Proof. unfold Semver.construct. now intros ->. Qed.

Lemma greatestTag_step_spec (st : text * text) (tag : text) (gv : Semver.SemVer) :
  fst st <> [] -> Semver.parse (snd st) = Some gv ->
  greatestTag_step st tag
  = Ok (match Semver.parse (strip_prefix (str "v") tag) with
        | Some tv => if Semver.is_gt (Semver.compare tv gv)
                     then (tag, strip_prefix (str "v") tag) else st
        | None => st
        end).
Proof.
  destruct st as [g gb]. cbn [fst snd]. intros Hg Hgb. unfold greatestTag_step.
  rewrite valid_parse.
  destruct (Semver.parse (strip_prefix (str "v") tag)) as [tv |] eqn:Et;
    [| reflexivity].
  cbn [is_some negb]. destruct g as [| c g]; [congruence |]. cbn [falsy].
  unfold Semver.gt. rewrite (constructed _ _ Et), (constructed _ _ Hgb). cbn [bind].
  now destruct (Semver.is_gt (Semver.compare tv gv)).
Qed.

Lemma compare_gt_irrefl (a b : Semver.SemVer) :
  Semver.compare a b = Gt -> Semver.is_eq (Semver.compare b a) = false.
Proof.
  intros H. destruct (Semver.compare b a) eqn:E; try reflexivity.
  apply compare_eq in E. subst. rewrite compare_refl in H. discriminate.
Qed.

Lemma greatestTag_loop_inv (ref : text) (ov : Semver.SemVer) (tags : list text) :
  forall seen st, greatestTag_inv ref ov seen st ->
    exists st', greatestTag_loop tags st = Ok st'
                /\ greatestTag_inv ref ov (seen ++ tags) st'.
Proof.
  induction tags as [| tag rest IH]; intros seen st Hinv.
  - exists st. now rewrite app_nil_r.
  - cbn [greatestTag_loop]. destruct Hinv as (Hne & Hbare & gv & Hgv & Horigin & Hmax).
    rewrite (greatestTag_step_spec st tag gv Hne Hgv). cbn [bind].
    replace (seen ++ tag :: rest) with ((seen ++ [tag]) ++ rest)
      by (now rewrite <- app_assoc).
    apply IH.
    assert (Horigin' : (fst st = ref /\ gv = ov)
              \/ (In (fst st) (seen ++ [tag]) /\ Semver.compare gv ov = Gt)).
    { destruct Horigin as [H | [H1 H2]]; [now left | right].
      split; [apply in_or_app; now left | exact H2]. }
    destruct (Semver.parse (strip_prefix (str "v") tag)) as [tv |] eqn:Et.
    + destruct (Semver.is_gt (Semver.compare tv gv)) eqn:Hgt.
      * assert (Egt : Semver.compare tv gv = Gt)
          by (destruct (Semver.compare tv gv); now try discriminate).
        unfold greatestTag_inv. cbn [fst snd]. split.
        { apply parse_empty. rewrite Et. discriminate. }
        split; [reflexivity |]. exists tv. split; [exact Et |]. split.
        { right. split; [apply in_or_app; right; now left |].
          destruct Horigin as [[_ ->] | [_ H]]; [exact Egt |].
          eapply compare_trans; eassumption. }
        intros t v Ht Ev. apply in_app_or in Ht as [Ht | [<- | []]].
        -- specialize (Hmax t v Ht Ev).
           destruct (Semver.compare v tv) eqn:E; try reflexivity. exfalso.
           rewrite (compare_trans _ _ _ E Egt) in Hmax. discriminate.
        -- rewrite Et in Ev. inversion Ev; subst v. now rewrite compare_refl.
      * split; [exact Hne |]. split; [exact Hbare |]. exists gv.
        split; [exact Hgv |]. split; [exact Horigin' |].
        intros t v Ht Ev. apply in_app_or in Ht as [Ht | [<- | []]]; [eauto |].
        rewrite Et in Ev. inversion Ev; subst v. exact Hgt.
    + split; [exact Hne |]. split; [exact Hbare |]. exists gv.
      split; [exact Hgv |]. split; [exact Horigin' |].
      intros t v Ht Ev. apply in_app_or in Ht as [Ht | [<- | []]]; [eauto |].
      congruence.
Qed.

Lemma last_tag_In (tags : list text) (t : text) : last_tag tags = Some t -> In t tags.
Proof.
  unfold last_tag. destruct (rev tags) as [| x l] eqn:E; [discriminate |].
  intros H. inversion H; subst x. apply in_rev. rewrite E. now left.
Qed.

Lemma last_tag_app (init : list text) (t : text) : last_tag (init ++ [t]) = Some t.
Proof. unfold last_tag. now rewrite rev_app_distr. Qed.

(** The branch of [checkUrlDep] for a tag, once the old range is taken
    apart and GitHub has answered. *)
Lemma checkUrlDep_tags commits tags useGreatest old usr rp ref data ov :
  partsRe (strip old) = Some (usr, Some rp, ref) -> hashRe ref = false ->
  tags usr rp = Ok (Some data) ->
  Semver.parse (strip_prefix (str "v") ref) = Some ov ->
  let names := map (strip_prefix (str "refs/tags/")) data in
  checkUrlDep commits tags useGreatest old
  = if useGreatest then
      st <- greatestTag_loop names (ref, strip_prefix (str "v") ref) ;;
      match Semver.parse (snd st) with
      | Some gv => if Semver.is_eq (Semver.compare ov gv) then Ok None
                   else Ok (Some (mkUrlUpdate (fst st) usr rp ref (fst st)))
      | None => Throw
      end
    else
      match last_tag names with
      | None => Throw
      | Some t =>
          match Semver.parse (strip_prefix (str "v") t) with
          | Some tv => if Semver.is_eq (Semver.compare ov tv) then Ok None
                       else Ok (Some (mkUrlUpdate t usr rp ref t))
          | None => Ok None
          end
      end.
Proof.
  intros Hp Hh Ht Hov names. unfold checkUrlDep.
  rewrite Hp, Hh, Ht. cbn [bind]. rewrite valid_parse, Hov. cbn [is_some negb].
  fold names. destruct useGreatest; cbn [negb].
  - destruct (greatestTag_loop names _) as [st |]; [| reflexivity]. cbn [bind].
    unfold semver_neq. rewrite (constructed _ _ Hov). cbn [bind].
    unfold Semver.construct. destruct (Semver.parse (snd st)) as [gv |]; [| reflexivity].
    cbn [non_null bind]. now destruct (Semver.is_eq (Semver.compare ov gv)).
  - destruct (last_tag names) as [t |]; [| reflexivity]. cbn [non_null bind].
    rewrite valid_parse.
    destruct (Semver.parse (strip_prefix (str "v") t)) as [tv |] eqn:Et; [| reflexivity].
    cbn [is_some negb]. unfold semver_neq.
    rewrite (constructed _ _ Hov), (constructed _ _ Et). cbn [bind].
    now destruct (Semver.is_eq (Semver.compare ov tv)).
Qed.

(** X17.  A dependency pinned to a tag, in greatest mode, once GitHub has
    listed the tags: [checkUrlDep] returns, and what it returns is an
    update to a tag whose version is above the version of the old
    reference and below no version of a tag, or nothing when no tag has a
    version above the old one.  Tags that are no versions are passed
    over. *)
Theorem checkUrlDep_greatest_tag
    (commits : text -> text -> result (option (list (option text))))
    (tags : text -> text -> result (option (list text)))
    (old usr rp ref : text) (data : list text) (ov : Semver.SemVer) :
  partsRe (strip old) = Some (usr, Some rp, ref) -> hashRe ref = false ->
  tags usr rp = Ok (Some data) ->
  Semver.parse (strip_prefix (str "v") ref) = Some ov ->
  let names := map (strip_prefix (str "refs/tags/")) data in
  (exists t nv,
      checkUrlDep commits tags true old = Ok (Some (mkUrlUpdate t usr rp ref t))
      /\ In t names /\ Semver.parse (strip_prefix (str "v") t) = Some nv
      /\ Semver.compare nv ov = Gt
      /\ forall t' v, In t' names -> Semver.parse (strip_prefix (str "v") t') = Some v ->
            Semver.is_gt (Semver.compare v nv) = false)
  \/ (checkUrlDep commits tags true old = Ok None
      /\ forall t' v, In t' names -> Semver.parse (strip_prefix (str "v") t') = Some v ->
            Semver.is_gt (Semver.compare v ov) = false).
Proof.
  intros Hp Hh Ht Hov names.
  rewrite (checkUrlDep_tags commits tags true old usr rp ref data ov) by assumption.
  fold names.
  assert (Href : ref <> []).
  { apply partsRe_spec in Hp as (_ & _ & _ & _ & Hr & _). now apply is_ref_nonempty. }
  assert (Hinit : greatestTag_inv ref ov [] (ref, strip_prefix (str "v") ref)).
  { split; [exact Href |]. split; [reflexivity |]. exists ov.
    split; [exact Hov |]. split; [now left |]. intros t v []. }
  destruct (greatestTag_loop_inv ref ov names [] _ Hinit)
    as (st & -> & _ & Hbare & gv & Hgv & Horigin & Hmax).
  cbn [bind app] in *. rewrite Hgv.
  destruct Horigin as [[_ ->] | [Hin Hgt]].
  - right. rewrite compare_refl. cbn [Semver.is_eq]. now split.
  - left. rewrite (compare_gt_irrefl _ _ Hgt). exists (fst st), gv.
    rewrite <- Hbare. now repeat split.
Qed.

(** X16.  An update that [checkUrlDep] returns.  The old reference is the
    end of the old range, a text of hexadecimal digits or three numbers
    between dots after an optional [v]; the user has no slash, the
    repository neither slash nor [#], and none is empty; the new reference
    is another text than the old one.  For a hash the new reference is the
    head of the [sha] of the first commit, no longer than the old
    reference, and the new range is the old range with the new reference
    for one occurrence of the old one.  For a tag the new range is the new
    reference alone, one of the tags of the repository. *)
Theorem checkUrlDep_update (commits : text -> text -> result (option (list (option text))))
    (tags : text -> text -> result (option (list text)))
    (useGreatest : bool) (old : text) (u : urlUpdate) :
  checkUrlDep commits tags useGreatest old = Ok (Some u) ->
  (exists pre, old = pre ++ oldRef u)
  /\ is_ref (oldRef u) = true
  /\ user u <> [] /\ lacks "/" (user u) /\ repo u <> []
  /\ Forall (fun c => Ascii.eqb c "/" = false /\ Ascii.eqb c "#" = false) (repo u)
  /\ newRef u <> oldRef u
  /\ (hashRe (oldRef u) = true ->
      length (newRef u) <= length (oldRef u)
      /\ (exists sha rest more,
             commits (user u) (repo u) = Ok (Some (Some sha :: more))
             /\ sha = newRef u ++ rest)
      /\ exists a b, old = a ++ oldRef u ++ b /\ newRange u = a ++ newRef u ++ b)
  /\ (hashRe (oldRef u) = false ->
      newRange u = newRef u
      /\ exists data, tags (user u) (repo u) = Ok (Some data)
           /\ In (newRef u) (map (strip_prefix (str "refs/tags/")) data)).
Proof.
  intros H. pose proof H as H0. unfold checkUrlDep in H.
  destruct (partsRe (strip old)) as [[[usr [rp |]] ref] |] eqn:Ep; try discriminate.
  pose proof Ep as Hparts.
  apply partsRe_spec in Ep as (Husr & Hslash & Hrp & Hrpc & Href & g & Hs).
  destruct (strip_suffix old) as [p0 Hold].
  assert (Hend : exists pre, old = pre ++ ref).
  { exists (p0 ++ usr ++ "/" :: rp ++ g). rewrite Hold at 1. rewrite Hs.
    rewrite <- !app_assoc. cbn [app]. now rewrite <- !app_assoc. }
  destruct (hashRe ref) eqn:Hh.
  - destruct (commits usr rp) as [[data |] |] eqn:Ec; try discriminate.
    cbn [bind] in H. destruct data as [| first more]; [discriminate |].
    cbn [hd_error non_null bind] in H.
    destruct first as [[| c sha] |]; try discriminate.
    destruct (negb (text_eqb ref (firstn (length ref) (c :: sha)))) eqn:Hne;
      [| discriminate].
    inversion H; subst u; clear H. cbn [oldRef newRef newRange user repo].
    apply negb_true_iff, text_eqb_neq in Hne.
    repeat (split; [assumption |]). split; [congruence |]. split.
    + intros _. split; [apply firstn_le_length |]. split.
      * destruct (firstn_prefix (length ref) (c :: sha)) as [rest Hrest].
        exists (c :: sha), rest, more. now split.
      * destruct Hend as [pre Hpre].
        destruct (replace_first_occurrence ref (firstn (length ref) (c :: sha)) old pre [])
          as (a & b & Ha & Hb); [now rewrite app_nil_r |].
        exists a, b. now split.
    + rewrite Hh. discriminate.
  - destruct (tags usr rp) as [[data |] |] eqn:Et; try discriminate.
    cbn [bind] in H.
    destruct (negb (is_some (Semver.valid (strip_prefix (str "v") ref)))) eqn:Hv;
      [discriminate |].
    clear H. apply negb_false_iff in Hv. rewrite valid_parse in Hv.
    destruct (Semver.parse (strip_prefix (str "v") ref)) as [ov |] eqn:Hov;
      [| discriminate].
    rewrite (checkUrlDep_tags commits tags useGreatest old usr rp ref data ov) in H0
      by assumption.
    assert (Hu : newRange u = newRef u /\ user u = usr /\ repo u = rp /\ oldRef u = ref
                 /\ newRef u <> ref
                 /\ In (newRef u) (map (strip_prefix (str "refs/tags/")) data)).
    { destruct useGreatest.
      - assert (Hinit : greatestTag_inv ref ov [] (ref, strip_prefix (str "v") ref)).
        { split; [now apply is_ref_nonempty |]. split; [reflexivity |]. exists ov.
          split; [exact Hov |]. split; [now left |]. intros t v []. }
        destruct (greatestTag_loop_inv ref ov
                    (map (strip_prefix (str "refs/tags/")) data) [] _ Hinit)
          as (st & E & _ & Hbare & gv & Hgv & Horigin & _).
        rewrite E in H0. cbn [bind app] in *. rewrite Hgv in H0.
        destruct Horigin as [[_ ->] | [Hin Hgt]].
        + rewrite compare_refl in H0. discriminate.
        + rewrite (compare_gt_irrefl _ _ Hgt) in H0. inversion H0; subst u.
          cbn [oldRef newRef newRange user repo]. repeat split; try assumption.
          intros Heq. rewrite Hbare, Heq, Hov in Hgv. inversion Hgv; subst gv.
          rewrite compare_refl in Hgt. discriminate.
      - destruct (last_tag _) as [t |] eqn:El; [| discriminate].
        destruct (Semver.parse (strip_prefix (str "v") t)) as [tv |] eqn:Etv;
          [| discriminate].
        destruct (Semver.is_eq (Semver.compare ov tv)) eqn:Heq; [discriminate |].
        inversion H0; subst u. cbn [oldRef newRef newRange user repo].
        repeat split; try assumption.
        + intros ->. rewrite Hov in Etv. inversion Etv; subst tv.
          rewrite compare_refl in Heq. discriminate.
        + now apply last_tag_In. }
    destruct Hu as (Hr & -> & -> & -> & Hne & Hin).
    repeat (split; [assumption |]). split.
    + rewrite Hh. discriminate.
    + intros _. split; [exact Hr |]. exists data. now split.
Qed.

Lemma checkUrlDep_update_witness :
  let u := mkUrlUpdate (str "v1.2.0") (str "silverwind") (str "updates") (str "v1.0.0")
             (str "v1.2.0") in
  let old := str "https://github.com/silverwind/updates#v1.0.0" in
  (exists pre, old = pre ++ oldRef u)
  /\ is_ref (oldRef u) = true
  /\ user u <> [] /\ lacks "/" (user u) /\ repo u <> []
  /\ Forall (fun c => Ascii.eqb c "/" = false /\ Ascii.eqb c "#" = false) (repo u)
  /\ newRef u <> oldRef u
  /\ (hashRe (oldRef u) = true ->
      length (newRef u) <= length (oldRef u)
      /\ (exists sha rest more,
             no_commits (user u) (repo u) = Ok (Some (Some sha :: more))
             /\ sha = newRef u ++ rest)
      /\ exists a b, old = a ++ oldRef u ++ b /\ newRange u = a ++ newRef u ++ b)
  /\ (hashRe (oldRef u) = false ->
      newRange u = newRef u
      /\ exists data, three_tags (user u) (repo u) = Ok (Some data)
           /\ In (newRef u) (map (strip_prefix (str "refs/tags/")) data)).
Proof.
  apply (checkUrlDep_update no_commits three_tags true
           (str "https://github.com/silverwind/updates#v1.0.0")).
  vm_compute. reflexivity.
Defined.

Lemma checkUrlDep_greatest_tag_witness :
  let names := map (strip_prefix (str "refs/tags/"))
                 [str "refs/tags/v1.0.0"; str "refs/tags/v1.2.0"; str "refs/tags/v1.1.0"] in
  let old := str "https://github.com/silverwind/updates#v1.0.0" in
  let ov := Semver.mkSemVer 1 0 0 [] in
  (exists t nv,
      checkUrlDep no_commits three_tags true old
      = Ok (Some (mkUrlUpdate t (str "silverwind") (str "updates") (str "v1.0.0") t))
      /\ In t names /\ Semver.parse (strip_prefix (str "v") t) = Some nv
      /\ Semver.compare nv ov = Gt
      /\ forall t' v, In t' names -> Semver.parse (strip_prefix (str "v") t') = Some v ->
            Semver.is_gt (Semver.compare v nv) = false)
  \/ (checkUrlDep no_commits three_tags true old = Ok None
      /\ forall t' v, In t' names -> Semver.parse (strip_prefix (str "v") t') = Some v ->
            Semver.is_gt (Semver.compare v ov) = false).
Proof.
  apply (checkUrlDep_greatest_tag no_commits three_tags
           (str "https://github.com/silverwind/updates#v1.0.0")
           (str "silverwind") (str "updates") (str "v1.0.0")).
  - vm_compute. reflexivity.
  - reflexivity.
  - reflexivity.
  - vm_compute. reflexivity.
Defined.

(** X18.  A dependency pinned to a tag, outside greatest mode, once GitHub
    has listed the tags: without a tag [checkUrlDep] throws; otherwise the
    last tag of the list decides alone, whatever the tags before it are:
    nothing is returned when it is no version or the version of the old
    reference, and it is the update otherwise, also when its version is
    below the old one. *)
Theorem checkUrlDep_last_tag
    (commits : text -> text -> result (option (list (option text))))
    (tags : text -> text -> result (option (list text)))
    (old usr rp ref : text) (data : list text) (ov : Semver.SemVer) :
  partsRe (strip old) = Some (usr, Some rp, ref) -> hashRe ref = false ->
  tags usr rp = Ok (Some data) ->
  Semver.parse (strip_prefix (str "v") ref) = Some ov ->
  (data = [] -> checkUrlDep commits tags false old = Throw)
  /\ (forall init last, data = init ++ [last] ->
        let t := strip_prefix (str "refs/tags/") last in
        checkUrlDep commits tags false old
        = match Semver.parse (strip_prefix (str "v") t) with
          | Some tv => if Semver.is_eq (Semver.compare ov tv) then Ok None
                       else Ok (Some (mkUrlUpdate t usr rp ref t))
          | None => Ok None
          end).
Proof.
  intros Hp Hh Ht Hov.
  rewrite (checkUrlDep_tags commits tags false old usr rp ref data ov) by assumption.
  split.
  - now intros ->.
  - intros init last -> t. rewrite map_app. cbn [map]. now rewrite last_tag_app.
Qed.

Lemma checkUrlDep_last_tag_witness :
  (([str "refs/tags/v1.0.0"; str "refs/tags/v1.2.0"; str "refs/tags/v1.1.0"] : list text) = [] ->
   checkUrlDep no_commits three_tags false
     (str "https://github.com/silverwind/updates#v1.2.0") = Throw)
  /\ (forall init last,
        [str "refs/tags/v1.0.0"; str "refs/tags/v1.2.0"; str "refs/tags/v1.1.0"]
        = init ++ [last] ->
        let t := strip_prefix (str "refs/tags/") last in
        checkUrlDep no_commits three_tags false
          (str "https://github.com/silverwind/updates#v1.2.0")
        = match Semver.parse (strip_prefix (str "v") t) with
          | Some tv => if Semver.is_eq (Semver.compare (Semver.mkSemVer 1 2 0 []) tv)
                       then Ok None
                       else Ok (Some (mkUrlUpdate t (str "silverwind") (str "updates")
                                        (str "v1.2.0") t))
          | None => Ok None
          end).
Proof.
  apply (checkUrlDep_last_tag no_commits three_tags
           (str "https://github.com/silverwind/updates#v1.2.0")
           (str "silverwind") (str "updates") (str "v1.2.0")).
  - vm_compute. reflexivity.
  - reflexivity.
  - reflexivity.
  - vm_compute. reflexivity.
Defined.

(** The last tag listed is older than the tag in use: the update goes
    down.  A branch whose name ends in a hexadecimal digit is read as a
    hash of one digit, and the first occurrence of the digit in the
    address is what the new hash is put for. *)
Example checkUrlDep_downgrade :
  checkUrlDep no_commits three_tags false
    (str "https://github.com/silverwind/updates#v1.2.0")
  = Ok (Some (mkUrlUpdate (str "v1.1.0") (str "silverwind") (str "updates")
                (str "v1.2.0") (str "v1.1.0")))
  /\ checkUrlDep (fun _ _ => Ok (Some [Some (str "6941e05b")])) three_tags false
       (str "https://github.com/user/repo#feature")
     = Ok (Some (mkUrlUpdate (str "https://github.com/us6r/repo#feature")
                   (str "user") (str "repo") (str "e") (str "6"))).
Proof. split; vm_compute; reflexivity. Qed.
(** ** The manifest file *)

(** X19.  [findSync] looks into the directory it is given and nowhere
    else: a path it returns is the file of that directory, which can be
    accessed; it returns nothing only where the file cannot be accessed;
    and where the file cannot be accessed, the directory has a parent and
    no directory to stop at is given, it throws instead of searching the
    parent. *)
Theorem findSync_no_ascent (join_path : text -> text -> text) (dirname : text -> text)
    (accessSync : text -> bool) (filename dir : text) (stopDir : option text) :
  (forall p, findSync join_path dirname accessSync filename dir stopDir = Ok (Some p) ->
     p = join_path dir filename /\ accessSync p = true)
  /\ (findSync join_path dirname accessSync filename dir stopDir = Ok None ->
      accessSync (join_path dir filename) = false
      /\ (dirname dir = dir \/ stopDir = Some (join_path dir filename)))
  /\ (accessSync (join_path dir filename) = false -> dirname dir <> dir ->
      stopDir = None ->
      findSync join_path dirname accessSync filename dir stopDir = Throw).
Proof.
  unfold findSync. cbv zeta.
  destruct (accessSync (join_path dir filename)) eqn:Ha.
  - split; [| split]; try discriminate.
    intros p H. inversion H; subst p. now split.
  - split; [intros p H; case_if_in H; discriminate |]. split.
    + intros H. split; [reflexivity |].
      destruct (text_eqb (dirname dir) dir) eqn:Ed.
      * left. now apply text_eqb_eq.
      * right. rewrite orb_false_r in H. destruct stopDir as [s |]; [| discriminate].
        destruct (negb (falsy (Some s)) && text_eqb (join_path dir filename) s) eqn:E;
          [| discriminate].
        apply andb_prop in E as [_ E]. apply text_eqb_eq in E. now subst.
    + intros _ Hd ->. apply text_eqb_neq in Hd. now rewrite Hd.
Qed.

Lemma findSync_no_ascent_witness :
  findSync (fun d f => d ++ "/" :: f) (fun d => str "/home")
    (fun p => text_eqb p (str "/home/package.json"))
    (str "package.json") (str "/home/project") None
  = Throw.
Proof.
  apply (findSync_no_ascent (fun d f => d ++ "/" :: f) (fun d => str "/home")
           (fun p => text_eqb p (str "/home/package.json"))
           (str "package.json") (str "/home/project") None).
  - reflexivity.
  - discriminate.
  - reflexivity.
Defined.
(** ** The end of a run *)


Lemma main_loop_deps_throw args dati :
  forall d, main_loop args dati d = Throw -> snd (main_loop_deps args dati d) = true.
Proof.
  induction dati as [| entry rest IH]; intros d H; cbn [main_loop main_loop_deps] in *.
  - discriminate.
  - destruct (main_step args d entry) as [d1 |]; [now apply IH | reflexivity].
Qed.



(** ** Memoized functions *)

Lemma cached_cons {V : Type} (arg k : text) (v : V) (c : cache V) :
  cached V arg ((k, v) :: c) = if text_eqb arg k then Some v else cached V arg c.
Proof. reflexivity. Qed.

Lemma coherent_cons {V A2 : Type} (fn : text -> A2 -> result V) (arg2 : A2)
    (c : cache V) (arg : text) (v : V) :
  coherent fn arg2 c -> fn arg arg2 = Ok v -> coherent fn arg2 ((arg, v) :: c).
Proof.
  intros Hc Hv k w. rewrite cached_cons. destruct (text_eqb k arg) eqn:E.
  - apply text_eqb_eq in E. subst k. intros H. inversion H; subst w. exact Hv.
  - apply Hc.
Qed.

(** X21.  A call of a memoized function on a cache that holds values of
    the function for the second argument in use, for an argument that is
    no name of a property the cache inherits: the call returns what the
    function returns, a value that is kept being returned without a call
    when it is truthy and computed again when it is not; it throws where
    the function throws; and it leaves a cache that holds values of the
    function. *)
Theorem memoize_agrees (V A2 : Type) (truthy : V -> bool) (fn : text -> A2 -> result V)
    (c : cache V) (arg : text) (arg2 : A2) :
  coherent fn arg2 c ->
  existsb (text_eqb arg) inherited = false ->
  match memoize V truthy A2 fn c arg arg2 with
  | Ok (Value v, c') => fn arg arg2 = Ok v /\ coherent fn arg2 c'
  | Ok (Inherited _, _) => False
  | Throw => fn arg arg2 = Throw
  end.
Proof.
  intros Hc Hi. unfold memoize. rewrite Hi.
  assert (Hcall : match (v' <- fn arg arg2 ;; Ok (Value v', (arg, v') :: c)) with
                  | Ok (Value v, c') => fn arg arg2 = Ok v /\ coherent fn arg2 c'
                  | Ok (Inherited _, _) => False
                  | Throw => fn arg arg2 = Throw
                  end).
  { destruct (fn arg arg2) as [v' |] eqn:E; cbn [bind]; [| reflexivity].
    split; [reflexivity | now apply coherent_cons]. }
  destruct (cached V arg c) as [v |] eqn:Ec; [| exact Hcall].
  destruct (truthy v); [| exact Hcall]. split; [now apply Hc | exact Hc].
Qed.

Lemma memoize_agrees_witness :
  match memoize text (fun v => negb (falsy (Some v))) unit
          (fun url _ => Ok (normalizeRegistryUrl url)) []
          (str "https://registry.npmjs.org/") tt with
  | Ok (Value v, c') =>
      Ok (normalizeRegistryUrl (str "https://registry.npmjs.org/")) = Ok v
      /\ coherent (fun url (_ : unit) => Ok (normalizeRegistryUrl url)) tt c'
  | Ok (Inherited _, _) => False
  | Throw => Ok (normalizeRegistryUrl (str "https://registry.npmjs.org/")) = Throw
  end.
Proof.
  apply (memoize_agrees text unit (fun v => negb (falsy (Some v)))
           (fun url _ => Ok (normalizeRegistryUrl url)) []
           (str "https://registry.npmjs.org/") tt).
  - intros k v H. discriminate.
  - reflexivity.
Defined.

(** The second argument is no part of what a value is kept under: a value
    kept for one second argument is returned for another.  And for the
    name of an inherited property the function is not called. *)
Example memoize_second_argument :
  memoize nat (fun _ => true) nat (fun _ n => Ok n) [(str "a", 1)] (str "a") 2
  = Ok (Value 1, [(str "a", 1)])
  /\ memoize text (fun _ => true) unit (fun url _ => Ok (normalizeRegistryUrl url)) []
       (str "constructor") tt
     = Ok (Inherited (str "constructor"), []).
Proof. split; reflexivity. Qed.
